(** * LSB steganography codec: a shallow embedding of [steganography.py]

    The three entry points [encode_image], [decode_image] and
    [analyze_image_capacity] are embedded as computations in a small state
    and exception monad over a world made of the files on disk, the image
    objects in memory and the lines printed so far. *)

From Stdlib Require Import ZArith NArith Lia.
From Stdlib Require QArith_base.
From stdpp Require Import base option list gmap strings pretty.

Local Open Scope Z_scope.

(** ** Python values *)

(** A Python [str] is a sequence of Unicode code points. *)
Definition char : Type := N.
Definition str : Type := list char.

(** A string of ['0'] and ['1'] characters, as built by [format] and by the
    extraction loops; [true] stands for ['1']. *)
Definition bitstring : Type := list bool.

Definition ord (c : char) : N := c.

Fixpoint pos_digits (p : positive) (acc : bitstring) : bitstring :=
  match p with
  | xH => true :: acc
  | xO q => pos_digits q (false :: acc)
  | xI q => pos_digits q (true :: acc)
  end.

(** [format(n, "b")]: the binary digits of [n], most significant first. *)
Definition format_b (n : N) : bitstring :=
  match n with
  | N0 => [false]
  | Npos p => pos_digits p []
  end.

(** [format(n, "08b")]: the same, padded on the left with zeros to width 8;
    a number that needs more than 8 digits keeps them all. *)
Definition format_08b (n : N) : bitstring :=
  let ds := format_b n in
  replicate (8 - length ds)%nat false ++ ds.

(** [int(bit)] for a one-character string, and [int(byte, 2)]. *)
Definition int_of_bit (b : bool) : Z := if b then 1 else 0.

Definition int_base2 (bs : bitstring) : N :=
  fold_left (fun acc (b : bool) => (2 * acc + (if b then 1 else 0))%N) bs 0%N.

(** [str(v & 1)] for an integer [v]. *)
Definition str_lsb (v : Z) : bool := negb (Z.land v 1 =? 0).

Inductive exn : Type :=
  | FileNotFoundError
  | UnidentifiedImageError
  | IndexError
  | ValueError
  | OSError.

(** [chr] raises [ValueError] outside the Unicode range. *)
Definition chr (n : N) : exn + char :=
  if (n <? 1114112)%N then inr n else inl ValueError.

(** The delimiter ["###"]. *)
Definition hash : char := 35%N.
Definition delimiter : str := [hash; hash; hash].

Definition char_eqb (a b : char) : bool := (a =? b)%N.

Fixpoint str_eqb (a b : str) : bool :=
  match a, b with
  | [], [] => true
  | x :: a', y :: b' => char_eqb x y && str_eqb a' b'
  | _, _ => false
  end.

Fixpoint startswith (s p : str) : bool :=
  match p, s with
  | [], _ => true
  | x :: p', y :: s' => char_eqb x y && startswith s' p'
  | _ :: _, [] => false
  end.

(** [p in s] for strings. *)
Fixpoint str_contains (s p : str) : bool :=
  startswith s p ||
  match s with
  | [] => false
  | _ :: s' => str_contains s' p
  end.

(** [s[-3:]] and [s[:-3]]. *)
Definition last3 (s : str) : str := drop (length s - 3)%nat s.
Definition drop_last3 (s : str) : str := take (length s - 3)%nat s.

Definition endswith_delimiter (s : str) : bool := str_eqb (last3 s) delimiter.

(** A string literal of the development as a Python string. *)
Definition py (s : string) : str :=
  map Ascii.N_of_ascii (String.list_ascii_of_string s).

(** ** Images: the part of PIL the codec relies on *)

(** The modes the module's comments name: grayscale, RGB and RGBA. *)
Inductive mode : Type := L | RGB | RGBA.

Definition mode_eqb (a b : mode) : bool :=
  match a, b with
  | L, L | RGB, RGB | RGBA, RGBA => true
  | _, _ => false
  end.

(** What [getpixel] returns: an [int] for a single-band image, a tuple of
    band values otherwise. *)
Inductive pixel_value : Type :=
  | PInt (v : Z)
  | PTuple (cs : list Z).

(** An image object; the pixels are kept in row-major order. *)
Record Image : Type := mkImage {
  img_mode : mode;
  img_width : nat;
  img_height : nat;
  img_data : list pixel_value
}.

Definition band_ok (v : Z) : bool := (0 <=? v) && (v <=? 255).

Definition pixel_ok (m : mode) (p : pixel_value) : bool :=
  match m, p with
  | L, PInt v => band_ok v
  | RGB, PTuple [r; g; b] => band_ok r && band_ok g && band_ok b
  | RGBA, PTuple [r; g; b; a] => band_ok r && band_ok g && band_ok b && band_ok a
  | _, _ => false
  end.

(** The images PIL can hand out: as many pixels as the size says, each of
    the shape of the mode. *)
Definition well_formed (im : Image) : bool :=
  (length (img_data im) =? img_width im * img_height im)%nat
  && forallb (pixel_ok (img_mode im)) (img_data im).

(** [im.getpixel((x, y))] *)
Definition getpixel (im : Image) (xy : nat * nat) : exn + pixel_value :=
  let '(x, y) := xy in
  if (x <? img_width im)%nat && (y <? img_height im)%nat then
    match img_data im !! (y * img_width im + x)%nat with
    | Some p => inr p
    | None => inl IndexError
    end
  else inl IndexError.

(** [im.putpixel((x, y), value)], as the new contents of the object. *)
Definition putpixel (im : Image) (xy : nat * nat) (value : pixel_value) : exn + Image :=
  let '(x, y) := xy in
  if (x <? img_width im)%nat && (y <? img_height im)%nat
     && (y * img_width im + x <? length (img_data im))%nat then
    inr (mkImage (img_mode im) (img_width im) (img_height im)
                 (<[(y * img_width im + x)%nat := value]> (img_data im)))
  else inl IndexError.

(** One pixel under [convert('RGB')]: a grey level is repeated on the three
    bands, an alpha band is dropped. *)
Definition rgb_of_pixel (p : pixel_value) : pixel_value :=
  match p with
  | PInt v => PTuple [v; v; v]
  | PTuple cs => PTuple (take 3 cs)
  end.

Definition convert_RGB (im : Image) : Image :=
  mkImage RGB (img_width im) (img_height im) (map rgb_of_pixel (img_data im)).

(** ** The world: files, image objects, printed lines *)

Record file : Type := mkFile {
  f_image : option Image;   (* [None]: not decodable as an image *)
  f_size : N                (* length in bytes *)
}.

(** One constructor per [print] of the module, with the interpolated
    values. *)
Inductive line : Type :=
  | PConverting (m : mode)
  | PTooLarge (max_chars : nat) (message_length : nat)
  | PEncoding (chars bits : nat)
  | PCapacity (bits chars : nat)
  | PPixelError (col row : nat) (e : exn)
  | PModified (modified_pixels : nat)
  | PSaved
  | PVerified
  | PVerifyWarning
  | PEncodeError (e : exn)
  | PVerifyError (e : exn)
  | PExtractError (col row : nat) (e : exn)
  | PExtracted (bits : nat)
  | PNotEnoughBits
  | PByteError (byte : bitstring)
  | PFoundWithoutDelimiter
  | PNoMessage
  | PDecodeError (e : exn)
  | PAnalyzeError (e : exn).

Definition loc : Type := nat.

Record world : Type := mkWorld {
  files : gmap string file;
  readonly : gset string;     (* paths that cannot be written *)
  heap : list Image;          (* the image objects, by address *)
  stdout : list line
}.

Definition set_files (fs : gmap string file) (w : world) : world :=
  mkWorld fs (readonly w) (heap w) (stdout w).
Definition set_heap (h : list Image) (w : world) : world :=
  mkWorld (files w) (readonly w) h (stdout w).
Definition set_stdout (o : list line) (w : world) : world :=
  mkWorld (files w) (readonly w) (heap w) o.

(** ** The monad of statements: state and exceptions *)

Definition M (A : Type) : Type := world -> (exn + A) * world.

Definition ret {A} (a : A) : M A := fun w => (inr a, w).
Definition raise {A} (e : exn) : M A := fun w => (inl e, w).
Definition lift {A} (r : exn + A) : M A := fun w => (r, w).

Definition bind {A B} (m : M A) (k : A -> M B) : M B :=
  fun w =>
    match m w with
    | (inr a, w') => k a w'
    | (inl e, w') => (inl e, w')
    end.

(** [try: m except Exception as e: h e] *)
Definition try_except {A} (m : M A) (h : exn -> M A) : M A :=
  fun w =>
    match m w with
    | (inr a, w') => (inr a, w')
    | (inl e, w') => h e w'
    end.

Declare Scope py_scope.
Delimit Scope py_scope with py.
Notation "x <- m ;; k" := (bind m (fun x => k))
  (at level 100, m at next level, right associativity) : py_scope.
Notation "m ;; k" := (bind m (fun _ => k))
  (at level 100, right associativity) : py_scope.
Bind Scope py_scope with M.

Definition print (l : line) : M unit :=
  fun w => (inr tt, set_stdout (stdout w ++ [l]) w).

(** Loops: the body says whether the loop goes on ([Next], also the effect
    of [continue]) or is left ([Break]). *)
Inductive flow : Type := Next | Break.

Fixpoint for_each {S} (xs : list nat) (body : nat -> S -> M (flow * S)) (s : S) : M S :=
  match xs with
  | [] => ret s
  | x :: xs' =>
      bind (body x s) (fun r =>
        match r with
        | (Break, s') => ret s'
        | (Next, s') => for_each xs' body s'
        end)
  end.

(** [range(start, stop, step)] for a positive step. *)
Definition range3 (start stop step : nat) : list nat :=
  map (fun k => start + k * step)%nat (seq 0 ((stop - start + (step - 1)) / step)).

(** ** PIL and os calls on the world *)

Definition alloc (im : Image) : M loc :=
  fun w => (inr (length (heap w)), set_heap (heap w ++ [im]) w).

(** An object is reached through its address; addresses only come from
    [alloc], so the error branch is never taken by the codec. *)
Definition deref (l : loc) : M Image :=
  fun w =>
    match heap w !! l with
    | Some im => (inr im, w)
    | None => (inl ValueError, w)
    end.

Definition Image_open (path : string) : M loc :=
  fun w =>
    match files w !! path with
    | None => (inl FileNotFoundError, w)
    | Some f =>
        match f_image f with
        | None => (inl UnidentifiedImageError, w)
        | Some im => alloc im w
        end
    end.

Definition image_mode (l : loc) : M mode :=
  (im <- deref l ;; ret (img_mode im))%py.

Definition image_size (l : loc) : M (nat * nat) :=
  (im <- deref l ;; ret (img_width im, img_height im))%py.

(** [convert] and [copy] return a new object. *)
Definition image_convert_RGB (l : loc) : M loc :=
  (im <- deref l ;; alloc (convert_RGB im))%py.

Definition image_copy (l : loc) : M loc :=
  (im <- deref l ;; alloc im)%py.

Definition image_getpixel (l : loc) (xy : nat * nat) : M pixel_value :=
  (im <- deref l ;; lift (getpixel im xy))%py.

(** [putpixel] changes the object in place. *)
Definition image_putpixel (l : loc) (xy : nat * nat) (value : pixel_value) : M unit :=
  (im <- deref l ;;
   im' <- lift (putpixel im xy value) ;;
   fun w => (inr tt, set_heap (<[l := im']> (heap w)) w))%py.

Definition os_path_getsize (path : string) : M N :=
  fun w =>
    match files w !! path with
    | Some f => (inr (f_size f), w)
    | None => (inl FileNotFoundError, w)
    end.

(** ** The codec *)

Section Codec.

(** The length in bytes of the PNG file written for an image; the codec
    never looks at it. *)
Variable png_size : Image -> N.

(** [im.save(path, format='PNG')]: PNG is lossless, the file holds the
    image as it is. *)
Definition image_save (l : loc) (path : string) : M unit :=
  (im <- deref l ;;
   fun w =>
     if decide (path ∈ readonly w) then (inl OSError, w)
     else (inr tt, set_files (<[path := mkFile (Some im) (png_size im)]> (files w)) w))%py.

(** The message with its delimiter as a string of binary digits. *)
Definition binary_of (message : str) : bitstring :=
  flat_map (fun i => format_08b (ord i)) message.

(** Lines 68-76: one band of the pixel, [st] is [(pixel, index)]. *)
Definition set_channel (binary_message : bitstring) (st : list Z * nat) (i : nat)
  : list Z * nat :=
  let '(pixel, index) := st in
  if (index <? length binary_message)%nat then
    let old_bit := Z.land (nth i pixel 0) 1 in
    let new_bit := int_of_bit (nth index binary_message false) in
    let pixel :=
      if old_bit =? new_bit then pixel
      else <[i := Z.lor (Z.land (nth i pixel 0) (Z.lnot 1)) new_bit]> pixel in
    (pixel, S index)
  else st.

(** Lines 85-88: [if index >= len(binary_message): break]. *)
Definition break_if_done (binary_message : bitstring) (st : nat * nat)
  : flow * (nat * nat) :=
  if (length binary_message <=? fst st)%nat then (Break, st) else (Next, st).

(** Lines 47-86: the body of the inner loop, [st] is
    [(index, modified_pixels)]. *)
Definition encode_pixel (image encoded : loc) (binary_message : bitstring)
    (row col : nat) (st : nat * nat) : M (flow * (nat * nat)) :=
  let '(index, modified_pixels) := st in
  if (index <? length binary_message)%nat then
    (pixel_value <- image_getpixel image (col, row) ;;
     match pixel_value with
     | PInt v =>
         let new_value :=
           Z.lor (Z.land v (Z.lnot 1)) (int_of_bit (nth index binary_message false)) in
         image_putpixel encoded (col, row) (PInt new_value) ;;
         ret (break_if_done binary_message (S index, S modified_pixels))
     | PTuple cs =>
         let '(pixel, index) :=
           fold_left (set_channel binary_message) (seq 0 (min 3 (length cs))) (cs, index) in
         try_except
           (image_putpixel encoded (col, row) (PTuple pixel) ;;
            ret (break_if_done binary_message (index, S modified_pixels)))
           (fun pixel_error =>
              print (PPixelError col row pixel_error) ;;
              ret (Next, (index, modified_pixels)))
     end)%py
  else ret (break_if_done binary_message st).

(** Lines 45-88. *)
Definition encode_row (image encoded : loc) (binary_message : bitstring)
    (width row : nat) (st : nat * nat) : M (flow * (nat * nat)) :=
  (st <- for_each (seq 0 width) (encode_pixel image encoded binary_message row) st ;;
   ret (break_if_done binary_message st))%py.

Definition encode_pixels (image encoded : loc) (binary_message : bitstring)
    (width height : nat) : M (nat * nat) :=
  for_each (seq 0 height) (encode_row image encoded binary_message width) (0, 0)%nat.

(** Lines 151-153 of [verify_encoding]. *)
Definition take_channel (total_bits_needed : nat) (pixel_list : list Z)
    (binary_data : bitstring) (i : nat) : bitstring :=
  if (length binary_data <? total_bits_needed)%nat
  then binary_data ++ [str_lsb (nth i pixel_list 0)]
  else binary_data.

(** Lines 134-155. *)
Definition verify_pixel (encoded_image : loc) (total_bits_needed row col : nat)
    (binary_data : bitstring) : M (flow * bitstring) :=
  if (total_bits_needed <=? length binary_data)%nat then ret (Break, binary_data)
  else
    try_except
      (pixel_value <- image_getpixel encoded_image (col, row) ;;
       match pixel_value with
       | PInt v => ret (Next, binary_data ++ [str_lsb v])
       | PTuple pixel_list =>
           ret (Next, fold_left (take_channel total_bits_needed pixel_list)
                                (seq 0 (min 3 (length pixel_list))) binary_data)
       end)%py
      (fun _ => ret (Next, binary_data)).

Definition verify_row (encoded_image : loc) (total_bits_needed width row : nat)
    (binary_data : bitstring) : M (flow * bitstring) :=
  (binary_data <- for_each (seq 0 width)
                   (verify_pixel encoded_image total_bits_needed row) binary_data ;;
   if (total_bits_needed <=? length binary_data)%nat
   then ret (Break, binary_data) else ret (Next, binary_data))%py.

(** Lines 162-169. *)
Definition verify_byte (binary_data : bitstring) (i : nat) (decoded_message : str)
  : M (flow * str) :=
  if (i + 8 <=? length binary_data)%nat then
    let byte := take 8 (drop i binary_data) in
    (c <- lift (chr (int_base2 byte)) ;;
     let decoded_message := decoded_message ++ [c] in
     if endswith_delimiter decoded_message then ret (Break, decoded_message)
     else ret (Next, decoded_message))%py
  else ret (Next, decoded_message).

Definition verify_encoding (encoded_image : loc) (original_message : str) : M bool :=
  try_except
    (sz <- image_size encoded_image ;;
     let width := fst sz in
     let height := snd sz in
     let total_bits_needed := ((length original_message + 3) * 8)%nat in
     binary_data <- for_each (seq 0 height)
                      (verify_row encoded_image total_bits_needed width) [] ;;
     decoded_message <- for_each (range3 0 (length binary_data) 8)
                          (verify_byte binary_data) [] ;;
     if str_contains decoded_message delimiter then
       ret (str_eqb (drop_last3 decoded_message) original_message)
     else ret false)%py
    (fun e => print (PVerifyError e) ;; ret false)%py.

Definition encode_image (image_path : string) (message : str) (output_path : string)
  : M bool :=
  try_except
    (image <- Image_open image_path ;;
     image_mode_ <- image_mode image ;;
     image <- (if mode_eqb image_mode_ RGB then ret image
               else (print (PConverting image_mode_) ;; image_convert_RGB image)) ;;
     encoded <- image_copy image ;;
     sz <- image_size image ;;
     let width := fst sz in
     let height := snd sz in
     let original_message := message in
     let message := message ++ delimiter in
     let binary_message := binary_of message in
     let max_capacity := (width * height * 3)%nat in
     if (max_capacity <? length binary_message)%nat then
       let max_chars := (max_capacity / 8)%nat in
       print (PTooLarge max_chars (length original_message)) ;;
       ret false
     else
       print (PEncoding (length original_message) (length binary_message)) ;;
       print (PCapacity max_capacity (max_capacity / 8)%nat) ;;
       st <- encode_pixels image encoded binary_message width height ;;
       let modified_pixels := snd st in
       verification_success <- verify_encoding encoded original_message ;;
       encoded <- image_convert_RGB encoded ;;
       image_save encoded output_path ;;
       print (PModified modified_pixels) ;;
       print PSaved ;;
       (if verification_success : bool then print PVerified else print PVerifyWarning) ;;
       ret true)%py
    (fun e => print (PEncodeError e) ;; ret false)%py.

End Codec.

(** Lines 204-216 of [decode_image]. *)
Definition extract_pixel (image : loc) (row col : nat) (binary_data : bitstring)
  : M (flow * bitstring) :=
  try_except
    (pixel_value <- image_getpixel image (col, row) ;;
     match pixel_value with
     | PInt v => ret (Next, binary_data ++ [str_lsb v])
     | PTuple pixel_list =>
         ret (Next, fold_left (fun bd i => bd ++ [str_lsb (nth i pixel_list 0)])
                              (seq 0 (min 3 (length pixel_list))) binary_data)
     end)%py
    (fun e => print (PExtractError col row e) ;; ret (Next, binary_data))%py.

Definition extract_row (image : loc) (width row : nat) (binary_data : bitstring)
  : M (flow * bitstring) :=
  (binary_data <- for_each (seq 0 width) (extract_pixel image row) binary_data ;;
   ret (Next, binary_data))%py.

(** Lines 231-242; the state is the candidate and, once the delimiter has
    been seen, the value returned from inside the loop. *)
Definition decode_byte (binary_data : bitstring) (i : nat) (st : str * option str)
  : M (flow * (str * option str)) :=
  let decoded_message := fst st in
  if (i + 8 <=? length binary_data)%nat then
    let byte := take 8 (drop i binary_data) in
    try_except
      (c <- lift (chr (int_base2 byte)) ;;
       let decoded_message := decoded_message ++ [c] in
       if (3 <=? length decoded_message)%nat && str_eqb (last3 decoded_message) delimiter
       then ret (Break, (decoded_message, Some (drop_last3 decoded_message)))
       else ret (Next, (decoded_message, None)))%py
      (fun e =>
         match e with
         | ValueError => print (PByteError byte) ;; ret (Next, (decoded_message, None))
         | _ => raise e
         end)%py
  else ret (Next, st).

Definition printable (c : char) : bool := (32 <=? ord c)%N && (ord c <=? 126)%N.

(** Lines 246-254. [len(printable_chars) > len(decoded_message) * 0.5]
    compares an integer with half of an integer, which is exact in floating
    point for every length a string can have; it is the comparison
    [len(decoded_message) < 2 * len(printable_chars)]. *)
Definition fallback (decoded_message : str) : M (option str) :=
  let printable_chars := filter (fun c => printable c = true) decoded_message in
  if negb (length decoded_message =? 0)%nat && (2 <? length decoded_message)%nat
     && (length decoded_message <? 2 * length printable_chars)%nat then
    (print PFoundWithoutDelimiter ;; ret (Some printable_chars))%py
  else (print PNoMessage ;; ret None)%py.

Definition decode_image (image_path : string) : M (option str) :=
  try_except
    (image <- Image_open image_path ;;
     sz <- image_size image ;;
     let width := fst sz in
     let height := snd sz in
     binary_data <- for_each (seq 0 height) (extract_row image width) [] ;;
     print (PExtracted (length binary_data)) ;;
     if (length binary_data <? 8)%nat then
       print PNotEnoughBits ;; ret None
     else
       st <- for_each (range3 0 (min (length binary_data) (Z.to_nat 50000)) 8)
               (decode_byte binary_data) ([], None) ;;
       match snd st with
       | Some found => ret (Some found)
       | None => fallback (fst st)
       end)%py
    (fun e => print (PDecodeError e) ;; ret None)%py.

Record capacity_info : Type := mkCapacity {
  image_dimensions : string;
  max_bits : nat;
  max_characters : Z;
  file_size_kb : QArith_base.Q
}.

Definition analyze_image_capacity (image_path : string) : M (option capacity_info) :=
  try_except
    (image <- Image_open image_path ;;
     sz <- image_size image ;;
     let width := fst sz in
     let height := snd sz in
     let total_bits := (width * height * 3)%nat in
     let max_chars := (total_bits / 8)%nat in
     let usable_chars := Z.of_nat max_chars - 3 in
     size <- os_path_getsize image_path ;;
     ret (Some (mkCapacity (pretty width +:+ "x" +:+ pretty height)
                           total_bits usable_chars
                           (QArith_base.Qmake (Z.of_N size) 1024))))%py
    (fun e => print (PAnalyzeError e) ;; ret None)%py.

(** ** Closed forms used to describe what the loops compute *)

(** [(v & ~1) | bit] *)
Definition set_lsb (v : Z) (b : bool) : Z :=
  Z.lor (Z.land v (Z.lnot 1)) (int_of_bit b).

Fixpoint write_lsbs (bits : bitstring) (cs : list Z) : list Z :=
  match bits, cs with
  | b :: bits', c :: cs' => set_lsb c b :: write_lsbs bits' cs'
  | _, _ => cs
  end.

Definition is_rgb (p : pixel_value) : bool :=
  match p with
  | PTuple [_; _; _] => true
  | _ => false
  end.

(** The pixels of the encoded image: three bits per pixel until the bits
    run out. *)
Fixpoint embed (bits : bitstring) (px : list pixel_value) : list pixel_value :=
  match px with
  | [] => []
  | p :: px' =>
      match bits with
      | [] => px
      | _ :: _ =>
          match p with
          | PTuple cs => PTuple (write_lsbs (take 3 bits) cs)
          | PInt v => PInt v
          end :: embed (drop 3 bits) px'
      end
  end.

(** The bits the extraction loops read from one pixel, and from an image. *)
Definition pixel_bits (p : pixel_value) : bitstring :=
  match p with
  | PInt v => [str_lsb v]
  | PTuple cs => map str_lsb (take 3 cs)
  end.

Definition lsb_stream (px : list pixel_value) : bitstring :=
  flat_map pixel_bits px.

(** The character read at byte position [k], if all its 8 bits are there. *)
Definition byte_at (bd : bitstring) (k : nat) : option char :=
  if (k * 8 + 8 <=? length bd)%nat
  then Some (int_base2 (take 8 (drop (k * 8) bd)))
  else None.

(** The delimiter search: characters are appended to the candidate until
    it ends with the delimiter. *)
Fixpoint scan (chars : list char) (decoded : str) : str * option str :=
  match chars with
  | [] => (decoded, None)
  | c :: chars' =>
      let decoded := decoded ++ [c] in
      if (3 <=? length decoded)%nat && str_eqb (last3 decoded) delimiter
      then (decoded, Some (drop_last3 decoded))
      else scan chars' decoded
  end.

Definition fallback_value (decoded_message : str) : option str :=
  let printable_chars := filter (fun c => printable c = true) decoded_message in
  if negb (length decoded_message =? 0)%nat && (2 <? length decoded_message)%nat
     && (length decoded_message <? 2 * length printable_chars)%nat
  then Some printable_chars else None.

(** The characters the decoder looks at: the whole bytes among the first
    50,000 bits. *)
Definition scanned_chars (bd : bitstring) : list char :=
  omap (byte_at bd) (seq 0 ((min (length bd) (Z.to_nat 50000) - 0 + (8 - 1)) / 8)).

(** What [decode_image] returns for the extracted bits [bd]. *)
Definition decode_bits (bd : bitstring) : option str :=
  if (length bd <? 8)%nat then None
  else
    match scan (scanned_chars bd) [] with
    | (_, Some found) => Some found
    | (decoded, None) => fallback_value decoded
    end.

(** No proper prefix of the message followed by the delimiter ends with the
    delimiter: the delimiter the encoder appends is the first one. *)
Definition no_early_delimiter (message : str) : bool :=
  forallb (fun k => negb (endswith_delimiter (take k (message ++ delimiter))))
          (seq 0 (length message + 3)).

Definition single_byte (message : str) : bool :=
  forallb (fun c => (ord c <? 256)%N) message.

(** [usable_chars] of the capacity analyzer for a [width] x [height]
    image. *)
Definition usable_characters (width height : nat) : Z :=
  Z.of_nat (width * height * 3 / 8) - 3.

(** The number of pixels needed for [n] bits. *)
Definition pixels_for (n : nat) : nat := ((n + 2) / 3)%nat.

(** The encoder's loop after [k] pixels: the local variables
    [(index, modified_pixels)] and the pixels of [encoded]. *)
Definition state_at (bm : bitstring) (k : nat) : nat * nat :=
  (min (3 * k) (length bm), min k (pixels_for (length bm))).

Definition data_at (bm : bitstring) (src : list pixel_value) (k : nat)
  : list pixel_value :=
  take k (embed bm src) ++ drop k src.

(** Frame conditions: a statement respects a relation between worlds when
    running it takes every world to a related one. *)
Definition respects (R : world -> world -> Prop) {A} (m : M A) : Prop :=
  forall w, R w (snd (m w)).

(** Only [stdout] may differ. *)
Definition only_prints (w w' : world) : Prop :=
  exists o, w' = set_stdout o w.

(** The objects below address [n] are the same, and so is every file but
    the one at [path]. *)
Definition untouched (n : nat) (path : string) (w w' : world) : Prop :=
  (n <= length (heap w))%nat ->
  take n (heap w') = take n (heap w) /\
  forall p, p <> path -> files w' !! p = files w !! p.

(** The objects [encode_image] creates before it copies the carrier: the
    opened image and, unless it is RGB already, its conversion. *)
Definition carrier_objects (im : Image) : list Image :=
  if mode_eqb (img_mode im) RGB then [im] else [im; convert_RGB im].

Definition conversion_lines (im : Image) : list line :=
  if mode_eqb (img_mode im) RGB then [] else [PConverting (img_mode im)].

(** The image [encode_image] saves for a message that fits. *)
Definition encoded_image_of (im : Image) (message : str) : Image :=
  mkImage RGB (img_width im) (img_height im)
          (embed (binary_of (message ++ delimiter)) (map rgb_of_pixel (img_data im))).

(** The world when [encode_image] reaches its self-check (line 91): the
    pixels are embedded in the copy, nothing is saved yet. *)
Definition world_at_self_check (w : world) (im : Image) (message : str) : world :=
  mkWorld (files w) (readonly w)
          (heap w ++ carrier_objects im ++ [encoded_image_of im message])
          (stdout w ++ conversion_lines im
             ++ [PEncoding (length message) (length (binary_of (message ++ delimiter)));
                 PCapacity (img_width im * img_height im * 3)%nat
                           (img_width im * img_height im * 3 / 8)%nat]).

(** ** Example worlds *)

(** A file size for the images written in the examples: a fixed header
    and three bytes per pixel. *)
Definition raw_size (im : Image) : N := (54 + 3 * N.of_nat (length (img_data im)))%N.

(** A 10 x 10 RGB carrier stored as [in.png]. *)
Definition demo_image : Image := mkImage RGB 10 10 (replicate 100 (PTuple [0; 255; 7])).
Definition demo_file : file := mkFile (Some demo_image) 354.
Definition demo_world : world := mkWorld {[ "in.png"%string := demo_file ]} ∅ [] [].

(** A carrier of 16,678 pixels (50,034 bits) stored as [wide.png], and a
    message of 6,251 letters: with the delimiter its 50,032 bits fit the
    carrier, and the delimiter starts after the 50,000th bit. *)
Definition wide_image : Image :=
  mkImage RGB (Z.to_nat 16678) 1 (replicate (Z.to_nat 16678) (PTuple [0; 0; 0])).
Definition wide_file : file := mkFile (Some wide_image) 50088.
Definition wide_world : world := mkWorld {[ "wide.png"%string := wide_file ]} ∅ [] [].
Definition long_message : str := replicate (Z.to_nat 6251) 97%N.

(** Eleven pixels whose low bits spell ['a'], ['b'], [chr(1)], [chr(2)] and
    one more bit, stored as [half.png]. *)
Definition half_image : Image :=
  mkImage RGB 11 1
    [PTuple [0; 1; 1]; PTuple [0; 0; 0]; PTuple [0; 1; 0]; PTuple [1; 1; 0];
     PTuple [0; 0; 1]; PTuple [0; 0; 0]; PTuple [0; 0; 0]; PTuple [0; 0; 1];
     PTuple [0; 0; 0]; PTuple [0; 0; 0]; PTuple [1; 0; 0]].
Definition half_file : file := mkFile (Some half_image) 87.
Definition half_world : world := mkWorld {[ "half.png"%string := half_file ]} ∅ [] [].

(** A single pixel stored as [dot.png]. *)
Definition dot_image : Image := mkImage RGB 1 1 [PTuple [12; 34; 56]].
Definition dot_file : file := mkFile (Some dot_image) 57.
Definition dot_world : world := mkWorld {[ "dot.png"%string := dot_file ]} ∅ [] [].

(** The image written for ["hi"] on the 10 x 10 carrier, stored as
    [hi.png]. *)
Definition stamped_image : Image := encoded_image_of demo_image (py "hi").
Definition stamped_file : file := mkFile (Some stamped_image) 354.
Definition stamped_world : world :=
  mkWorld {[ "hi.png"%string := stamped_file ]} ∅ [] [].

(** The same carrier when [out.png] cannot be written. *)
Definition locked_world : world :=
  mkWorld {[ "in.png"%string := demo_file ]} {[ "out.png"%string ]} [] [].

(** ** Closed forms for the self-check and the decoder's output *)

(** What [verify_encoding] returns for the bits [bd] it has extracted. *)
Definition verify_value (bd : bitstring) (original_message : str) : bool :=
  let decoded_message :=
    fst (scan (omap (byte_at bd) (seq 0 ((length bd - 0 + (8 - 1)) / 8))) []) in
  if str_contains decoded_message delimiter
  then str_eqb (drop_last3 decoded_message) original_message
  else false.

(** The lines [decode_image] prints after the number of extracted bits. *)
Definition decode_lines (bd : bitstring) : list line :=
  if (length bd <? 8)%nat then [PNotEnoughBits]
  else
    match scan (scanned_chars bd) [] with
    | (_, Some _) => []
    | (decoded, None) =>
        match fallback_value decoded with
        | Some _ => [PFoundWithoutDelimiter]
        | None => [PNoMessage]
        end
    end.

(** Two pixels of the same shape whose bands agree above the lowest bit,
    and two that agree on the lowest bit of their first three bands. *)
Definition same_upper_bits (p q : pixel_value) : Prop :=
  match p, q with
  | PInt v, PInt u => v / 2 = u / 2
  | PTuple cs, PTuple ds => Forall2 (fun c d => c / 2 = d / 2) cs ds
  | _, _ => False
  end.

(** Nothing on disk changes and no object changes; objects may be
    created. *)
Definition reads_only (w w' : world) : Prop :=
  files w' = files w /\ readonly w' = readonly w /\
  exists created, heap w' = heap w ++ created.

(** ** The command line: the [__main__] block of the module *)

(** The lines the block prints itself: the three lines of the usage text,
    "Invalid arguments" and "Decoded message: ...". *)
Inductive cli_line : Type :=
  | PUsage
  | PUsageEncode
  | PUsageDecode
  | PInvalidArguments
  | PDecodedMessage (message : str).

(** How the script ends: by [sys.exit(code)] or at the end of the module. *)
Inductive exit_status : Type :=
  | Exited (code : Z)
  | Finished.

Definition usage : list cli_line := [PUsage; PUsageEncode; PUsageDecode].

Section CommandLine.

Variable png_size : Image -> N.

(** [str.lower], and the file a [str] names when it is used as a path. *)
Variable lower : str -> str.
Variable fsencode : str -> string.

(** The result is the way the script ends (or the exception that leaves
    it), the world, and the lines printed by the block itself; in every
    branch these come after the lines printed by the function it calls,
    which are in the world.  As everywhere in this development, [print]
    itself does not fail. *)
Definition main (argv : list str) (w : world)
  : (exn + exit_status) * world * list cli_line :=
  if (length argv <? 2)%nat then (inr (Exited 1), w, usage)
  else
    let action := lower (nth 1 argv []) in
    if str_eqb action (py "encode") && (5 <=? length argv)%nat then
      let input_image := nth 2 argv [] in
      let output_image := nth 3 argv [] in
      let message := nth 4 argv [] in
      match encode_image png_size (fsencode input_image) message
                         (fsencode output_image) w with
      | (inr _, w') => (inr Finished, w', [])
      | (inl e, w') => (inl e, w', [])
      end
    else if str_eqb action (py "decode") && (3 <=? length argv)%nat then
      let image_path := nth 2 argv [] in
      match decode_image (fsencode image_path) w with
      | (inr message, w') =>
          (inr Finished, w',
           match message with
           | Some (c :: message') => [PDecodedMessage (c :: message')]
           | _ => []
           end)
      | (inl e, w') => (inl e, w', [])
      end
    else (inr Finished, w, PInvalidArguments :: usage).

End CommandLine.

(** [str.lower] on strings of ASCII characters, and the path named by a
    string of single-byte characters; used to run the examples. *)
Definition ascii_lower (s : str) : str :=
  map (fun c => if (65 <=? c)%N && (c <=? 90)%N then (c + 32)%N else c) s.

Definition latin1_path (s : str) : string :=
  String.string_of_list_ascii (map Ascii.ascii_of_N s).

(** ** The history of encodings: [database.py] *)

Module Database.

(** A row of the table [steg_images]; a column that may hold [None] is an
    [option]. *)
Record StegImage : Type := mkStegImage {
  id : Z;
  original_filename : str;
  encoded_filename : str;
  original_path : option str;
  encoded_path : str;
  message_length : nat;
  message_preview : option str;
  created_at : N;
  image_width : option Z;
  image_height : option Z;
  file_size_kb : option QArith_base.Q;
  capacity_chars : option Z;
  is_successful : bool;
  notes : option str
}.

(** The database: the rows of the table, and whether a commit succeeds
    (it raises when the file cannot be written). *)
Record database : Type := mkDatabase {
  steg_images : list StegImage;
  writable : bool
}.

Inductive db_exn : Type := OperationalError.

Record stats : Type := mkStats {
  total_images : nat;
  successful_encodings : nat;
  total_message_chars : nat
}.

Section Session.

(** The primary key the engine gives to a new row. *)
Variable next_id : list StegImage -> Z.

(** Lines 46-80; [now] is the clock read by the default of [created_at].
    A failed commit is rolled back and the exception raised again. *)
Definition add_encoded_image (now : N)
    (original_filename encoded_filename encoded_path : str) (message : option str)
    (image_width image_height : option Z) (file_size_kb : option QArith_base.Q)
    (capacity_chars : option Z) (original_path : option str)
    (is_successful : bool) (notes : option str) (db : database)
  : (db_exn + StegImage) * database :=
  let message_preview :=
    match message with
    | Some m =>
        if negb (length m =? 0)%nat && (50 <? length m)%nat
        then Some (take 47 m ++ py "...")
        else message
    | None => message
    end in
  let steg_image :=
    mkStegImage (next_id (steg_images db))
      original_filename encoded_filename original_path encoded_path
      match message with
      | Some m => if negb (length m =? 0)%nat then length m else 0%nat
      | None => 0%nat
      end
      message_preview now image_width image_height file_size_kb capacity_chars
      is_successful notes in
  if writable db
  then (inr steg_image, mkDatabase (steg_images db ++ [steg_image]) (writable db))
  else (inl OperationalError, db).

End Session.

(** Lines 90-96: the row with this primary key, if there is one. *)
Definition get_image_by_id (image_id : Z) (db : database) : option StegImage :=
  find (fun r => id r =? image_id) (steg_images db).

(** Lines 110-124. *)
Definition delete_image_record (image_id : Z) (db : database)
  : (db_exn + bool) * database :=
  match find (fun r => id r =? image_id) (steg_images db) with
  | Some image =>
      if writable db
      then (inr true,
            mkDatabase (List.filter (fun r => negb (id r =? id image)) (steg_images db))
                       (writable db))
      else (inl OperationalError, db)
  | None => (inr false, db)
  end.

(** Lines 126-145. *)
Definition get_stats (db : database) : stats :=
  mkStats (length (steg_images db))
          (length (List.filter is_successful (steg_images db)))
          (list_sum (map message_length (steg_images db))).

(** A key the engine can give: one more than the largest in use. *)
Definition next_rowid (rows : list StegImage) : Z :=
  1 + fold_right Z.max 0 (map id rows).

(** A table with one recorded encoding. *)
Definition one_row : StegImage :=
  mkStegImage 1 (py "in.png") (py "out.png") None (py "data/out.png") 2
              (Some (py "hi")) 0 (Some 10) (Some 10) None (Some 34) true None.
Definition demo_database : database := mkDatabase [one_row] true.

End Database.

(** ** Bits and bytes *)

Lemma testbit_int_of_bit (b : bool) (i : Z) :
  Z.testbit (int_of_bit b) i = (i =? 0) && b.
Proof.
  destruct b; simpl.
  - destruct (Z.eqb_spec i 0) as [->|Hi]; [reflexivity|].
    destruct i; try congruence; reflexivity.
  - rewrite Z.bits_0. by rewrite andb_false_r.
Qed.

Lemma testbit_one (i : Z) : Z.testbit 1 i = (i =? 0).
Proof. rewrite <- (andb_true_r (i =? 0)). apply (testbit_int_of_bit true). Qed.

Lemma str_lsb_spec (v : Z) : str_lsb v = Z.testbit v 0.
Proof.
  unfold str_lsb. rewrite Z.bit0_odd.
  change 1 with (Z.ones 1). rewrite Z.land_ones by lia.
  change (2 ^ 1) with 2. rewrite Zmod_odd.
  destruct (Z.odd v); reflexivity.
Qed.

Lemma str_lsb_set_lsb (v : Z) (b : bool) : str_lsb (set_lsb v b) = b.
Proof.
  rewrite str_lsb_spec. unfold set_lsb.
  rewrite Z.lor_spec, Z.land_spec, Z.lnot_spec, testbit_one, testbit_int_of_bit by lia.
  simpl. by rewrite andb_false_r.
Qed.

Lemma set_lsb_same (v : Z) (b : bool) :
  Z.land v 1 = int_of_bit b -> set_lsb v b = v.
Proof.
  intros H.
  assert (Hb : Z.testbit v 0 = b).
  { apply (f_equal (fun x => Z.testbit x 0)) in H.
    rewrite Z.land_spec, testbit_one, testbit_int_of_bit in H.
    simpl in H. by rewrite andb_true_r in H. }
  unfold set_lsb. apply Z.bits_inj'. intros i Hi.
  rewrite Z.lor_spec, Z.land_spec, Z.lnot_spec, testbit_one, testbit_int_of_bit by lia.
  destruct (Z.eqb_spec i 0) as [->|Hne]; simpl.
  - rewrite Z.bit0_odd in Hb. rewrite andb_false_r, Hb. reflexivity.
  - by rewrite andb_true_r, orb_false_r.
Qed.

Lemma fold_digits_bound (bs : bitstring) (a : N) :
  (fold_left (fun acc (b : bool) => 2 * acc + (if b then 1 else 0)) bs a
   < (a + 1) * 2 ^ N.of_nat (length bs))%N.
Proof.
  revert a. induction bs as [|b bs IH]; intros a.
  - simpl. lia.
  - cbn [fold_left length]. specialize (IH (2 * a + (if b then 1 else 0))%N).
    rewrite Nat2N.inj_succ, N.pow_succ_r'.
    eapply N.lt_le_trans; [exact IH|]. destruct b; nia.
Qed.

Lemma int_base2_bound (bs : bitstring) :
  (int_base2 bs < 2 ^ N.of_nat (length bs))%N.
Proof.
  pose proof (fold_digits_bound bs 0) as H. unfold int_base2.
  rewrite N.add_0_l, N.mul_1_l in H. exact H.
Qed.

Lemma chr_byte (bs : bitstring) :
  (length bs <= 8)%nat -> chr (int_base2 bs) = inr (int_base2 bs).
Proof.
  intros Hlen. unfold chr.
  pose proof (int_base2_bound bs) as Hb.
  assert (2 ^ N.of_nat (length bs) <= 2 ^ 8)%N by (apply N.pow_le_mono_r; lia).
  change (2 ^ 8)%N with 256%N in *.
  destruct (N.ltb_spec (int_base2 bs) 1114112); [reflexivity|lia].
Qed.

Lemma format_08b_length_ge (n : N) : (8 <= length (format_08b n))%nat.
Proof. unfold format_08b. rewrite length_app, length_replicate. lia. Qed.

Lemma single_byte_table :
  forallb (fun n => (length (format_08b n) =? 8)%nat
                    && (int_base2 (format_08b n) =? n)%N)
          (map N.of_nat (seq 0 256)) = true.
Proof. vm_compute. reflexivity. Qed.

Lemma format_08b_byte (n : N) :
  (n < 256)%N -> length (format_08b n) = 8%nat /\ int_base2 (format_08b n) = n.
Proof.
  intros Hn. pose proof single_byte_table as H.
  rewrite forallb_forall in H.
  specialize (H n). 
  assert (Hin : In n (map N.of_nat (seq 0 256))).
  { apply in_map_iff. exists (N.to_nat n). split; [lia|]. apply in_seq. lia. }
  apply H in Hin. apply andb_prop in Hin as [H1 H2].
  split; [by apply Nat.eqb_eq | by apply N.eqb_eq].
Qed.

(** ** The encoder's inner loops in closed form *)

Lemma is_rgb_inv (p : pixel_value) :
  is_rgb p = true -> exists r g b, p = PTuple [r; g; b].
Proof.
  destruct p as [v|[|r [|g [|b [|a cs]]]]]; simpl; try discriminate.
  intros _. by exists r, g, b.
Qed.

Lemma nth_drop_head {A} (l : list A) (i : nat) (x : A) (t : list A) (d : A) :
  drop i l = x :: t -> nth i l d = x /\ drop (S i) l = t /\ (i < length l)%nat.
Proof.
  intros H.
  assert (Hl : l !! i = Some x).
  { rewrite <- (Nat.add_0_r i), <- lookup_drop, H. reflexivity. }
  split; [|split].
  - by apply nth_lookup_Some with (d := d) in Hl.
  - rewrite (drop_S l x i Hl) in H. by inversion H.
  - by apply lookup_lt_Some in Hl.
Qed.

Lemma drop_nil_length {A} (l : list A) (i : nat) :
  drop i l = [] -> (length l <= i)%nat.
Proof.
  intros H. apply (f_equal length) in H. rewrite length_drop in H. simpl in H. lia.
Qed.

Lemma set_channel_step (bm : bitstring) (pixel : list Z) (index i : nat) :
  (i < length pixel)%nat ->
  set_channel bm (pixel, index) i =
  match drop index bm with
  | [] => (pixel, index)
  | b :: _ => (<[i := set_lsb (nth i pixel 0) b]> pixel, S index)
  end.
Proof.
  intros Hi. unfold set_channel.
  destruct (drop index bm) as [|b t] eqn:Hd.
  - apply drop_nil_length in Hd.
    destruct (Nat.ltb_spec index (length bm)); [lia|reflexivity].
  - apply (nth_drop_head _ _ _ _ false) in Hd as (Hn & _ & Hlt).
    destruct (Nat.ltb_spec index (length bm)); [|lia].
    rewrite Hn. fold (set_lsb (nth i pixel 0) b).
    destruct (Z.eqb_spec (Z.land (nth i pixel 0) 1) (int_of_bit b)) as [He|He];
      [|reflexivity].
    rewrite (set_lsb_same _ _ He). f_equal.
    symmetry. apply list_insert_id.
    destruct (nth_lookup_or_length pixel i 0); [done|lia].
Qed.

Lemma set_channels_rgb (bm : bitstring) (index : nat) (r g b : Z) :
  fold_left (set_channel bm) (seq 0 (min 3 (length [r; g; b]))) ([r; g; b], index) =
  (write_lsbs (take 3 (drop index bm)) [r; g; b],
   (index + length (take 3 (drop index bm)))%nat).
Proof.
  cbn [length min Nat.min seq fold_left].
  rewrite set_channel_step by (simpl; lia).
  destruct (drop index bm) as [|b0 t0] eqn:H0.
  { apply drop_nil_length in H0. pose proof (drop_ge bm index H0) as Hd.
    rewrite set_channel_step by (simpl; lia). rewrite Hd.
    rewrite set_channel_step by (simpl; lia). rewrite Hd.
    simpl. f_equal. lia. }
  apply (nth_drop_head _ _ _ _ false) in H0 as (_ & H0 & _).
  rewrite set_channel_step by (simpl; lia). rewrite H0.
  destruct t0 as [|b1 t1] eqn:H1.
  { apply drop_nil_length in H0. pose proof (drop_ge bm (S index) H0) as Hd.
    rewrite set_channel_step by (simpl; lia). rewrite Hd.
    simpl. f_equal. lia. }
  apply (nth_drop_head _ _ _ _ false) in H0 as (_ & H0 & _).
  rewrite set_channel_step by (simpl; lia). rewrite H0.
  destruct t1 as [|b2 t2]; simpl; f_equal; lia.
Qed.

Lemma embed_length (bits : bitstring) (px : list pixel_value) :
  length (embed bits px) = length px.
Proof.
  revert bits. induction px as [|p px IH]; intros bits; [reflexivity|].
  destruct bits; simpl; [reflexivity|]. by rewrite IH.
Qed.

Lemma embed_nil (px : list pixel_value) : embed [] px = px.
Proof. by destruct px. Qed.

(** A pixel reached while bits remain receives the next three of them. *)
Lemma embed_lookup_lt (k : nat) (bits : bitstring) (px : list pixel_value) (cs : list Z) :
  (3 * k < length bits)%nat ->
  px !! k = Some (PTuple cs) ->
  embed bits px !! k = Some (PTuple (write_lsbs (take 3 (drop (3 * k) bits)) cs)).
Proof.
  revert bits px. induction k as [|k IH]; intros bits px Hlt Hpx.
  - destruct px as [|p px]; [discriminate|]. simpl in Hpx. injection Hpx as ->.
    destruct bits; [simpl in Hlt; lia|]. reflexivity.
  - destruct px as [|p px]; [discriminate|]. simpl in Hpx.
    destruct bits as [|b0 bits]; [simpl in Hlt; lia|].
    cbn [embed]. rewrite lookup_cons_ne_0 by lia. simpl Nat.pred.
    rewrite IH; [|rewrite length_drop; lia|done].
    rewrite drop_drop. replace (3 + 3 * k)%nat with (3 * S k)%nat by lia.
    reflexivity.
Qed.

(** Pixels past the last bit are the carrier's. *)
Lemma embed_drop_ge (k : nat) (bits : bitstring) (px : list pixel_value) :
  (length bits <= 3 * k)%nat -> drop k (embed bits px) = drop k px.
Proof.
  revert bits px. induction k as [|k IH]; intros bits px Hle.
  - destruct bits; [|simpl in Hle; lia]. by rewrite embed_nil.
  - destruct px as [|p px]; [reflexivity|].
    destruct bits as [|b0 bits]; [reflexivity|].
    cbn [embed drop]. apply IH. rewrite length_drop. cbn [length] in Hle. lia.
Qed.

Lemma write_lsbs_bits (bits : bitstring) (r g b : Z) :
  (length bits <= 3)%nat ->
  map str_lsb (take 3 (write_lsbs bits [r; g; b])) =
  bits ++ drop (length bits) (map str_lsb [r; g; b]).
Proof.
  intros H. destruct bits as [|b0 [|b1 [|b2 [|b3 bits]]]]; simpl in *;
    rewrite ?str_lsb_set_lsb; try reflexivity; lia.
Qed.

(** Reading the encoded pixels back gives the embedded bits first. *)
Lemma lsb_stream_embed (bits : bitstring) (px : list pixel_value) :
  forallb is_rgb px = true ->
  (length bits <= 3 * length px)%nat ->
  lsb_stream (embed bits px) = bits ++ drop (length bits) (lsb_stream px).
Proof.
  revert bits. induction px as [|p px IH]; intros bits Hrgb Hlen.
  - destruct bits; [reflexivity|simpl in Hlen; lia].
  - simpl in Hrgb. apply andb_prop in Hrgb as [Hp Hrgb].
    destruct (is_rgb_inv p Hp) as (r & g & b & ->).
    destruct bits as [|b0 bits]; [reflexivity|].
    cbn [embed lsb_stream flat_map pixel_bits].
    fold (lsb_stream (embed (drop 3 (b0 :: bits)) px)). fold (lsb_stream px).
    destruct (Nat.le_gt_cases (length (b0 :: bits)) 3) as [Hs|Hs].
    + rewrite (take_ge (b0 :: bits)) by lia.
      rewrite (drop_ge (b0 :: bits)) by lia. rewrite embed_nil.
      rewrite write_lsbs_bits by lia.
      rewrite <- app_assoc. f_equal.
      rewrite drop_app_le by (simpl in *; lia). reflexivity.
    + rewrite IH; [|done|rewrite length_drop; simpl in *; lia].
      rewrite write_lsbs_bits by (rewrite length_take; lia).
      rewrite length_take, Nat.min_l by lia.
      rewrite (drop_ge (map str_lsb [r; g; b])) by (simpl; lia).
      rewrite app_nil_r, app_assoc, take_drop. f_equal.
      rewrite length_drop.
      rewrite drop_app_ge by (simpl in *; lia). reflexivity.
Qed.

Lemma embed_rgb (bits : bitstring) (px : list pixel_value) :
  forallb is_rgb px = true -> forallb is_rgb (embed bits px) = true.
Proof.
  revert bits. induction px as [|p px IH]; intros bits Hrgb; [reflexivity|].
  simpl in Hrgb. apply andb_prop in Hrgb as [Hp Hrgb].
  destruct bits as [|b0 bits]; [simpl; by rewrite Hp, Hrgb|].
  cbn [embed forallb]. rewrite IH by done. rewrite andb_true_r.
  destruct (is_rgb_inv p Hp) as (r & g & b & ->).
  destruct bits as [|b1 [|b2 bits]]; reflexivity.
Qed.

Lemma data_at_length (bm : bitstring) (src : list pixel_value) (k : nat) :
  length (data_at bm src k) = length src.
Proof.
  unfold data_at. rewrite length_app, length_take, length_drop, embed_length. lia.
Qed.

Lemma data_at_done (bm : bitstring) (src : list pixel_value) (k : nat) :
  (length bm <= 3 * k)%nat -> data_at bm src k = embed bm src.
Proof.
  intros H. unfold data_at. rewrite <- (embed_drop_ge k bm src H). apply take_drop.
Qed.

Lemma data_at_step (bm : bitstring) (src : list pixel_value) (k : nat) (cs : list Z) :
  (3 * k < length bm)%nat ->
  src !! k = Some (PTuple cs) ->
  <[k := PTuple (write_lsbs (take 3 (drop (3 * k) bm)) cs)]> (data_at bm src k)
  = data_at bm src (S k).
Proof.
  intros Hlt Hk. unfold data_at.
  pose proof (lookup_lt_Some _ _ _ Hk) as Hks.
  rewrite (take_S_r _ _ _ (embed_lookup_lt k bm src cs Hlt Hk)).
  rewrite insert_app_r_alt by (rewrite length_take; lia).
  rewrite length_take, embed_length, Nat.min_l, Nat.sub_diag by lia.
  rewrite (drop_S _ _ _ Hk). simpl. by rewrite <- app_assoc.
Qed.

Lemma pixels_for_le (n k : nat) : (n <= 3 * k)%nat -> (pixels_for n <= k)%nat.
Proof.
  intros H. unfold pixels_for.
  apply Nat.lt_succ_r, Nat.Div0.div_lt_upper_bound. lia.
Qed.

Lemma pixels_for_gt (n k : nat) : (3 * k < n)%nat -> (k < pixels_for n)%nat.
Proof.
  intros H. unfold pixels_for.
  apply Nat.div_le_lower_bound; lia.
Qed.

Lemma state_at_stable (bm : bitstring) (k j : nat) :
  (length bm <= 3 * k)%nat -> (k <= j)%nat -> state_at bm j = state_at bm k.
Proof.
  intros H Hj. unfold state_at. pose proof (pixels_for_le _ _ H). f_equal; lia.
Qed.

Lemma data_at_stable (bm : bitstring) (src : list pixel_value) (k j : nat) :
  (length bm <= 3 * k)%nat -> (k <= j)%nat -> data_at bm src j = data_at bm src k.
Proof. intros H Hj. rewrite !data_at_done by lia. reflexivity. Qed.

(** ** Running the primitive statements *)

Lemma deref_run (l : loc) (im : Image) (w : world) :
  heap w !! l = Some im -> deref l w = (inr im, w).
Proof. intros H. unfold deref. by rewrite H. Qed.

Lemma getpixel_at (im : Image) (col row : nat) (p : pixel_value) :
  (col < img_width im)%nat -> (row < img_height im)%nat ->
  img_data im !! (row * img_width im + col)%nat = Some p ->
  getpixel im (col, row) = inr p.
Proof.
  intros Hc Hr Hp. unfold getpixel.
  destruct (Nat.ltb_spec col (img_width im)); [|lia].
  destruct (Nat.ltb_spec row (img_height im)); [|lia].
  simpl. by rewrite Hp.
Qed.

Lemma putpixel_at (im : Image) (col row : nat) (v : pixel_value) :
  (col < img_width im)%nat -> (row < img_height im)%nat ->
  (row * img_width im + col < length (img_data im))%nat ->
  putpixel im (col, row) v =
  inr (mkImage (img_mode im) (img_width im) (img_height im)
               (<[(row * img_width im + col)%nat := v]> (img_data im))).
Proof.
  intros Hc Hr Hp. unfold putpixel.
  destruct (Nat.ltb_spec col (img_width im)); [|lia].
  destruct (Nat.ltb_spec row (img_height im)); [|lia].
  destruct (Nat.ltb_spec (row * img_width im + col) (length (img_data im))); [|lia].
  reflexivity.
Qed.

Lemma cell_lt (W H row col : nat) :
  (col < W)%nat -> (row < H)%nat -> (row * W + col < W * H)%nat.
Proof. intros Hc Hr. nia. Qed.

(** ** The embedding loops of [encode_image] *)

Section EncodeLoop.

Variables (fs : gmap string file) (ro : gset string) (hp : list Image) (out : list line).
Variables (image encoded : loc) (W H : nat) (src : list pixel_value) (bm : bitstring).

Hypothesis Himage : hp !! image = Some (mkImage RGB W H src).
Hypothesis Hne : image ≠ encoded.
Hypothesis Henc : (encoded < length hp)%nat.
Hypothesis Hlen : length src = (W * H)%nat.
Hypothesis Hrgb : forallb is_rgb src = true.

(** The world while the loops run: only the pixels of [encoded] change. *)
Local Abbreviation world_at k :=
  (mkWorld fs ro (<[encoded := mkImage RGB W H (data_at bm src k)]> hp) out).

Lemma src_lookup (k : nat) :
  (k < W * H)%nat -> exists r g b, src !! k = Some (PTuple [r; g; b]).
Proof.
  intros Hk. destruct (lookup_lt_is_Some_2 src k) as [p Hp]; [lia|].
  assert (Hp' : is_rgb p = true).
  { rewrite forallb_forall in Hrgb. apply Hrgb, list_elem_of_In.
    by eapply list_elem_of_lookup_2. }
  destruct (is_rgb_inv p Hp') as (r & g & b & ->). eauto.
Qed.

Lemma encode_pixel_run (row col k : nat) :
  (col < W)%nat -> (row < H)%nat -> k = (row * W + col)%nat ->
  encode_pixel image encoded bm row col (state_at bm k) (world_at k) =
  (inr (if (length bm <=? 3 * S k)%nat then Break else Next, state_at bm (S k)),
   world_at (S k)).
Proof.
  intros Hc Hr Hkeq. pose proof (cell_lt W H row col Hc Hr) as Hk.
  rewrite <- Hkeq in Hk.
  unfold encode_pixel, state_at at 1.
  destruct (Nat.ltb_spec (min (3 * k) (length bm)) (length bm)) as [Hlt|Hge].
  - assert (H3 : (3 * k < length bm)%nat) by lia.
    rewrite Nat.min_l by lia.
    destruct (src_lookup k Hk) as (r & g & b & Hsrc).
    unfold bind at 1. unfold image_getpixel, bind at 1.
    rewrite (deref_run image (mkImage RGB W H src))
      by (cbn [heap]; by rewrite list_lookup_insert_ne).
    unfold lift. rewrite (getpixel_at _ col row (PTuple [r; g; b]))
      by (cbn [img_width img_height img_data]; rewrite <- ?Hkeq; done).
    rewrite set_channels_rgb.
    unfold try_except, bind at 1. unfold image_putpixel, bind at 1.
    rewrite (deref_run encoded (mkImage RGB W H (data_at bm src k)))
      by (cbn [heap]; by rewrite list_lookup_insert_eq).
    unfold bind at 1, lift.
    rewrite putpixel_at by (cbn [img_width img_height img_data];
                            rewrite ?data_at_length, <- ?Hkeq; lia).
    cbn [img_mode img_width img_height img_data set_heap heap files readonly stdout].
    rewrite <- Hkeq. rewrite data_at_step by done.
    rewrite list_insert_insert_eq. unfold ret, break_if_done. cbn [fst].
    assert (Hs : state_at bm (S k) =
                 ((3 * k + length (take 3 (drop (3 * k) bm)))%nat,
                  S (min k (pixels_for (length bm))))).
    { unfold state_at. pose proof (pixels_for_gt _ _ H3).
      rewrite length_take, length_drop. f_equal; lia. }
    rewrite <- Hs.
    replace (length bm <=? 3 * k + length (take 3 (drop (3 * k) bm)))%nat
      with (length bm <=? 3 * S k)%nat;
      [by destruct (length bm <=? 3 * S k)%nat|].
    rewrite length_take, length_drop.
    destruct (Nat.leb_spec (length bm) (3 * S k));
      destruct (Nat.leb_spec (length bm) (3 * k + min 3 (length bm - 3 * k))); lia.
  - assert (H3 : (length bm <= 3 * k)%nat) by lia.
    unfold ret, break_if_done.
    replace (length bm <=? fst (state_at bm k))%nat with true
      by (symmetry; apply Nat.leb_le; unfold state_at; cbn [fst]; lia).
    destruct (Nat.leb_spec (length bm) (3 * S k)); [|lia].
    rewrite (state_at_stable bm k (S k)) by lia.
    rewrite (data_at_stable bm src k (S k)) by lia. reflexivity.
Qed.

Lemma encode_cols_run (row : nat) (m c : nat) :
  (row < H)%nat -> (c + m = W)%nat ->
  for_each (seq c m) (encode_pixel image encoded bm row)
           (state_at bm (row * W + c)) (world_at (row * W + c)) =
  (inr (state_at bm (row * W + c + m)), world_at (row * W + c + m)).
Proof.
  intros Hr. revert c. induction m as [|m IH]; intros c Hc.
  - rewrite Nat.add_0_r. reflexivity.
  - cbn [seq for_each]. unfold bind at 1.
    rewrite (encode_pixel_run row c (row * W + c)) by lia.
    destruct (Nat.leb_spec (length bm) (3 * S (row * W + c))) as [Hd|Hd].
    + unfold ret.
      rewrite (state_at_stable bm (S (row * W + c)) (row * W + c + S m)) by lia.
      rewrite (data_at_stable bm src (S (row * W + c)) (row * W + c + S m)) by lia.
      reflexivity.
    + replace (S (row * W + c)) with (row * W + S c)%nat by lia.
      rewrite IH by lia.
      replace (row * W + S c + m)%nat with (row * W + c + S m)%nat by lia.
      reflexivity.
Qed.

Lemma encode_row_run (row : nat) :
  (row < H)%nat ->
  encode_row image encoded bm W row (state_at bm (row * W)) (world_at (row * W)) =
  (inr (if (length bm <=? 3 * (S row * W))%nat then Break else Next,
        state_at bm (S row * W)),
   world_at (S row * W)).
Proof.
  intros Hr. unfold encode_row, bind.
  pose proof (encode_cols_run row W 0 Hr eq_refl) as Hrun.
  rewrite !Nat.add_0_r in Hrun.
  replace (row * W + W)%nat with (S row * W)%nat in Hrun by lia.
  rewrite Hrun. unfold ret, break_if_done, state_at at 1. cbn [fst].
  destruct (Nat.leb_spec (length bm) (3 * (S row * W)));
    destruct (Nat.leb_spec (length bm) (min (3 * (S row * W)) (length bm)));
    try lia; reflexivity.
Qed.

Lemma encode_rows_run (h r : nat) :
  (r + h = H)%nat ->
  for_each (seq r h) (encode_row image encoded bm W)
           (state_at bm (r * W)) (world_at (r * W)) =
  (inr (state_at bm (H * W)), world_at (H * W)).
Proof.
  revert r. induction h as [|h IH]; intros r Hh.
  - rewrite Nat.add_0_r in Hh. subst r. reflexivity.
  - cbn [seq for_each]. unfold bind at 1.
    rewrite encode_row_run by lia.
    destruct (Nat.leb_spec (length bm) (3 * (S r * W))) as [Hd|Hd].
    + unfold ret.
      rewrite (state_at_stable bm (S r * W) (H * W)) by nia.
      rewrite (data_at_stable bm src (S r * W) (H * W)) by nia.
      reflexivity.
    + apply IH. lia.
Qed.

(** Lines 44-88 as a whole, for a message that fits. *)
Lemma encode_pixels_run :
  (length bm <= W * H * 3)%nat ->
  encode_pixels image encoded bm W H
    (mkWorld fs ro (<[encoded := mkImage RGB W H src]> hp) out) =
  (inr (length bm, pixels_for (length bm)),
   mkWorld fs ro (<[encoded := mkImage RGB W H (embed bm src)]> hp) out).
Proof.
  intros Hfit. unfold encode_pixels.
  pose proof (encode_rows_run H 0 eq_refl) as Hrun.
  change (state_at bm (0 * W)) with (0%nat, 0%nat) in Hrun.
  change (data_at bm src (0 * W)) with src in Hrun.
  rewrite Hrun. rewrite data_at_done by lia.
  unfold state_at. pose proof (pixels_for_le (length bm) (H * W)).
  do 2 f_equal. f_equal; lia.
Qed.

End EncodeLoop.

(** ** Frame conditions *)

Section Frame.

Variable R : world -> world -> Prop.
Hypothesis R_refl : forall w, R w w.
Hypothesis R_trans : forall w1 w2 w3, R w1 w2 -> R w2 w3 -> R w1 w3.
Hypothesis R_print : forall w o, R w (set_stdout o w).

Lemma respects_ret {A} (a : A) : respects R (ret a).
Proof. intros w. apply R_refl. Qed.

Lemma respects_raise {A} (e : exn) : respects R (raise (A := A) e).
Proof. intros w. apply R_refl. Qed.

Lemma respects_lift {A} (r : exn + A) : respects R (lift r).
Proof. intros w. apply R_refl. Qed.

Lemma respects_print (l : line) : respects R (print l).
Proof. intros w. apply R_print. Qed.

Lemma respects_deref (l : loc) : respects R (deref l).
Proof. intros w. unfold deref. destruct (heap w !! l); apply R_refl. Qed.

Lemma respects_bind {A B} (m : M A) (k : A -> M B) :
  respects R m -> (forall a, respects R (k a)) -> respects R (bind m k).
Proof.
  intros Hm Hk w. unfold bind. specialize (Hm w).
  destruct (m w) as [[e|a] w1]; [exact Hm|].
  eapply R_trans; [exact Hm|apply Hk].
Qed.

Lemma respects_try {A} (m : M A) (h : exn -> M A) :
  respects R m -> (forall e, respects R (h e)) -> respects R (try_except m h).
Proof.
  intros Hm Hh w. unfold try_except. specialize (Hm w).
  destruct (m w) as [[e|a] w1]; [|exact Hm].
  eapply R_trans; [exact Hm|apply Hh].
Qed.

Lemma respects_for_each {S} (xs : list nat) (body : nat -> S -> M (flow * S)) (s : S) :
  (forall x s, respects R (body x s)) -> respects R (for_each xs body s).
Proof.
  intros Hb. revert s. induction xs as [|x xs IH]; intros s.
  - apply respects_ret.
  - cbn [for_each]. apply respects_bind; [apply Hb|].
    intros [[|] s']; [apply IH|apply respects_ret].
Qed.

Lemma respects_getpixel (l : loc) (xy : nat * nat) : respects R (image_getpixel l xy).
Proof.
  unfold image_getpixel. apply respects_bind; [apply respects_deref|].
  intros im. apply respects_lift.
Qed.

Lemma respects_size (l : loc) : respects R (image_size l).
Proof.
  unfold image_size. apply respects_bind; [apply respects_deref|].
  intros im. apply respects_ret.
Qed.

End Frame.

Ltac frame_step :=
  match goal with
  | |- respects _ (bind _ _) => apply respects_bind; [try done..| |intros ?]
  | |- respects _ (try_except _ _) => apply respects_try; [try done..| |intros ?]
  | |- respects _ (for_each _ _ _) => apply respects_for_each; [try done..|intros ? ?]
  | |- respects _ (ret _) => apply respects_ret; done
  | |- respects _ (raise _) => apply respects_raise; done
  | |- respects _ (lift _) => apply respects_lift; done
  | |- respects _ (print _) => apply respects_print; done
  | |- respects _ (deref _) => apply respects_deref; done
  | |- respects _ (image_getpixel _ _) => apply respects_getpixel; done
  | |- respects _ (image_size _) => apply respects_size; done
  | |- respects _ (if ?b then _ else _) => destruct b
  | |- respects _ (match ?x with _ => _ end) => destruct x
  end.

Lemma only_prints_refl (w : world) : only_prints w w.
Proof. exists (stdout w). by destruct w. Qed.

Lemma only_prints_trans (w1 w2 w3 : world) :
  only_prints w1 w2 -> only_prints w2 w3 -> only_prints w1 w3.
Proof. intros [o1 ->] [o2 ->]. by exists o2. Qed.

Lemma only_prints_print (w : world) (o : list line) : only_prints w (set_stdout o w).
Proof. by exists o. Qed.

Lemma verify_encoding_only_prints (encoded_image : loc) (original_message : str) :
  respects only_prints (verify_encoding encoded_image original_message).
Proof.
  pose proof only_prints_refl. pose proof only_prints_trans.
  pose proof only_prints_print.
  unfold verify_encoding, verify_row, verify_pixel, verify_byte.
  repeat frame_step.
Qed.

Lemma try_except_returns {A} (m : M A) (h : exn -> M A) (w : world) :
  (forall e w', exists a, fst (h e w') = inr a) ->
  exists a, fst (try_except m h w) = inr a.
Proof.
  intros Hh. unfold try_except. destruct (m w) as [[e|a] w']; [apply Hh|by exists a].
Qed.

Lemma verify_encoding_returns (encoded_image : loc) (original_message : str) (w : world) :
  exists v, fst (verify_encoding encoded_image original_message w) = inr v.
Proof.
  unfold verify_encoding. apply try_except_returns. intros e w'. by exists false.
Qed.

(** The self-check always returns a boolean and changes nothing but the
    printed lines. *)
Lemma verify_encoding_run (encoded_image : loc) (original_message : str) (w : world) :
  exists v o, verify_encoding encoded_image original_message w = (inr v, set_stdout o w).
Proof.
  destruct (verify_encoding_only_prints encoded_image original_message w) as [o Ho].
  destruct (verify_encoding_returns encoded_image original_message w) as [v Hv].
  exists v, o.
  destruct (verify_encoding encoded_image original_message w) as [r w'].
  simpl in *. by subst.
Qed.

(** ** Well-formed images and conversion *)

Lemma rgb_of_pixel_rgb (p : pixel_value) : is_rgb p = true -> rgb_of_pixel p = p.
Proof. intros H. by destruct (is_rgb_inv p H) as (r & g & b & ->). Qed.

Lemma pixel_ok_is_rgb (m : mode) (p : pixel_value) :
  pixel_ok m p = true -> is_rgb (rgb_of_pixel p) = true.
Proof.
  destruct m, p as [v|[|r [|g [|b [|a [|x cs]]]]]]; simpl; try discriminate; done.
Qed.

Lemma pixel_ok_RGB (p : pixel_value) : pixel_ok RGB p = true -> is_rgb p = true.
Proof.
  destruct p as [v|[|r [|g [|b [|a cs]]]]]; simpl; try discriminate; done.
Qed.

Lemma forallb_impl {A} (f g : A -> bool) (l : list A) :
  (forall x, f x = true -> g x = true) -> forallb f l = true -> forallb g l = true.
Proof.
  intros Hfg. rewrite !forallb_forall. intros H x Hx. apply Hfg, H, Hx.
Qed.

Lemma well_formed_length (im : Image) :
  well_formed im = true -> length (img_data im) = (img_width im * img_height im)%nat.
Proof. unfold well_formed. intros [H _]%andb_prop. by apply Nat.eqb_eq. Qed.

Lemma well_formed_rgb (im : Image) :
  well_formed im = true -> forallb is_rgb (map rgb_of_pixel (img_data im)) = true.
Proof.
  unfold well_formed. intros [_ H]%andb_prop.
  rewrite forallb_forall in *. intros p [q [<- Hq]]%in_map_iff.
  eapply pixel_ok_is_rgb, H, Hq.
Qed.

Lemma map_rgb_of_pixel_id (px : list pixel_value) :
  forallb is_rgb px = true -> map rgb_of_pixel px = px.
Proof.
  induction px as [|p px IH]; [reflexivity|]. simpl.
  intros [Hp Hpx]%andb_prop. by rewrite rgb_of_pixel_rgb, IH.
Qed.

Lemma convert_RGB_id (im : Image) :
  img_mode im = RGB -> well_formed im = true -> convert_RGB im = im.
Proof.
  intros Hm Hwf. unfold convert_RGB. rewrite map_rgb_of_pixel_id.
  - destruct im; simpl in *. by subst.
  - unfold well_formed in Hwf. apply andb_prop in Hwf as [_ H]. rewrite Hm in H.
    eapply forallb_impl; [|exact H]. apply pixel_ok_RGB.
Qed.

Lemma mode_eqb_eq (a b : mode) : mode_eqb a b = true <-> a = b.
Proof. destruct a, b; simpl; split; congruence. Qed.

Lemma encoded_image_of_convert (im : Image) (message : str) :
  well_formed im = true ->
  convert_RGB (encoded_image_of im message) = encoded_image_of im message.
Proof.
  intros Hwf. unfold convert_RGB, encoded_image_of. cbn [img_width img_height img_data].
  rewrite map_rgb_of_pixel_id; [reflexivity|].
  apply embed_rgb, well_formed_rgb, Hwf.
Qed.

(** ** Running the PIL calls *)

Lemma bind_run {A B} (m : M A) (k : A -> M B) (w w' : world) (a : A) :
  m w = (inr a, w') -> bind m k w = k a w'.
Proof. intros H. unfold bind. by rewrite H. Qed.

Lemma bind_raise {A B} (m : M A) (k : A -> M B) (w w' : world) (e : exn) :
  m w = (inl e, w') -> bind m k w = (inl e, w').
Proof. intros H. unfold bind. by rewrite H. Qed.

Lemma Image_open_run (path : string) (f : file) (im : Image) (w : world) :
  files w !! path = Some f -> f_image f = Some im ->
  Image_open path w = (inr (length (heap w)), set_heap (heap w ++ [im]) w).
Proof. intros Hf Him. unfold Image_open. by rewrite Hf, Him. Qed.

Lemma image_mode_run (l : loc) (im : Image) (w : world) :
  heap w !! l = Some im -> image_mode l w = (inr (img_mode im), w).
Proof. intros H. unfold image_mode. by rewrite (bind_run _ _ _ _ _ (deref_run l im w H)). Qed.

Lemma image_size_run (l : loc) (im : Image) (w : world) :
  heap w !! l = Some im -> image_size l w = (inr (img_width im, img_height im), w).
Proof. intros H. unfold image_size. by rewrite (bind_run _ _ _ _ _ (deref_run l im w H)). Qed.

Lemma image_copy_run (l : loc) (im : Image) (w : world) :
  heap w !! l = Some im ->
  image_copy l w = (inr (length (heap w)), set_heap (heap w ++ [im]) w).
Proof. intros H. unfold image_copy. by rewrite (bind_run _ _ _ _ _ (deref_run l im w H)). Qed.

Lemma image_convert_RGB_run (l : loc) (im : Image) (w : world) :
  heap w !! l = Some im ->
  image_convert_RGB l w =
  (inr (length (heap w)), set_heap (heap w ++ [convert_RGB im]) w).
Proof.
  intros H. unfold image_convert_RGB.
  by rewrite (bind_run _ _ _ _ _ (deref_run l im w H)).
Qed.

Lemma image_save_run (png_size : Image -> N) (l : loc) (im : Image) (path : string)
    (w : world) :
  heap w !! l = Some im ->
  image_save png_size l path w =
  if decide (path ∈ readonly w) then (inl OSError, w)
  else (inr tt, set_files (<[path := mkFile (Some im) (png_size im)]> (files w)) w).
Proof.
  intros H. unfold image_save. by rewrite (bind_run _ _ _ _ _ (deref_run l im w H)).
Qed.

Lemma image_getpixel_run (l : loc) (im : Image) (xy : nat * nat) (p : pixel_value)
    (w : world) :
  heap w !! l = Some im -> getpixel im xy = inr p ->
  image_getpixel l xy w = (inr p, w).
Proof.
  intros H Hp. unfold image_getpixel.
  rewrite (bind_run _ _ _ _ _ (deref_run l im w H)). unfold lift. by rewrite Hp.
Qed.

Lemma lookup_app_length {A} (l k : list A) (x : A) : (l ++ x :: k) !! length l = Some x.
Proof. by rewrite list_lookup_middle. Qed.

Lemma insert_app_length {A} (l k : list A) (x y : A) :
  <[length l := y]> (l ++ x :: k) = l ++ y :: k.
Proof. rewrite insert_app_r_alt by lia. by rewrite Nat.sub_diag. Qed.

(** ** [encode_image] on a readable carrier *)

Section EncodeRun.

Variable png_size : Image -> N.
Variables (w : world) (image_path output_path : string) (message : str).
Variables (f : file) (im : Image).

Hypothesis Hfile : files w !! image_path = Some f.
Hypothesis Himage : f_image f = Some im.
Hypothesis Hwf : well_formed im = true.

(** Lines 17-22: the carrier is opened and, if need be, converted. *)
Lemma load_carrier_run {B} (k : loc -> M B) :
  bind (Image_open image_path) (fun image =>
    bind (image_mode image) (fun image_mode_ =>
      bind (if mode_eqb image_mode_ RGB then ret image
            else bind (print (PConverting image_mode_))
                      (fun _ => image_convert_RGB image)) k)) w =
  k (length (heap w ++ carrier_objects im) - 1)%nat
    (mkWorld (files w) (readonly w) (heap w ++ carrier_objects im)
             (stdout w ++ conversion_lines im)).
Proof.
  rewrite (bind_run _ _ _ _ _ (Image_open_run _ _ _ _ Hfile Himage)).
  rewrite (bind_run _ _ _ _ _ (image_mode_run (length (heap w)) im
                                 (set_heap (heap w ++ [im]) w)
                                 (lookup_app_length (heap w) [] im))).
  unfold carrier_objects, conversion_lines.
  destruct (mode_eqb (img_mode im) RGB).
  - unfold bind at 1, ret. rewrite length_app, app_nil_r. cbn [length].
    replace (length (heap w) + 1 - 1)%nat with (length (heap w)) by lia.
    reflexivity.
  - rewrite (bind_run _ _ (set_heap (heap w ++ [im]) w)
               (mkWorld (files w) (readonly w) ((heap w ++ [im]) ++ [convert_RGB im])
                        (stdout w ++ [PConverting (img_mode im)]))
               (length (heap w ++ [im]))).
    + rewrite !length_app. cbn [length].
      replace (length (heap w) + 2 - 1)%nat with (length (heap w) + 1)%nat by lia.
      by rewrite <- app_assoc.
    + unfold bind, print.
      erewrite image_convert_RGB_run; [reflexivity|].
      apply (lookup_app_length (heap w) [] im).
Qed.

Lemma carrier_lookup :
  (heap w ++ carrier_objects im) !! (length (heap w ++ carrier_objects im) - 1)%nat
  = Some (convert_RGB im).
Proof.
  unfold carrier_objects. destruct (mode_eqb (img_mode im) RGB) eqn:Hm.
  - apply mode_eqb_eq in Hm. rewrite (convert_RGB_id im Hm Hwf).
    rewrite length_app. cbn [length].
    replace (length (heap w) + 1 - 1)%nat with (length (heap w)) by lia.
    apply lookup_app_length.
  - rewrite length_app. cbn [length].
    replace (length (heap w) + 2 - 1)%nat with (length (heap w ++ [im])).
    + change (heap w ++ [im; convert_RGB im])
        with (heap w ++ [im] ++ [convert_RGB im]).
      rewrite (app_assoc (heap w) [im] [convert_RGB im]). apply lookup_app_length.
    + rewrite length_app. simpl. lia.
Qed.

Lemma carrier_objects_length : (1 <= length (carrier_objects im))%nat.
Proof. unfold carrier_objects. destruct (mode_eqb _ _); simpl; lia. Qed.

Local Abbreviation imW := (img_width im).
Local Abbreviation imH := (img_height im).
Local Abbreviation bm := (binary_of (message ++ delimiter)).
Local Abbreviation objs := (carrier_objects im).
Local Abbreviation E := (encoded_image_of im message).

(** Lines 24-38 when the message does not fit. *)
Lemma encode_image_too_large :
  (imW * imH * 3 < length bm)%nat ->
  encode_image png_size image_path message output_path w =
  (inr false,
   mkWorld (files w) (readonly w) (heap w ++ objs ++ [convert_RGB im])
           (stdout w ++ conversion_lines im
              ++ [PTooLarge (imW * imH * 3 / 8)%nat (length message)])).
Proof.
  intros Hbig. unfold encode_image, try_except.
  rewrite load_carrier_run.
  erewrite bind_run; [|apply image_copy_run; cbn [heap]; apply carrier_lookup].
  erewrite bind_run;
    [|apply image_size_run; cbn [heap set_heap];
      rewrite lookup_app_l by (rewrite length_app; pose proof carrier_objects_length; lia);
      apply carrier_lookup].
  cbn [fst snd img_width img_height convert_RGB].
  destruct (Nat.ltb_spec (imW * imH * 3) (length bm)); [|lia].
  unfold bind, print, ret, set_stdout, set_heap. cbn [files readonly heap stdout].
  by rewrite <- !app_assoc.
Qed.

(** The world when the self-check of line 91 starts. *)
Local Abbreviation w_embedded :=
  (mkWorld (files w) (readonly w) (heap w ++ objs ++ [E])
           (stdout w ++ conversion_lines im
              ++ [PEncoding (length message) (length bm);
                  PCapacity (imW * imH * 3)%nat (imW * imH * 3 / 8)%nat])).

(** Lines 24-106 when the message fits: [v] is what the self-check
    returns and [o] the lines printed up to its end. *)
Lemma encode_image_fits :
  (length bm <= imW * imH * 3)%nat ->
  exists v o,
    verify_encoding (length (heap w ++ objs)) message w_embedded
      = (inr v, set_stdout o w_embedded) /\
    encode_image png_size image_path message output_path w =
    if decide (output_path ∈ readonly w) then
      (inr false,
       mkWorld (files w) (readonly w) (heap w ++ objs ++ [E; E])
               (o ++ [PEncodeError OSError]))
    else
      (inr true,
       mkWorld (<[output_path := mkFile (Some E) (png_size E)]> (files w)) (readonly w)
               (heap w ++ objs ++ [E; E])
               (o ++ [PModified (pixels_for (length bm)); PSaved;
                      if v then PVerified else PVerifyWarning])).
Proof.
  intros Hfit.
  destruct (verify_encoding_run (length (heap w ++ objs)) message w_embedded)
    as (v & o & Hv).
  exists v, o. split; [exact Hv|].
  unfold encode_image, try_except.
  rewrite load_carrier_run.
  erewrite bind_run; [|apply image_copy_run; cbn [heap]; apply carrier_lookup].
  erewrite bind_run;
    [|apply image_size_run; cbn [heap set_heap];
      rewrite lookup_app_l by (rewrite length_app; pose proof carrier_objects_length; lia);
      apply carrier_lookup].
  cbn [fst snd img_width img_height convert_RGB].
  destruct (Nat.ltb_spec (imW * imH * 3) (length bm)); [lia|].
  erewrite bind_run by reflexivity. erewrite bind_run by reflexivity.
  cbn [set_stdout set_heap files readonly heap stdout].
  pose proof (encode_pixels_run (files w) (readonly w)
                ((heap w ++ objs) ++ [convert_RGB im])
                (((stdout w ++ conversion_lines im)
                    ++ [PEncoding (length message) (length bm)])
                   ++ [PCapacity (imW * imH * 3)%nat (imW * imH * 3 / 8)%nat])
                (length (heap w ++ objs) - 1)%nat (length (heap w ++ objs))
                imW imH (map rgb_of_pixel (img_data im)) bm) as Hrun.
  rewrite !insert_app_length in Hrun.
  erewrite bind_run; cycle 1.
  { apply Hrun.
    - rewrite lookup_app_l by (rewrite length_app; pose proof carrier_objects_length; lia).
      apply carrier_lookup.
    - rewrite length_app. pose proof carrier_objects_length. lia.
    - rewrite !length_app. simpl. lia.
    - rewrite length_map. by apply well_formed_length.
    - by apply well_formed_rgb.
    - exact Hfit. }
  cbn [snd]. rewrite <- !app_assoc. cbn [app].
  change (mkImage RGB imW imH (embed bm (map rgb_of_pixel (img_data im)))) with E.
  erewrite bind_run by exact Hv.
  assert (HE : (heap w ++ objs ++ [E]) !! length (heap w ++ objs) = Some E).
  { rewrite app_assoc. apply lookup_app_length. }
  erewrite bind_run; [|apply image_convert_RGB_run; exact HE].
  rewrite encoded_image_of_convert by exact Hwf.
  cbn [set_stdout set_heap files readonly heap stdout].
  assert (HE2 : ((heap w ++ objs ++ [E]) ++ [E]) !! length (heap w ++ objs ++ [E])
                = Some E) by apply lookup_app_length.
  unfold bind at 1.
  erewrite image_save_run; [|exact HE2].
  clear Hrun. unfold set_stdout, set_heap, set_files.
  cbn [files readonly heap stdout]. rewrite <- !app_assoc. cbn [app].
  destruct (decide (output_path ∈ readonly w)) as [Hro|Hro].
  - reflexivity.
  - unfold bind, print, ret, set_stdout. cbn [files readonly heap stdout].
    rewrite <- ?app_assoc. cbn [app].
    destruct v; cbn [files readonly heap stdout]; rewrite <- ?app_assoc; reflexivity.
Qed.

End EncodeRun.

(** ** The extraction loops of [decode_image] *)

Lemma fold_left_snoc {A B} (g : B -> A) (l : list B) (acc : list A) :
  fold_left (fun bd i => bd ++ [g i]) l acc = acc ++ map g l.
Proof.
  revert acc. induction l as [|x l IH]; intros acc; simpl.
  - by rewrite app_nil_r.
  - by rewrite IH, <- app_assoc.
Qed.

Lemma map_nth_seq {A} (d : A) (n : nat) (l : list A) :
  map (fun i => nth i l d) (seq 0 (min n (length l))) = take n l.
Proof.
  revert l. induction n as [|n IH]; intros l; [reflexivity|].
  destruct l as [|x l]; [reflexivity|].
  cbn [length Nat.min min seq map take nth]. f_equal.
  rewrite <- seq_shift, map_map. apply IH.
Qed.

Lemma channel_bits (pixel_list : list Z) (binary_data : bitstring) :
  fold_left (fun bd i => bd ++ [str_lsb (nth i pixel_list 0)])
            (seq 0 (min 3 (length pixel_list))) binary_data
  = binary_data ++ pixel_bits (PTuple pixel_list).
Proof.
  rewrite (fold_left_snoc (fun i => str_lsb (nth i pixel_list 0))).
  f_equal. simpl. rewrite <- (map_nth_seq 0 3 pixel_list), map_map. reflexivity.
Qed.

Lemma lsb_stream_app (a b : list pixel_value) :
  lsb_stream (a ++ b) = lsb_stream a ++ lsb_stream b.
Proof. unfold lsb_stream. apply flat_map_app. Qed.

Section DecodeLoop.

Variables (w : world) (image : loc) (im : Image).

Hypothesis Himage : heap w !! image = Some im.
Hypothesis Hlen : length (img_data im) = (img_width im * img_height im)%nat.

Local Abbreviation imW := (img_width im).
Local Abbreviation imH := (img_height im).

Lemma extract_pixel_run (row col : nat) (p : pixel_value) (bd : bitstring) :
  (col < imW)%nat -> (row < imH)%nat ->
  img_data im !! (row * imW + col)%nat = Some p ->
  extract_pixel image row col bd w = (inr (Next, bd ++ pixel_bits p), w).
Proof.
  intros Hc Hr Hp. unfold extract_pixel, try_except.
  rewrite (bind_run _ _ _ _ _
             (image_getpixel_run image im (col, row) p w Himage
                (getpixel_at im col row p Hc Hr Hp))).
  destruct p as [v|pixel_list]; unfold ret; [reflexivity|].
  by rewrite channel_bits.
Qed.

Lemma extract_cols_run (row m c : nat) (bd : bitstring) :
  (row < imH)%nat -> (c + m = imW)%nat ->
  for_each (seq c m) (extract_pixel image row) bd w =
  (inr (bd ++ lsb_stream (take m (drop (row * imW + c) (img_data im)))), w).
Proof.
  intros Hr. revert c bd. induction m as [|m IH]; intros c bd Hc.
  - cbn [seq for_each take lsb_stream flat_map]. by rewrite app_nil_r.
  - cbn [seq for_each].
    destruct (lookup_lt_is_Some_2 (img_data im) (row * imW + c)) as [p Hp];
      [rewrite Hlen; apply cell_lt; lia|].
    rewrite (bind_run _ _ _ _ _ (extract_pixel_run row c p bd ltac:(lia) Hr Hp)).
    rewrite IH by lia.
    rewrite (drop_S _ _ _ Hp). cbn [take lsb_stream flat_map].
    replace (row * imW + S c)%nat with (S (row * imW + c)) by lia.
    by rewrite <- app_assoc.
Qed.

Lemma extract_rows_run (h r : nat) (bd : bitstring) :
  (r + h = imH)%nat ->
  for_each (seq r h) (extract_row image imW) bd w =
  (inr (bd ++ lsb_stream (take (h * imW) (drop (r * imW) (img_data im)))), w).
Proof.
  revert r bd. induction h as [|h IH]; intros r bd Hh.
  - cbn [seq for_each Nat.mul take lsb_stream flat_map]. by rewrite app_nil_r.
  - cbn [seq for_each]. unfold extract_row at 1.
    pose proof (extract_cols_run r imW 0 bd ltac:(lia) eq_refl) as Hrow.
    rewrite Nat.add_0_r in Hrow.
    erewrite bind_run;
      [|rewrite (bind_run _ _ _ _ _ Hrow); unfold ret; reflexivity].
    cbv beta iota. rewrite IH by lia.
    rewrite <- app_assoc, <- lsb_stream_app. do 3 f_equal.
    replace (S r * imW)%nat with (r * imW + imW)%nat by lia.
    rewrite <- drop_drop, take_take_drop. reflexivity.
Qed.

(** Lines 202-216: the bits of every pixel of the image, in order. *)
Lemma extract_image_run :
  for_each (seq 0 imH) (extract_row image imW) [] w =
  (inr (lsb_stream (img_data im)), w).
Proof.
  rewrite (extract_rows_run imH 0 [] eq_refl).
  change (0 * imW)%nat with 0%nat. rewrite drop_0. cbn [app].
  rewrite take_ge by lia. reflexivity.
Qed.

End DecodeLoop.

(** ** The delimiter search of [decode_image] *)

Lemma decode_byte_run (bd : bitstring) (k : nat) (d : str) (w : world) :
  decode_byte bd (0 + k * 8) (d, None) w =
  (inr match byte_at bd k with
       | None => (Next, (d, None))
       | Some c =>
           if (3 <=? length (d ++ [c]))%nat && str_eqb (last3 (d ++ [c])) delimiter
           then (Break, (d ++ [c], Some (drop_last3 (d ++ [c]))))
           else (Next, (d ++ [c], None))
       end, w).
Proof.
  unfold decode_byte, byte_at. rewrite Nat.add_0_l. cbn [fst].
  destruct (k * 8 + 8 <=? length bd)%nat; [|reflexivity].
  unfold try_except, bind, lift.
  rewrite chr_byte by (rewrite length_take; lia).
  match goal with
  | |- context [if ?b then ret _ else ret _] => destruct b
  end; reflexivity.
Qed.

Lemma decode_bytes_run (bd : bitstring) (cnt a : nat) (d : str) (w : world) :
  for_each (map (fun k => 0 + k * 8)%nat (seq a cnt)) (decode_byte bd) (d, None) w =
  (inr (scan (omap (byte_at bd) (seq a cnt)) d), w).
Proof.
  revert a d. induction cnt as [|cnt IH]; intros a d; [reflexivity|].
  cbn [seq map for_each omap list_omap].
  rewrite (bind_run _ _ _ _ _ (decode_byte_run bd a d w)).
  destruct (byte_at bd a) as [c|]; [|apply IH].
  cbn [scan].
  destruct ((3 <=? length (d ++ [c]))%nat && str_eqb (last3 (d ++ [c])) delimiter);
    [reflexivity|apply IH].
Qed.

Lemma fallback_run (d : str) (w : world) :
  fst (fallback d w) = inr (fallback_value d).
Proof.
  unfold fallback, fallback_value.
  by destruct (negb (length d =? 0)%nat && (2 <? length d)%nat
               && (length d <? 2 * length (filter (fun c => printable c = true) d))%nat).
Qed.

(** [decode_image] on a readable image returns what the delimiter search
    and the fallback find in the bits of its pixels. *)
Lemma decode_image_run (w : world) (image_path : string) (f : file) (im : Image) :
  files w !! image_path = Some f ->
  f_image f = Some im ->
  length (img_data im) = (img_width im * img_height im)%nat ->
  fst (decode_image image_path w) = inr (decode_bits (lsb_stream (img_data im))).
Proof.
  intros Hf Him Hlen. unfold decode_image, try_except.
  rewrite (bind_run _ _ _ _ _ (Image_open_run _ _ _ _ Hf Him)).
  assert (Hobj : heap (set_heap (heap w ++ [im]) w) !! length (heap w) = Some im)
    by apply (lookup_app_length (heap w) [] im).
  rewrite (bind_run _ _ _ _ _ (image_size_run _ _ _ Hobj)). cbn [fst snd].
  rewrite (bind_run _ _ _ _ _ (extract_image_run _ _ _ Hobj Hlen)).
  erewrite bind_run by reflexivity.
  unfold decode_bits.
  destruct (length (lsb_stream (img_data im)) <? 8)%nat; [reflexivity|].
  unfold range3. rewrite (bind_run _ _ _ _ _ (decode_bytes_run _ _ _ _ _)).
  fold (scanned_chars (lsb_stream (img_data im))).
  destruct (scan (scanned_chars (lsb_stream (img_data im))) []) as [d [found|]];
    cbn [fst snd]; [reflexivity|].
  match goal with
  | |- context [fallback d ?w0] =>
      pose proof (fallback_run d w0) as Hfb; destruct (fallback d w0) as [[e|r] w1]
  end; simpl in *; congruence.
Qed.

(** The first line [decode_image] prints on a readable image is the number
    of bits of the whole image: every pixel is read before the search
    starts. *)
Lemma decode_image_extracts_all (w : world) (image_path : string) (f : file) (im : Image) :
  files w !! image_path = Some f ->
  f_image f = Some im ->
  length (img_data im) = (img_width im * img_height im)%nat ->
  exists tail,
    stdout (snd (decode_image image_path w))
    = stdout w ++ PExtracted (length (lsb_stream (img_data im))) :: tail.
Proof.
  intros Hf Him Hlen. unfold decode_image, try_except.
  rewrite (bind_run _ _ _ _ _ (Image_open_run _ _ _ _ Hf Him)).
  assert (Hobj : heap (set_heap (heap w ++ [im]) w) !! length (heap w) = Some im)
    by apply (lookup_app_length (heap w) [] im).
  rewrite (bind_run _ _ _ _ _ (image_size_run _ _ _ Hobj)). cbn [fst snd].
  rewrite (bind_run _ _ _ _ _ (extract_image_run _ _ _ Hobj Hlen)).
  erewrite bind_run by reflexivity.
  cbn [set_stdout set_heap files readonly heap stdout].
  destruct (length (lsb_stream (img_data im)) <? 8)%nat.
  { exists [PNotEnoughBits]. unfold bind, print, ret. cbn [snd set_stdout stdout].
    by rewrite <- app_assoc. }
  unfold range3. rewrite (bind_run _ _ _ _ _ (decode_bytes_run _ _ _ _ _)).
  destruct (scan _ []) as [d [found|]]; cbn [fst snd].
  { by exists []. }
  unfold fallback.
  match goal with
  | |- context [if ?b then _ else _] => destruct b
  end; unfold bind, print, ret; cbn [snd set_stdout stdout];
    rewrite <- app_assoc; eauto.
Qed.

(** ** Strings, bytes and the delimiter *)

Lemma str_eqb_eq (a b : str) : str_eqb a b = true <-> a = b.
Proof.
  revert b. induction a as [|x a IH]; intros [|y b]; simpl; try (split; congruence).
  unfold char_eqb. rewrite andb_true_iff, N.eqb_eq, IH. split.
  - by intros [-> ->].
  - intros [= -> ->]. done.
Qed.

Lemma binary_of_app (a b : str) : binary_of (a ++ b) = binary_of a ++ binary_of b.
Proof. unfold binary_of. apply flat_map_app. Qed.

Lemma binary_of_length_ge (s : str) : (8 * length s <= length (binary_of s))%nat.
Proof.
  induction s as [|c s IH]; [simpl; lia|].
  change (binary_of (c :: s)) with (format_08b (ord c) ++ binary_of s).
  rewrite length_app. pose proof (format_08b_length_ge (ord c)). simpl. lia.
Qed.

Lemma single_byte_cons (c : char) (s : str) :
  single_byte (c :: s) = true -> (c < 256)%N /\ single_byte s = true.
Proof.
  unfold single_byte. simpl. intros [Hc Hs]%andb_prop. split; [|done].
  by apply N.ltb_lt.
Qed.

Lemma single_byte_app (a b : str) :
  single_byte (a ++ b) = single_byte a && single_byte b.
Proof. unfold single_byte. apply forallb_app. Qed.

Lemma binary_of_length (s : str) :
  single_byte s = true -> length (binary_of s) = (8 * length s)%nat.
Proof.
  induction s as [|c s IH]; [reflexivity|].
  intros [Hc Hs]%single_byte_cons.
  change (binary_of (c :: s)) with (format_08b c ++ binary_of s).
  rewrite length_app, IH by done. destruct (format_08b_byte c Hc) as [-> _].
  simpl. lia.
Qed.

(** The bytes of an encoded string are read back as its characters. *)
Lemma bytes_of_binary (s : str) (pre rest : bitstring) (a : nat) :
  single_byte s = true -> length pre = (a * 8)%nat ->
  omap (byte_at (pre ++ binary_of s ++ rest)) (seq a (length s)) = s.
Proof.
  revert pre a. induction s as [|c s IH]; intros pre a Hs Hpre; [reflexivity|].
  apply single_byte_cons in Hs as [Hc Hs].
  destruct (format_08b_byte c Hc) as [Hlen Hint].
  change (binary_of (c :: s)) with (format_08b c ++ binary_of s).
  cbn [length seq omap list_omap]. unfold byte_at at 1.
  rewrite !length_app, Hlen, Hpre.
  destruct (Nat.leb_spec (a * 8 + 8) (a * 8 + (8 + length (binary_of s) + length rest)));
    [|lia].
  rewrite <- Hpre, drop_app_length, <- app_assoc, take_app_length' by done.
  rewrite Hint. f_equal.
  rewrite (app_assoc pre).
  apply IH; [done|]. rewrite length_app, Hlen, Hpre. lia.
Qed.

Lemma omap_app_list {A B} (g : A -> option B) (l k : list A) :
  omap g (l ++ k) = omap g l ++ omap g k.
Proof.
  induction l as [|x l IH]; [reflexivity|].
  cbn [app omap list_omap]. destruct (g x); simpl; by rewrite IH.
Qed.

(** An encoded string that lies within the first 50,000 bits is what the
    decoder scans first. *)
Lemma scanned_chars_prefix (s : str) (rest : bitstring) :
  single_byte s = true ->
  (8 * length s <= Z.to_nat 50000)%nat ->
  exists more, scanned_chars (binary_of s ++ rest) = s ++ more.
Proof.
  intros Hs Hcap. unfold scanned_chars.
  set (bd := binary_of s ++ rest).
  set (cnt := ((min (length bd) (Z.to_nat 50000) - 0 + (8 - 1)) / 8)%nat).
  assert (Hcnt : (length s <= cnt)%nat).
  { subst cnt bd. rewrite length_app, binary_of_length by done.
    apply Nat.div_le_lower_bound; lia. }
  replace cnt with (length s + (cnt - length s))%nat by lia.
  rewrite seq_app, omap_app_list.
  exists (omap (byte_at bd) (seq (0 + length s) (cnt - length s))). f_equal.
  apply (bytes_of_binary s [] rest 0 Hs eq_refl).
Qed.

Lemma last3_delimiter (m : str) : last3 (m ++ delimiter) = delimiter.
Proof.
  unfold last3. rewrite length_app. cbn [length delimiter].
  replace (length m + 3 - 3)%nat with (length m) by lia. apply drop_app_length.
Qed.

Lemma drop_last3_delimiter (m : str) : drop_last3 (m ++ delimiter) = m.
Proof.
  unfold drop_last3. rewrite length_app. cbn [length delimiter].
  replace (length m + 3 - 3)%nat with (length m) by lia. apply take_app_length.
Qed.

Lemma ends_check (d : str) :
  (3 <=? length d)%nat && str_eqb (last3 d) delimiter = endswith_delimiter d.
Proof.
  unfold endswith_delimiter.
  destruct (str_eqb (last3 d) delimiter) eqn:He; [|apply andb_false_r].
  rewrite andb_true_r. apply Nat.leb_le.
  apply str_eqb_eq in He. apply (f_equal length) in He.
  unfold last3 in He. rewrite length_drop in He. simpl in He. lia.
Qed.

(** The search stops at the first prefix that ends with the delimiter. *)
Lemma scan_first (s2 s1 more : str) :
  s2 <> [] ->
  (forall k, (length s1 < k < length (s1 ++ s2))%nat ->
             endswith_delimiter (take k (s1 ++ s2)) = false) ->
  endswith_delimiter (s1 ++ s2) = true ->
  scan (s2 ++ more) s1 = (s1 ++ s2, Some (drop_last3 (s1 ++ s2))).
Proof.
  revert s1. induction s2 as [|c s2 IH]; intros s1 Hne Hearly Hend; [done|].
  cbn [app scan]. rewrite ends_check.
  destruct s2 as [|c' s2].
  - rewrite Hend. reflexivity.
  - assert (Heq : s1 ++ c :: c' :: s2 = (s1 ++ [c]) ++ c' :: s2)
      by (by rewrite <- app_assoc).
    rewrite Heq in *.
    pose proof (Hearly (S (length s1))) as H1.
    rewrite take_app_length' in H1 by (rewrite length_app; simpl; lia).
    rewrite H1 by (rewrite !length_app; simpl; lia).
    apply IH; [done| |done].
    intros k Hk. apply Hearly. rewrite !length_app in *. simpl in *. lia.
Qed.

Lemma no_early_delimiter_prefix (m : str) (k : nat) :
  no_early_delimiter m = true -> (k < length m + 3)%nat ->
  endswith_delimiter (take k (m ++ delimiter)) = false.
Proof.
  unfold no_early_delimiter. rewrite forallb_forall. intros H Hk.
  apply negb_true_iff, H, in_seq. lia.
Qed.

(** The declarative reading of [no_early_delimiter]: the only occurrence of
    the delimiter in the message followed by the delimiter is the last
    one. *)
Lemma no_early_delimiter_spec (m : str) :
  no_early_delimiter m = true <->
  (forall pre suf, m ++ delimiter = pre ++ delimiter ++ suf -> suf = []).
Proof.
  split.
  - intros H pre suf Heq. destruct suf as [|c suf]; [reflexivity|exfalso].
    assert (Hlen : (length pre + 3 < length m + 3)%nat).
    { apply (f_equal length) in Heq. rewrite !length_app in Heq. simpl in Heq. lia. }
    pose proof (no_early_delimiter_prefix m (length pre + 3) H Hlen) as Hk.
    rewrite Heq, (app_assoc pre delimiter) in Hk.
    rewrite take_app_length' in Hk by (rewrite length_app; reflexivity).
    unfold endswith_delimiter in Hk. rewrite last3_delimiter in Hk. discriminate.
  - intros H. unfold no_early_delimiter. apply forallb_forall. intros k Hk.
    apply in_seq in Hk. apply negb_true_iff.
    destruct (endswith_delimiter (take k (m ++ delimiter))) eqn:He; [exfalso|done].
    unfold endswith_delimiter in He. apply str_eqb_eq in He.
    pose proof (take_drop (length (take k (m ++ delimiter)) - 3)
                          (take k (m ++ delimiter))) as Hsplit.
    fold (last3 (take k (m ++ delimiter))) in Hsplit. rewrite He in Hsplit.
    pose proof (take_drop k (m ++ delimiter)) as Hall.
    rewrite <- Hsplit, <- app_assoc in Hall. symmetry in Hall.
    apply H in Hall. apply (f_equal length) in Hall.
    rewrite length_drop, length_app in Hall. simpl in Hall. lia.
Qed.

Lemma endswith_delimiter_app (m : str) : endswith_delimiter (m ++ delimiter) = true.
Proof. unfold endswith_delimiter. rewrite last3_delimiter. by apply str_eqb_eq. Qed.

(** Decoding the bits of an encoded message that lies within the cap. *)
Lemma decode_bits_roundtrip (m : str) (rest : bitstring) :
  single_byte m = true ->
  no_early_delimiter m = true ->
  ((length m + 3) * 8 <= Z.to_nat 50000)%nat ->
  decode_bits (binary_of (m ++ delimiter) ++ rest) = Some m.
Proof.
  intros Hsb Hned Hcap.
  assert (Hs : single_byte (m ++ delimiter) = true)
    by (rewrite single_byte_app, Hsb; reflexivity).
  unfold decode_bits.
  destruct (Nat.ltb_spec (length (binary_of (m ++ delimiter) ++ rest)) 8) as [Hlt|_].
  { rewrite length_app, binary_of_length, length_app in Hlt by done.
    simpl in Hlt. lia. }
  destruct (scanned_chars_prefix (m ++ delimiter) rest Hs) as [more ->].
  { rewrite length_app. simpl. lia. }
  rewrite (scan_first (m ++ delimiter) [] more).
  - cbn [app]. by rewrite drop_last3_delimiter.
  - by destruct m.
  - intros k Hk. cbn [app length] in *. rewrite length_app in Hk. simpl in Hk.
    apply no_early_delimiter_prefix; [done|lia].
  - apply endswith_delimiter_app.
Qed.

(** Nothing is found among characters none of which is ['#']. *)
Lemma scan_no_hash (chars d : str) :
  Forall (fun c => c <> hash) chars -> scan chars d = (d ++ chars, None).
Proof.
  revert d. induction chars as [|c chars IH]; intros d Hall.
  - by rewrite app_nil_r.
  - inversion Hall as [|? ? Hc Hrest]; subst.
    cbn [scan]. rewrite ends_check.
    destruct (endswith_delimiter (d ++ [c])) eqn:He.
    + exfalso. unfold endswith_delimiter in He. apply str_eqb_eq in He.
      pose proof (take_drop (length (d ++ [c]) - 3) (d ++ [c])) as Hsplit.
      fold (last3 (d ++ [c])) in Hsplit. rewrite He in Hsplit.
      change delimiter with ([hash; hash] ++ [hash]) in Hsplit.
      rewrite app_assoc in Hsplit. apply app_inj_tail in Hsplit as [_ Heq].
      by apply Hc.
    + rewrite IH by done. by rewrite <- app_assoc.
Qed.

Lemma scan_none (chars d d' : str) : scan chars d = (d', None) -> d' = d ++ chars.
Proof.
  revert d. induction chars as [|c chars IH]; intros d; cbn [scan].
  - intros [= <-]. by rewrite app_nil_r.
  - destruct ((3 <=? length (d ++ [c]))%nat && str_eqb (last3 (d ++ [c])) delimiter);
      [discriminate|].
    intros H. apply IH in H. by rewrite <- app_assoc in H.
Qed.

(** ** The cap on the search *)

Lemma omap_ext_in {A B} (g h : A -> option B) (l : list A) :
  (forall x, In x l -> g x = h x) -> omap g l = omap h l.
Proof.
  induction l as [|x l IH]; intros H; [reflexivity|].
  cbn [omap list_omap]. rewrite (H x) by (by left).
  rewrite IH; [reflexivity|]. intros y Hy. apply H. by right.
Qed.

Lemma byte_at_take (bd : bitstring) (n k : nat) :
  (k * 8 + 8 <= n)%nat -> byte_at (take n bd) k = byte_at bd k.
Proof.
  intros Hk. unfold byte_at. rewrite length_take.
  rewrite take_drop_commute, take_take.
  rewrite (Nat.min_l (k * 8 + 8) n) by lia. rewrite <- take_drop_commute.
  destruct (Nat.leb_spec (k * 8 + 8) (length bd));
    destruct (Nat.leb_spec (k * 8 + 8) (min n (length bd))); try lia; reflexivity.
Qed.

Lemma scanned_chars_take (bd : bitstring) :
  scanned_chars (take (Z.to_nat 50000) bd) = scanned_chars bd.
Proof.
  unfold scanned_chars. rewrite length_take.
  replace (min (min (Z.to_nat 50000) (length bd)) (Z.to_nat 50000))
    with (min (length bd) (Z.to_nat 50000)) by lia.
  apply omap_ext_in. intros k Hk. apply in_seq in Hk.
  destruct (Nat.le_gt_cases (Z.to_nat 50000) (length bd)) as [Hbig|Hsmall].
  - apply byte_at_take.
    rewrite Nat.min_r in Hk by lia.
    pose proof (Nat.Div0.mul_div_le (Z.to_nat 50000 - 0 + (8 - 1)) 8). lia.
  - rewrite take_ge by lia. reflexivity.
Qed.

(** Bits past the 50,000th never reach the result. *)
Lemma decode_bits_take (bd : bitstring) :
  decode_bits (take (Z.to_nat 50000) bd) = decode_bits bd.
Proof.
  unfold decode_bits. rewrite scanned_chars_take, length_take.
  destruct (Nat.ltb_spec (min (Z.to_nat 50000) (length bd)) 8);
    destruct (Nat.ltb_spec (length bd) 8); try lia; reflexivity.
Qed.

Lemma omap_length_le {A B} (g : A -> option B) (l : list A) :
  (length (omap g l) <= length l)%nat.
Proof.
  induction l as [|x l IH]; [reflexivity|].
  cbn [omap list_omap]. destruct (g x); simpl; lia.
Qed.

Lemma scanned_chars_length (bd : bitstring) :
  (length (scanned_chars bd) <= Z.to_nat 6250)%nat.
Proof.
  unfold scanned_chars.
  etransitivity; [apply omap_length_le|]. rewrite length_seq.
  apply Nat.lt_succ_r, Nat.Div0.div_lt_upper_bound. lia.
Qed.

(** ** Capacity *)

Lemma binary_message_length (message : str) :
  single_byte message = true ->
  length (binary_of (message ++ delimiter)) = ((length message + 3) * 8)%nat.
Proof.
  intros Hs. rewrite binary_of_length, length_app.
  - simpl. lia.
  - rewrite single_byte_app, Hs. reflexivity.
Qed.

Lemma fits_of_usable (message : str) (width height : nat) :
  single_byte message = true ->
  Z.of_nat (length message) <= usable_characters width height ->
  (length (binary_of (message ++ delimiter)) <= width * height * 3)%nat.
Proof.
  intros Hs Hc. rewrite binary_message_length by done.
  unfold usable_characters in Hc.
  pose proof (Nat.Div0.mul_div_le (width * height * 3) 8). lia.
Qed.

Lemma too_long_of_usable (message : str) (width height : nat) :
  usable_characters width height < Z.of_nat (length message) ->
  (width * height * 3 < length (binary_of (message ++ delimiter)))%nat.
Proof.
  intros Hc. pose proof (binary_of_length_ge (message ++ delimiter)) as Hge.
  rewrite length_app in Hge. simpl in Hge.
  unfold usable_characters in Hc.
  pose proof (Nat.mul_succ_div_gt (width * height * 3) 8 ltac:(lia)). lia.
Qed.

(** ** Encoding, then decoding *)

Lemma encoded_image_data_length (im : Image) (message : str) :
  well_formed im = true ->
  length (img_data (encoded_image_of im message))
  = (img_width (encoded_image_of im message) * img_height (encoded_image_of im message))%nat.
Proof.
  intros Hwf. unfold encoded_image_of. cbn [img_data img_width img_height].
  rewrite embed_length, length_map. by apply well_formed_length.
Qed.

Lemma encoded_image_stream (im : Image) (message : str) :
  well_formed im = true ->
  (length (binary_of (message ++ delimiter)) <= img_width im * img_height im * 3)%nat ->
  exists rest,
    lsb_stream (img_data (encoded_image_of im message))
    = binary_of (message ++ delimiter) ++ rest.
Proof.
  intros Hwf Hfit. unfold encoded_image_of. cbn [img_data].
  rewrite lsb_stream_embed.
  - eauto.
  - by apply well_formed_rgb.
  - rewrite length_map, (well_formed_length im Hwf). lia.
Qed.

(** What [decode_image] returns on the file written by [encode_image]. *)
Lemma decode_after_encode (png_size : Image -> N) (w : world)
    (image_path output_path : string) (message : str) (f : file) (im : Image) :
  files w !! image_path = Some f ->
  f_image f = Some im ->
  well_formed im = true ->
  (length (binary_of (message ++ delimiter)) <= img_width im * img_height im * 3)%nat ->
  output_path ∉ readonly w ->
  let r := encode_image png_size image_path message output_path w in
  fst r = inr true /\
  files (snd r) !! output_path
    = Some (mkFile (Some (encoded_image_of im message))
                   (png_size (encoded_image_of im message))) /\
  fst (decode_image output_path (snd r))
    = inr (decode_bits (lsb_stream (img_data (encoded_image_of im message)))).
Proof.
  intros Hf Him Hwf Hfit Hro r.
  destruct (encode_image_fits png_size w image_path output_path message f im
              Hf Him Hwf Hfit) as (v & o & _ & Hrun).
  destruct (decide (output_path ∈ readonly w)) as [|_]; [done|].
  subst r. rewrite Hrun. cbn [fst snd].
  assert (Hout : files
                   (mkWorld
                      (<[output_path := mkFile (Some (encoded_image_of im message))
                                               (png_size (encoded_image_of im message))]>
                         (files w))
                      (readonly w)
                      (heap w ++ carrier_objects im
                         ++ [encoded_image_of im message; encoded_image_of im message])
                      (o ++ [PModified (pixels_for (length (binary_of (message ++ delimiter))));
                             PSaved; if v then PVerified else PVerifyWarning]))
                 !! output_path
                 = Some (mkFile (Some (encoded_image_of im message))
                                (png_size (encoded_image_of im message))))
    by apply lookup_insert_eq.
  split; [reflexivity|]. split; [exact Hout|].
  apply (decode_image_run _ _ _ _ Hout eq_refl).
  by apply encoded_image_data_length.
Qed.

(** The lines printed by a successful [encode_image] end with the pixel
    count, the format and the verdict of the self-check. *)
Lemma self_check_outcome (png_size : Image -> N) (w : world)
    (image_path output_path : string) (message : str) (f : file) (im : Image) :
  files w !! image_path = Some f ->
  f_image f = Some im ->
  well_formed im = true ->
  (length (binary_of (message ++ delimiter)) <= img_width im * img_height im * 3)%nat ->
  output_path ∉ readonly w ->
  exists o verdict,
    stdout (snd (encode_image png_size image_path message output_path w))
    = o ++ [PModified (pixels_for (length (binary_of (message ++ delimiter))));
            PSaved; verdict].
Proof.
  intros Hf Him Hwf Hfit Hro.
  destruct (encode_image_fits png_size w image_path output_path message f im
              Hf Him Hwf Hfit) as (v & o & _ & Hrun).
  destruct (decide (output_path ∈ readonly w)) as [|_]; [done|].
  rewrite Hrun. cbn [snd stdout]. eauto.
Qed.

(** C1 (amended). For every well-formed carrier, every message of
    single-byte characters that fits the usable capacity, does not contain
    the delimiter before its end (neither ["###"] inside nor a trailing
    ['#']) and whose bits with the delimiter lie within the first 50,000,
    [decode_image] on the file written by [encode_image] returns exactly the
    message. *)
Theorem roundtrip_within_cap (png_size : Image -> N) (w : world)
    (image_path output_path : string) (message : str) (f : file) (im : Image) :
  files w !! image_path = Some f ->
  f_image f = Some im ->
  well_formed im = true ->
  single_byte message = true ->
  Z.of_nat (length message) <= usable_characters (img_width im) (img_height im) ->
  no_early_delimiter message = true ->
  (Z.of_nat (length message) + 3) * 8 <= 50000 ->
  output_path ∉ readonly w ->
  let r := encode_image png_size image_path message output_path w in
  fst r = inr true /\
  fst (decode_image output_path (snd r)) = inr (Some message).
Proof.
  intros Hf Him Hwf Hsb Hcap Hned H50 Hro r.
  pose proof (fits_of_usable message _ _ Hsb Hcap) as Hfit.
  destruct (decode_after_encode png_size w image_path output_path message f im
              Hf Him Hwf Hfit Hro) as (Hok & _ & Hdec).
  split; [exact Hok|]. subst r. rewrite Hdec.
  destruct (encoded_image_stream im message Hwf Hfit) as [rest ->].
  rewrite decode_bits_roundtrip; [reflexivity|done|done|lia].
Qed.

Lemma roundtrip_within_cap_witness :
  let r := encode_image raw_size "in.png" (py "hi") "out.png" demo_world in
  fst r = inr true /\ fst (decode_image "out.png" (snd r)) = inr (Some (py "hi")).
Proof.
  apply (roundtrip_within_cap raw_size demo_world "in.png" "out.png" (py "hi")
           demo_file demo_image).
  - reflexivity.
  - reflexivity.
  - reflexivity.
  - reflexivity.
  - vm_compute. discriminate.
  - reflexivity.
  - vm_compute. discriminate.
  - vm_compute. set_solver.
Defined.

(** C1 as stated fails: a message that ends with ['#'] is cut at the first
    place where the decoder sees three ['#'] in a row. *)
Lemma roundtrip_fails_on_trailing_hash :
  let message := py "a#" in
  let r := encode_image raw_size "in.png" message "out.png" demo_world in
  Z.of_nat (length message) + 3 <= usable_characters 10 10 /\
  single_byte message = true /\
  fst r = inr true /\
  fst (decode_image "out.png" (snd r)) = inr (Some (py "a")) /\
  fst (decode_image "out.png" (snd r)) <> inr (Some message).
Proof. vm_compute. repeat split; discriminate. Qed.

(** ** The capacity boundary *)

(** C2. For a readable carrier with [C] usable characters: a message whose
    bits with the delimiter do not exceed [width*height*3] is encoded and
    the output file written, and every message of [C] single-byte
    characters is such a message; a message whose bits with the delimiter
    exceed [width*height*3] is refused: [encode_image] returns [False], no
    pixel of the copy is written and no file is produced; and every message
    of [C+1] characters is such a message. *)
Theorem capacity_boundary (png_size : Image -> N) (w : world)
    (image_path output_path : string) (f : file) (im : Image) :
  files w !! image_path = Some f ->
  f_image f = Some im ->
  well_formed im = true ->
  let C := usable_characters (img_width im) (img_height im) in
  let available := (img_width im * img_height im * 3)%nat in
  (forall message,
      (length (binary_of (message ++ delimiter)) <= available)%nat ->
      output_path ∉ readonly w ->
      let r := encode_image png_size image_path message output_path w in
      fst r = inr true /\
      files (snd r) !! output_path
        = Some (mkFile (Some (encoded_image_of im message))
                       (png_size (encoded_image_of im message)))) /\
  (forall message,
      single_byte message = true ->
      Z.of_nat (length message) = C ->
      (length (binary_of (message ++ delimiter)) <= available)%nat) /\
  (forall message,
      (available < length (binary_of (message ++ delimiter)))%nat ->
      let r := encode_image png_size image_path message output_path w in
      fst r = inr false /\
      files (snd r) = files w /\
      heap (snd r) = heap w ++ carrier_objects im ++ [convert_RGB im] /\
      last (stdout (snd r))
        = Some (PTooLarge (available / 8)%nat (length message))) /\
  (forall message,
      Z.of_nat (length message) = C + 1 ->
      (available < length (binary_of (message ++ delimiter)))%nat).
Proof.
  intros Hf Him Hwf C available. split; [|split; [|split]].
  - intros message Hfit Hro r.
    destruct (decode_after_encode png_size w image_path output_path message f im
                Hf Him Hwf Hfit Hro) as (Hok & Hfile & _).
    by split.
  - intros message Hsb Hlen. apply fits_of_usable; [done|subst C; lia].
  - intros message Hbig r. subst r.
    rewrite (encode_image_too_large png_size w image_path output_path message f im
               Hf Him Hwf Hbig).
    cbn [fst snd files heap stdout]. repeat split.
    by rewrite !app_assoc, last_snoc.
  - intros message Hlen. apply too_long_of_usable. subst C. lia.
Qed.

Lemma capacity_boundary_witness :
  let fits := py "0123456789012345678901234567890123" in
  let over := py "01234567890123456789012345678901234" in
  usable_characters 10 10 = 34 /\
  length fits = 34%nat /\
  length over = 35%nat /\
  fst (encode_image raw_size "in.png" fits "out.png" demo_world) = inr true /\
  fst (encode_image raw_size "in.png" over "out.png" demo_world) = inr false /\
  files (snd (encode_image raw_size "in.png" over "out.png" demo_world))
    = files demo_world.
Proof.
  intros fits over.
  destruct (capacity_boundary raw_size demo_world "in.png" "out.png"
              demo_file demo_image eq_refl eq_refl eq_refl)
    as (Hfit & Hlast & Hover & Hnext).
  split; [reflexivity|]. split; [reflexivity|]. split; [reflexivity|]. split.
  - apply (Hfit fits); [apply (Hlast fits); reflexivity|vm_compute; set_solver].
  - destruct (Hover over (Hnext over eq_refl)) as (Hr & Hfiles & _).
    split; [exact Hr|exact Hfiles].
Defined.

(** ** Unreadable inputs *)

Lemma Image_open_fails (path : string) (w : world) :
  files w !! path = None \/ (exists f, files w !! path = Some f /\ f_image f = None) ->
  exists e, Image_open path w = (inl e, w).
Proof.
  unfold Image_open. intros [Hnone|(f & Hf & Him)].
  - rewrite Hnone. eauto.
  - rewrite Hf, Him. eauto.
Qed.

(** C9. When the input path is missing or does not hold a decodable image,
    each entry point returns its failure value ([False] or [None]) as a
    normal result: no exception reaches the caller, and neither files nor
    image objects change. *)
Theorem unreadable_image_fails_closed (png_size : Image -> N) (w : world)
    (image_path output_path : string) (message : str) :
  files w !! image_path = None
  \/ (exists f, files w !! image_path = Some f /\ f_image f = None) ->
  (exists e, encode_image png_size image_path message output_path w
             = (inr false, set_stdout (stdout w ++ [PEncodeError e]) w)) /\
  (exists e, decode_image image_path w
             = (inr None, set_stdout (stdout w ++ [PDecodeError e]) w)) /\
  (exists e, analyze_image_capacity image_path w
             = (inr None, set_stdout (stdout w ++ [PAnalyzeError e]) w)).
Proof.
  intros Hbad. destruct (Image_open_fails image_path w Hbad) as [e He].
  repeat split; exists e.
  - unfold encode_image, try_except. by rewrite (bind_raise _ _ _ _ _ He).
  - unfold decode_image, try_except. by rewrite (bind_raise _ _ _ _ _ He).
  - unfold analyze_image_capacity, try_except. by rewrite (bind_raise _ _ _ _ _ He).
Qed.

Lemma unreadable_image_fails_closed_witness :
  fst (encode_image raw_size "missing.png" (py "hi") "out.png" demo_world) = inr false /\
  fst (decode_image "missing.png" demo_world) = inr None /\
  fst (analyze_image_capacity "missing.png" demo_world) = inr None.
Proof.
  destruct (unreadable_image_fails_closed raw_size demo_world "missing.png" "out.png"
              (py "hi") (or_introl eq_refl)) as ([e1 H1] & [e2 H2] & [e3 H3]).
  rewrite H1, H2, H3. repeat split.
Defined.

(** ** The capacity analyzer *)

Lemma analyze_image_capacity_run (w : world) (image_path : string) (f : file) (im : Image) :
  files w !! image_path = Some f ->
  f_image f = Some im ->
  fst (analyze_image_capacity image_path w)
  = inr (Some (mkCapacity
                 (pretty (img_width im) +:+ "x" +:+ pretty (img_height im))
                 (img_width im * img_height im * 3)
                 (usable_characters (img_width im) (img_height im))
                 (QArith_base.Qmake (Z.of_N (f_size f)) 1024))).
Proof.
  intros Hf Him. unfold analyze_image_capacity, try_except.
  rewrite (bind_run _ _ _ _ _ (Image_open_run _ _ _ _ Hf Him)).
  rewrite (bind_run _ _ _ _ _
             (image_size_run (length (heap w)) im (set_heap (heap w ++ [im]) w)
                (lookup_app_length (heap w) [] im))).
  cbn [fst snd]. unfold bind, os_path_getsize. cbn [set_heap files].
  rewrite Hf. reflexivity.
Qed.

(** C10. For a readable image with fewer than 8 pixels the analyzer
    returns a result, not a failure, and its [max_characters] is negative:
    [width*height*3 // 8 - 3] with [width*height*3 // 8 <= 2]. *)
Theorem tiny_image_negative_capacity (w : world) (image_path : string)
    (f : file) (im : Image) :
  files w !! image_path = Some f ->
  f_image f = Some im ->
  (img_width im * img_height im < 8)%nat ->
  exists info,
    fst (analyze_image_capacity image_path w) = inr (Some info) /\
    max_characters info = Z.of_nat (img_width im * img_height im * 3 / 8) - 3 /\
    max_characters info < 0.
Proof.
  intros Hf Him Hsmall. eexists. split; [by apply analyze_image_capacity_run|].
  cbn [max_characters]. unfold usable_characters. split; [reflexivity|].
  assert (img_width im * img_height im * 3 / 8 < 3)%nat
    by (apply Nat.Div0.div_lt_upper_bound; lia).
  lia.
Qed.

Lemma tiny_image_negative_capacity_witness :
  exists info,
    fst (analyze_image_capacity "dot.png" dot_world) = inr (Some info) /\
    max_characters info = -3.
Proof.
  destruct (tiny_image_negative_capacity dot_world "dot.png" dot_file dot_image
              eq_refl eq_refl) as (info & Hrun & Hval & _).
  - simpl. lia.
  - exists info. split; [exact Hrun|]. rewrite Hval. reflexivity.
Defined.

(** ** Nothing but the copy is written *)

Lemma respects_weaken (R R' : world -> world -> Prop) {A} (m : M A) :
  (forall w w', R w w' -> R' w w') -> respects R m -> respects R' m.
Proof. intros HR Hm w. apply HR, Hm. Qed.

Section Untouched.

Variables (n : nat) (path : string).

Lemma untouched_refl (w : world) : untouched n path w w.
Proof. by intros _. Qed.

Lemma untouched_trans (w1 w2 w3 : world) :
  untouched n path w1 w2 -> untouched n path w2 w3 -> untouched n path w1 w3.
Proof.
  intros H12 H23 Hn. destruct (H12 Hn) as [Hh Hf].
  assert (Hn2 : (n <= length (heap w2))%nat).
  { apply (f_equal length) in Hh. rewrite !length_take in Hh. lia. }
  destruct (H23 Hn2) as [Hh' Hf']. split.
  - by rewrite Hh'.
  - intros p Hp. by rewrite Hf', Hf.
Qed.

Lemma untouched_print (w : world) (o : list line) :
  untouched n path w (set_stdout o w).
Proof. by intros _. Qed.

Lemma only_prints_untouched (w w' : world) : only_prints w w' -> untouched n path w w'.
Proof. intros [o ->]. apply untouched_print. Qed.

Lemma respects_alloc (im : Image) : respects (untouched n path) (alloc im).
Proof.
  intros w Hn. cbn [alloc snd set_heap heap files]. split; [|done].
  by rewrite take_app_le.
Qed.

Lemma respects_open (p : string) : respects (untouched n path) (Image_open p).
Proof.
  intros w. unfold Image_open.
  destruct (files w !! p) as [f|]; [|apply untouched_refl].
  destruct (f_image f); [apply respects_alloc|apply untouched_refl].
Qed.

Lemma respects_copy (l : loc) : respects (untouched n path) (image_copy l).
Proof.
  unfold image_copy.
  apply respects_bind;
    [apply untouched_trans
    |apply respects_deref, untouched_refl
    |intros im; apply respects_alloc].
Qed.

Lemma respects_convert (l : loc) : respects (untouched n path) (image_convert_RGB l).
Proof.
  unfold image_convert_RGB.
  apply respects_bind;
    [apply untouched_trans
    |apply respects_deref, untouched_refl
    |intros im; apply respects_alloc].
Qed.

Lemma respects_putpixel (l : loc) (xy : nat * nat) (v : pixel_value) :
  (n <= l)%nat -> respects (untouched n path) (image_putpixel l xy v).
Proof.
  intros Hl w. unfold image_putpixel, bind, deref, lift.
  destruct (heap w !! l) as [im|]; [|apply untouched_refl].
  destruct (putpixel im xy v) as [e|im']; [apply untouched_refl|].
  intros Hn. cbn [snd set_heap heap files]. split; [|done].
  by rewrite take_insert_ge.
Qed.

Lemma respects_save (png_size : Image -> N) (l : loc) :
  respects (untouched n path) (image_save png_size l path).
Proof.
  intros w. unfold image_save, bind, deref.
  destruct (heap w !! l) as [im|]; [|apply untouched_refl].
  destruct (decide (path ∈ readonly w)); [apply untouched_refl|].
  intros Hn. cbn [snd set_files heap files]. split; [done|].
  intros p Hp. by rewrite lookup_insert_ne.
Qed.

Lemma respects_verify (l : loc) (message : str) :
  respects (untouched n path) (verify_encoding l message).
Proof.
  eapply respects_weaken; [apply only_prints_untouched|].
  apply verify_encoding_only_prints.
Qed.

Lemma respects_encode_pixels (image encoded : loc) (bm : bitstring) (width height : nat) :
  (n <= encoded)%nat ->
  respects (untouched n path) (encode_pixels image encoded bm width height).
Proof.
  intros Hl.
  pose proof untouched_refl. pose proof untouched_trans. pose proof untouched_print.
  unfold encode_pixels, encode_row, encode_pixel.
  repeat first
    [ frame_step
    | apply respects_putpixel; exact Hl
    | match goal with
      | |- respects _ (let '(_, _) := ?x in _) => destruct x
      end ].
Qed.

(** Lines 24-106 of [encode_image], once the carrier is loaded and copied
    to address [encoded]. *)
Lemma respects_encode_rest (png_size : Image -> N) (image encoded : loc)
    (message : str) (h : exn -> M bool) :
  (n <= encoded)%nat ->
  (forall e, respects (untouched n path) (h e)) ->
  respects (untouched n path)
    (try_except
       (bind (image_size image) (fun sz =>
          let width := fst sz in
          let height := snd sz in
          let original_message := message in
          let message := message ++ delimiter in
          let binary_message := binary_of message in
          let max_capacity := (width * height * 3)%nat in
          if (max_capacity <? length binary_message)%nat then
            let max_chars := (max_capacity / 8)%nat in
            bind (print (PTooLarge max_chars (length original_message)))
                 (fun _ => ret false)
          else
            bind (print (PEncoding (length original_message) (length binary_message)))
              (fun _ =>
            bind (print (PCapacity max_capacity (max_capacity / 8)%nat)) (fun _ =>
            bind (encode_pixels image encoded binary_message width height) (fun st =>
            let modified_pixels := snd st in
            bind (verify_encoding encoded original_message) (fun verification_success =>
            bind (image_convert_RGB encoded) (fun encoded =>
            bind (image_save png_size encoded path) (fun _ =>
            bind (print (PModified modified_pixels)) (fun _ =>
            bind (print PSaved) (fun _ =>
            bind (if verification_success : bool
                  then print PVerified else print PVerifyWarning) (fun _ =>
            ret true)))))))))))
       h).
Proof.
  intros Hl Hh.
  pose proof untouched_refl. pose proof untouched_trans. pose proof untouched_print.
  apply respects_try; [done| |exact Hh].
  repeat first
    [ frame_step
    | progress cbv zeta
    | apply respects_encode_pixels; exact Hl
    | apply respects_verify
    | apply respects_convert
    | apply respects_save ].
Qed.

End Untouched.

Lemma carrier_objects_last (hp : list Image) (im : Image) :
  exists c, (hp ++ carrier_objects im) !! (length (hp ++ carrier_objects im) - 1)%nat
            = Some c.
Proof.
  apply lookup_lt_is_Some_2. rewrite length_app.
  pose proof (carrier_objects_length im). lia.
Qed.

(** C5. Whatever the carrier and the message, [encode_image] changes no
    image object that existed before the call, and the object it opens for
    the carrier (and the RGB conversion it may make of it) holds the same
    pixels after the call as when it was created: every [putpixel] goes to
    the copy. No file other than [output_path] changes either. *)
Theorem encode_image_leaves_carrier (png_size : Image -> N) (w : world)
    (image_path output_path : string) (message : str) :
  let w' := snd (encode_image png_size image_path message output_path w) in
  (forall l im, heap w !! l = Some im -> heap w' !! l = Some im) /\
  (forall f im,
      files w !! image_path = Some f -> f_image f = Some im ->
      heap w' !! length (heap w) = Some im /\
      (img_mode im <> RGB -> heap w' !! S (length (heap w)) = Some (convert_RGB im))) /\
  (forall p, p <> output_path -> files w' !! p = files w !! p).
Proof.
  intros w'.
  assert (Hcases :
            w' = set_stdout (stdout w') w /\ (forall f im, files w !! image_path = Some f ->
                                               f_image f = Some im -> False)
            \/ exists f im,
                files w !! image_path = Some f /\ f_image f = Some im /\
                untouched (length (heap w ++ carrier_objects im)) output_path
                  (mkWorld (files w) (readonly w)
                           (heap w ++ carrier_objects im) (stdout w))
                  w').
  { destruct (files w !! image_path) as [f|] eqn:Hf;
      [destruct (f_image f) as [im|] eqn:Him|].
    - right. exists f, im. split; [done|]. split; [done|].
      subst w'. unfold encode_image, try_except.
      rewrite (load_carrier_run w image_path f im Hf Him).
      destruct (carrier_objects_last (heap w) im) as [c Hc].
      erewrite bind_run; [|apply image_copy_run; cbn [heap]; exact Hc].
      cbn [set_heap heap files readonly stdout].
      eapply (untouched_trans _ _ _
                (mkWorld (files w) (readonly w)
                         ((heap w ++ carrier_objects im) ++ [c])
                         (stdout w ++ conversion_lines im))).
      + intros _. cbn [heap files]. split; [|done].
        by rewrite take_app_le.
      + apply (respects_encode_rest (length (heap w ++ carrier_objects im)) output_path
                 png_size _ _ message
                 (fun e => bind (print (PEncodeError e)) (fun _ => ret false))).
        * lia.
        * intros e.
          apply respects_bind;
            [apply untouched_trans
            |apply respects_print, untouched_print
            |intros _; apply respects_ret, untouched_refl].
    - left. split; [|intros f' im' [= <-]; congruence].
      destruct (Image_open_fails image_path w) as [e He];
        [right; by exists f|].
      subst w'. unfold encode_image, try_except.
      by rewrite (bind_raise _ _ _ _ _ He).
    - left. split; [|intros f' im'; congruence].
      destruct (Image_open_fails image_path w) as [e He]; [by left|].
      subst w'. unfold encode_image, try_except.
      by rewrite (bind_raise _ _ _ _ _ He). }
  destruct Hcases as [[Hw' Hno]|(f & im & Hf & Him & Hun)].
  - rewrite Hw'. cbn [set_stdout heap files]. split; [done|]. split; [|done].
    intros f im Hf Him. destruct (Hno f im Hf Him).
  - destruct Hun as [Hheap Hfiles]; [cbn [heap]; lia|].
    cbn [heap files] in Hheap, Hfiles.
    rewrite (take_ge (heap w ++ carrier_objects im)) in Hheap by lia.
    assert (Hget : forall l x, (heap w ++ carrier_objects im) !! l = Some x ->
                          heap w' !! l = Some x).
    { intros l x Hl. pose proof (lookup_lt_Some _ _ _ Hl) as Hlt.
      rewrite <- Hl, <- Hheap. symmetry. by apply lookup_take_lt. }
    split; [|split; [|exact Hfiles]].
    + intros l x Hl. apply Hget. by apply lookup_app_l_Some.
    + intros f' im' Hf' Him'.
      assert (f' = f) as -> by congruence. assert (im' = im) as -> by congruence.
      unfold carrier_objects in Hget. split.
      * apply Hget. destruct (mode_eqb (img_mode im) RGB); apply lookup_app_length.
      * intros Hmode. apply Hget.
        destruct (mode_eqb (img_mode im) RGB) eqn:Hm;
          [by apply mode_eqb_eq in Hm|].
        change (heap w ++ [im; convert_RGB im])
          with (heap w ++ [im] ++ [convert_RGB im]).
        rewrite app_assoc.
        replace (S (length (heap w))) with (length (heap w ++ [im]))
          by (rewrite length_app; simpl; lia).
        apply lookup_app_length.
Qed.

Lemma encode_image_leaves_carrier_witness :
  heap (snd (encode_image raw_size "in.png" (py "hi") "out.png" demo_world)) !! 0%nat
  = Some demo_image.
Proof.
  destruct (encode_image_leaves_carrier raw_size demo_world "in.png" "out.png" (py "hi"))
    as (_ & Hcarrier & _).
  apply (Hcarrier demo_file demo_image eq_refl eq_refl).
Defined.

(** ** The self-check *)

(** C6. For every readable carrier and every message that fits, whatever
    boolean [v] the self-check returns (run on the copy, in the world reached
    after the embedding), [encode_image] returns [True] and writes the output
    image; [v] only selects the last line printed. *)
Theorem self_check_is_only_diagnostic (png_size : Image -> N) (w : world)
    (image_path output_path : string) (message : str) (f : file) (im : Image) :
  files w !! image_path = Some f ->
  f_image f = Some im ->
  well_formed im = true ->
  (length (binary_of (message ++ delimiter)) <= img_width im * img_height im * 3)%nat ->
  output_path ∉ readonly w ->
  exists v o,
    verify_encoding (length (heap w ++ carrier_objects im)) message
                    (world_at_self_check w im message)
    = (inr v, set_stdout o (world_at_self_check w im message)) /\
    let r := encode_image png_size image_path message output_path w in
    fst r = inr true /\
    files (snd r) !! output_path
      = Some (mkFile (Some (encoded_image_of im message))
                     (png_size (encoded_image_of im message))) /\
    stdout (snd r)
      = o ++ [PModified (pixels_for (length (binary_of (message ++ delimiter))));
              PSaved;
              if v then PVerified else PVerifyWarning].
Proof.
  intros Hf Him Hwf Hfit Hro.
  destruct (encode_image_fits png_size w image_path output_path message f im
              Hf Him Hwf Hfit) as (v & o & Hv & Hrun).
  exists v, o. split; [exact Hv|].
  destruct (decide (output_path ∈ readonly w)) as [|_]; [done|].
  rewrite Hrun. cbn [fst snd files stdout]. repeat split.
  apply lookup_insert_eq.
Qed.

Lemma self_check_is_only_diagnostic_witness :
  let message := py "a###b" in
  exists v o,
    verify_encoding 1%nat message (world_at_self_check demo_world demo_image message)
    = (inr v, set_stdout o (world_at_self_check demo_world demo_image message)) /\
    let r := encode_image raw_size "in.png" message "out.png" demo_world in
    fst r = inr true /\
    files (snd r) !! "out.png"%string
      = Some (mkFile (Some (encoded_image_of demo_image message))
                     (raw_size (encoded_image_of demo_image message))) /\
    stdout (snd r)
      = o ++ [PModified (pixels_for (length (binary_of (message ++ delimiter))));
              PSaved;
              if v then PVerified else PVerifyWarning].
Proof.
  apply (self_check_is_only_diagnostic raw_size demo_world "in.png" "out.png"
           (py "a###b") demo_file demo_image).
  - reflexivity.
  - reflexivity.
  - reflexivity.
  - vm_compute. lia.
  - vm_compute. set_solver.
Defined.

(** The self-check does fail on messages that fit: one that contains the
    delimiter is cut short by it, and the encoder still succeeds. *)
Example self_check_fails_yet_success :
  let message := py "a###b" in
  let r := encode_image raw_size "in.png" message "out.png" demo_world in
  fst (verify_encoding 1%nat message (world_at_self_check demo_world demo_image message))
    = inr false /\
  fst r = inr true /\
  last (stdout (snd r)) = Some PVerifyWarning /\
  files (snd r) !! "out.png"%string
    = Some (mkFile (Some (encoded_image_of demo_image message)) 354).
Proof. vm_compute. repeat split. Qed.

(** ** The 10 x 10 scenario *)

Lemma rgb_data_id (im : Image) :
  img_mode im = RGB -> well_formed im = true ->
  map rgb_of_pixel (img_data im) = img_data im.
Proof.
  intros Hm Hwf. exact (f_equal img_data (convert_RGB_id im Hm Hwf)).
Qed.

(** C8. On every 10 x 10 RGB carrier, encoding ["hi"] (a stream of 40
    bits) succeeds, the encoder counts 14 modified pixels, the pixels of the
    written image from the 15th on are those of the carrier, and decoding
    the written image returns exactly ["hi"]. *)
Theorem hi_in_ten_by_ten (png_size : Image -> N) (w : world)
    (image_path output_path : string) (f : file) (im : Image) :
  files w !! image_path = Some f ->
  f_image f = Some im ->
  well_formed im = true ->
  img_mode im = RGB ->
  img_width im = 10%nat ->
  img_height im = 10%nat ->
  output_path ∉ readonly w ->
  let r := encode_image png_size image_path (py "hi") output_path w in
  length (binary_of (py "hi" ++ delimiter)) = 40%nat /\
  fst r = inr true /\
  (exists o verdict, stdout (snd r) = o ++ [PModified 14; PSaved; verdict]) /\
  (exists written size,
      files (snd r) !! output_path = Some (mkFile (Some written) size) /\
      length (img_data written) = 100%nat /\
      drop 14 (img_data written) = drop 14 (img_data im)) /\
  fst (decode_image output_path (snd r)) = inr (Some (py "hi")).
Proof.
  intros Hf Him Hwf Hmode HW HH Hro r.
  assert (Hbits : length (binary_of (py "hi" ++ delimiter)) = 40%nat) by reflexivity.
  assert (Hfit : (length (binary_of (py "hi" ++ delimiter))
                  <= img_width im * img_height im * 3)%nat)
    by (rewrite Hbits, HW, HH; simpl; lia).
  destruct (decode_after_encode png_size w image_path output_path (py "hi") f im
              Hf Him Hwf Hfit Hro) as (Hok & Hfile & Hdec).
  destruct (self_check_outcome png_size w image_path output_path (py "hi") f im
              Hf Him Hwf Hfit Hro) as (o & verdict & Hout).
  fold r in Hok, Hfile, Hdec, Hout.
  split; [exact Hbits|]. split; [exact Hok|]. split; [|split].
  - exists o, verdict. rewrite Hout, Hbits. reflexivity.
  - eexists _, _. split; [exact Hfile|].
    unfold encoded_image_of. cbn [img_data]. split.
    + rewrite embed_length, length_map, (well_formed_length im Hwf), HW, HH.
      reflexivity.
    + rewrite embed_drop_ge by (rewrite Hbits; lia).
      by rewrite rgb_data_id.
  - rewrite Hdec.
    destruct (encoded_image_stream im (py "hi") Hwf Hfit) as [rest ->].
    f_equal. apply decode_bits_roundtrip; [reflexivity|reflexivity|simpl; lia].
Qed.

Lemma hi_in_ten_by_ten_witness :
  let r := encode_image raw_size "in.png" (py "hi") "out.png" demo_world in
  length (binary_of (py "hi" ++ delimiter)) = 40%nat /\
  fst r = inr true /\
  (exists o verdict, stdout (snd r) = o ++ [PModified 14; PSaved; verdict]) /\
  (exists written size,
      files (snd r) !! "out.png"%string = Some (mkFile (Some written) size) /\
      length (img_data written) = 100%nat /\
      drop 14 (img_data written) = drop 14 (img_data demo_image)) /\
  fst (decode_image "out.png" (snd r)) = inr (Some (py "hi")).
Proof.
  apply (hi_in_ten_by_ten raw_size demo_world "in.png" "out.png" demo_file demo_image).
  - reflexivity.
  - reflexivity.
  - reflexivity.
  - reflexivity.
  - reflexivity.
  - reflexivity.
  - vm_compute. set_solver.
Defined.

(** ** The search stops at the cap *)

(** C3 (amended). [decode_image] extracts the bits of every pixel of the
    image (it prints their number) and then looks at no more than the whole
    bytes among the first 50,000 of them: its result is a function of those
    50,000 bits, so a delimiter that ends later is never found; when none
    of the at most 6,250 characters read completes a delimiter, the result
    is the fallback on exactly these characters. *)
Theorem decode_search_is_capped (w : world) (image_path : string) (f : file) (im : Image) :
  files w !! image_path = Some f ->
  f_image f = Some im ->
  length (img_data im) = (img_width im * img_height im)%nat ->
  let bd := lsb_stream (img_data im) in
  (exists tail,
      stdout (snd (decode_image image_path w))
      = stdout w ++ PExtracted (length bd) :: tail) /\
  fst (decode_image image_path w) = inr (decode_bits (take (Z.to_nat 50000) bd)) /\
  (length (scanned_chars bd) <= Z.to_nat 6250)%nat /\
  ((8 <= length bd)%nat ->
   snd (scan (scanned_chars bd) []) = None ->
   fst (decode_image image_path w) = inr (fallback_value (scanned_chars bd))).
Proof.
  intros Hf Him Hlen bd.
  split; [by apply (decode_image_extracts_all w image_path f im)|].
  rewrite (decode_image_run w image_path f im Hf Him Hlen). fold bd.
  split; [by rewrite decode_bits_take|]. split; [apply scanned_chars_length|].
  intros H8 Hnone. unfold decode_bits.
  destruct (Nat.ltb_spec (length bd) 8); [lia|].
  destruct (scan (scanned_chars bd) []) as [d found] eqn:Hscan.
  simpl in Hnone. subst found. apply scan_none in Hscan. by subst d.
Qed.

Lemma decode_search_is_capped_witness :
  fst (decode_image "in.png" demo_world)
  = inr (decode_bits (take (Z.to_nat 50000) (lsb_stream (img_data demo_image)))).
Proof.
  destruct (decode_search_is_capped demo_world "in.png" demo_file demo_image
              eq_refl eq_refl eq_refl) as (_ & Hrun & _).
  exact Hrun.
Defined.

Lemma forallb_replicate {A} (g : A -> bool) (n : nat) (x : A) :
  g x = true -> forallb g (replicate n x) = true.
Proof. intros Hx. induction n as [|n IH]; simpl; [done|by rewrite Hx, IH]. Qed.

Lemma filter_replicate_true (n : nat) (c : char) :
  printable c = true ->
  filter (fun c => printable c = true) (replicate n c) = replicate n c.
Proof.
  intros Hc. induction n as [|n IH]; [reflexivity|].
  cbn [replicate]. rewrite filter_cons_True by done. by rewrite IH.
Qed.

(** A run of more than 6,250 letters comes back cut at 6,250. *)
Lemma long_run_truncated (png_size : Image -> N) (w : world)
    (image_path output_path : string) (f : file) (im : Image) (n extra : nat) :
  files w !! image_path = Some f ->
  f_image f = Some im ->
  well_formed im = true ->
  output_path ∉ readonly w ->
  (8 * n = Z.to_nat 50000)%nat ->
  (1 <= extra)%nat ->
  ((n + extra + 3) * 8 <= img_width im * img_height im * 3)%nat ->
  let r := encode_image png_size image_path (replicate (n + extra) 97%N) output_path w in
  fst r = inr true /\
  fst (decode_image output_path (snd r)) = inr (Some (replicate n 97%N)).
Proof.
  intros Hf Him Hwf Hro Hn Hextra Hcap.
  remember (replicate (n + extra) 97%N) as m eqn:Hm. intros r.
  assert (Hsb : single_byte m = true) by (subst m; by apply forallb_replicate).
  assert (Hfit : (length (binary_of (m ++ delimiter))
                  <= img_width im * img_height im * 3)%nat).
  { rewrite binary_message_length by done. subst m. rewrite length_replicate. lia. }
  destruct (decode_after_encode png_size w image_path output_path m f im
              Hf Him Hwf Hfit Hro) as (Hok & _ & Hdec).
  split; [exact Hok|]. fold r in Hdec. rewrite Hdec. f_equal.
  destruct (encoded_image_stream im m Hwf Hfit) as [rest ->].
  remember (replicate n 97%N) as s eqn:Hseq.
  assert (Hs : single_byte s = true) by (subst s; by apply forallb_replicate).
  assert (Hsplit : binary_of (m ++ delimiter) ++ rest
                   = binary_of s ++ (binary_of (replicate extra 97%N ++ delimiter) ++ rest)).
  { subst m s. by rewrite replicate_add, <- (app_assoc (replicate n 97%N)),
      binary_of_app, <- app_assoc. }
  etransitivity; [exact (f_equal decode_bits Hsplit)|]. clear Hsplit.
  remember (binary_of (replicate extra 97%N ++ delimiter) ++ rest) as rest' eqn:Hrest.
  assert (Hlens : @length char s = n) by (subst s; apply length_replicate).
  unfold decode_bits.
  destruct (Nat.ltb_spec (length (binary_of s ++ rest')) 8) as [Hlt|_].
  { rewrite length_app, binary_of_length, Hlens in Hlt by done. lia. }
  destruct (scanned_chars_prefix s rest' Hs) as [more Hmore]; [lia|].
  assert (more = []) as ->.
  { pose proof (scanned_chars_length (binary_of s ++ rest')) as Hle.
    rewrite Hmore, length_app, Hlens in Hle.
    destruct more; [done|simpl in Hle; lia]. }
  rewrite Hmore, app_nil_r.
  rewrite scan_no_hash by (subst s; apply Forall_replicate; discriminate).
  cbn [app]. unfold fallback_value.
  subst s. rewrite filter_replicate_true by reflexivity.
  rewrite !length_replicate.
  destruct (Nat.eqb_spec n 0); [lia|].
  destruct (Nat.ltb_spec 2 n); [|lia].
  destruct (Nat.ltb_spec n (2 * n)); [|lia].
  reflexivity.
Qed.

Lemma wide_image_well_formed : well_formed wide_image = true.
Proof.
  unfold well_formed, wide_image. cbn [img_data img_width img_height img_mode].
  rewrite length_replicate, Nat.mul_1_r, Nat.eqb_refl.
  by apply forallb_replicate.
Qed.

(** C3 as stated fails: the delimiter of this message ends after the
    50,000th bit; the encoder accepts the message, and the decoder returns
    its first 6,250 letters instead of the 6,251 that were encoded. *)
Lemma delimiter_beyond_cap_is_not_found :
  let r := encode_image raw_size "wide.png" long_message "out.png" wide_world in
  (Z.to_nat 50000 < length (binary_of long_message))%nat /\
  fst r = inr true /\
  fst (decode_image "out.png" (snd r)) = inr (Some (replicate (Z.to_nat 6250) 97%N)) /\
  fst (decode_image "out.png" (snd r)) <> inr (Some long_message).
Proof.
  intros r.
  assert (Hlong : long_message = replicate (Z.to_nat 6250 + 1) 97%N).
  { unfold long_message. f_equal; lia. }
  destruct (long_run_truncated raw_size wide_world "wide.png" "out.png"
              wide_file wide_image (Z.to_nat 6250) 1) as [Hok Hdec].
  - reflexivity.
  - reflexivity.
  - apply wide_image_well_formed.
  - apply not_elem_of_empty.
  - lia.
  - lia.
  - unfold wide_image. cbn [img_width img_height]. lia.
  - rewrite <- Hlong in Hok, Hdec. fold r in Hok, Hdec.
    split; [|split; [exact Hok|split; [exact Hdec|]]].
    + rewrite binary_of_length by (by apply forallb_replicate).
      unfold long_message. rewrite length_replicate. lia.
    + rewrite Hdec. intros Heq.
      apply (f_equal (fun x : exn + option str =>
                        match x with inr (Some l) => length l | _ => 0%nat end)) in Heq.
      cbv beta iota in Heq. unfold long_message in Heq.
      rewrite !length_replicate in Heq. lia.
Qed.

(** ** The reported maximum *)

(** Whenever [encode_image] refuses a message, the maximum it prints is
    [width*height*3 // 8]: three more than the usable characters. *)
Lemma reported_maximum (png_size : Image -> N) (w : world)
    (image_path output_path : string) (message : str) (f : file) (im : Image) :
  files w !! image_path = Some f ->
  f_image f = Some im ->
  well_formed im = true ->
  (img_width im * img_height im * 3 < length (binary_of (message ++ delimiter)))%nat ->
  exists max_chars,
    last (stdout (snd (encode_image png_size image_path message output_path w)))
    = Some (PTooLarge max_chars (length message)) /\
    Z.of_nat max_chars = usable_characters (img_width im) (img_height im) + 3.
Proof.
  intros Hf Him Hwf Hbig.
  rewrite (encode_image_too_large png_size w image_path output_path message f im
             Hf Him Hwf Hbig).
  cbn [snd stdout]. eexists. split.
  - by rewrite !app_assoc, last_snoc.
  - unfold usable_characters. lia.
Qed.

(** C4 fails on the code: for the 10 x 10 carrier the analyzer reports 34
    usable characters and a message of 35 characters is refused, but the
    refusal prints a maximum of 37, and a message of 37 characters does not
    fit either. *)
Theorem refusal_reports_three_too_many :
  let over := py "01234567890123456789012345678901234" in
  let reported := py "0123456789012345678901234567890123456" in
  let r := encode_image raw_size "in.png" over "out.png" demo_world in
  length over = 35%nat /\
  fst r = inr false /\
  last (stdout (snd r)) = Some (PTooLarge 37 35) /\
  usable_characters 10 10 = 34 /\
  length reported = 37%nat /\
  fst (encode_image raw_size "in.png" reported "out.png" demo_world) = inr false.
Proof. vm_compute. repeat split. Qed.

(** ** The fallback threshold *)

(** The fallback returns the printable characters only when they are
    strictly more than half of a candidate of more than two characters. *)
Lemma fallback_value_spec (d : str) :
  fallback_value d =
  if (2 <? length d)%nat
     && (length d <? 2 * length (filter (fun c => printable c = true) d))%nat
  then Some (filter (fun c => printable c = true) d) else None.
Proof.
  unfold fallback_value.
  destruct (Nat.eqb_spec (length d) 0) as [H0|H0];
    destruct (Nat.ltb_spec 2 (length d)); try lia; reflexivity.
Qed.

(** C7 fails on the code at exactly one half: the candidate read from
    [half.png] has four characters, two of them printable, no delimiter;
    [decode_image] returns [None], not ["ab"]. *)
Theorem fallback_rejects_exactly_half :
  let bd := lsb_stream (img_data half_image) in
  let candidate := scanned_chars bd in
  candidate = [97; 98; 1; 2]%N /\
  scan candidate [] = (candidate, None) /\
  filter (fun c => printable c = true) candidate = py "ab" /\
  (2 * length (filter (fun c => printable c = true) candidate) = length candidate)%nat /\
  fst (decode_image "half.png" half_world) = inr None.
Proof. vm_compute. repeat split. Qed.

(** ** The extraction loops of [verify_encoding] *)

Lemma fold_take_channel (total : nat) (pixel_list : list Z) (l : list nat)
    (bd : bitstring) :
  fold_left (take_channel total pixel_list) l bd
  = bd ++ take (total - length bd) (map (fun i => str_lsb (nth i pixel_list 0)) l).
Proof.
  revert bd. induction l as [|i l IH]; intros bd.
  - cbn [fold_left map]. by rewrite take_nil, app_nil_r.
  - cbn [fold_left map]. rewrite IH. unfold take_channel.
    destruct (Nat.ltb_spec (length bd) total) as [Hlt|Hge].
    + rewrite length_app. cbn [length].
      replace (total - length bd)%nat with (S (total - (length bd + 1))) by lia.
      cbn [take]. by rewrite <- app_assoc.
    + replace (total - length bd)%nat with 0%nat by lia. reflexivity.
Qed.

Lemma take_up_to_app (total : nat) (bd a b : bitstring) :
  (bd ++ take (total - length bd) a)
    ++ take (total - length (bd ++ take (total - length bd) a)) b
  = bd ++ take (total - length bd) (a ++ b).
Proof.
  rewrite <- app_assoc. f_equal. rewrite take_app. f_equal.
  rewrite length_app, length_take. f_equal. lia.
Qed.

Section VerifyLoop.

Variables (w : world) (image : loc) (im : Image) (total : nat).

Hypothesis Himage : heap w !! image = Some im.
Hypothesis Hlen : length (img_data im) = (img_width im * img_height im)%nat.

Local Abbreviation imW := (img_width im).
Local Abbreviation imH := (img_height im).

Lemma verify_pixel_run (row col : nat) (p : pixel_value) (bd : bitstring) :
  (col < imW)%nat -> (row < imH)%nat ->
  img_data im !! (row * imW + col)%nat = Some p ->
  exists fl,
    verify_pixel image total row col bd w
    = (inr (fl, bd ++ take (total - length bd) (pixel_bits p)), w).
Proof.
  intros Hc Hr Hp. unfold verify_pixel.
  destruct (Nat.leb_spec total (length bd)) as [Hdone|Hmore].
  - exists Break. unfold ret.
    replace (total - length bd)%nat with 0%nat by lia.
    by rewrite take_0, app_nil_r.
  - exists Next. unfold try_except.
    rewrite (bind_run _ _ _ _ _
               (image_getpixel_run image im (col, row) p w Himage
                  (getpixel_at im col row p Hc Hr Hp))).
    destruct p as [v|pixel_list]; unfold ret.
    + replace (total - length bd)%nat with (S (total - length bd - 1)) by lia.
      cbn [pixel_bits take]. by rewrite take_nil.
    + rewrite fold_take_channel. cbn [pixel_bits].
      rewrite <- (map_nth_seq 0 3 pixel_list), map_map. reflexivity.
Qed.

Lemma verify_cols_run (row m c : nat) (bd : bitstring) :
  (row < imH)%nat -> (c + m = imW)%nat ->
  for_each (seq c m) (verify_pixel image total row) bd w =
  (inr (bd ++ take (total - length bd)
                   (lsb_stream (take m (drop (row * imW + c) (img_data im))))), w).
Proof.
  intros Hr. revert c bd. induction m as [|m IH]; intros c bd Hc.
  - cbn [seq for_each]. rewrite take_0. cbn [lsb_stream flat_map].
    by rewrite take_nil, app_nil_r.
  - cbn [seq for_each].
    destruct (lookup_lt_is_Some_2 (img_data im) (row * imW + c)) as [p Hp];
      [rewrite Hlen; apply cell_lt; lia|].
    destruct (verify_pixel_run row c p bd ltac:(lia) Hr Hp) as [fl Hrun].
    rewrite (bind_run _ _ _ _ _ Hrun).
    rewrite (drop_S _ _ _ Hp). cbn [take lsb_stream flat_map].
    fold (lsb_stream (take m (drop (S (row * imW + c)) (img_data im)))).
    rewrite <- take_up_to_app.
    destruct fl.
    + rewrite IH by lia.
      replace (row * imW + S c)%nat with (S (row * imW + c)) by lia. reflexivity.
    + (* the loop was left: the bits are complete *)
      unfold verify_pixel in Hrun.
      destruct (Nat.leb_spec total (length bd)) as [Hdone|Hmore].
      * unfold ret.
        replace (total - length bd)%nat with 0%nat by lia.
        rewrite take_0, app_nil_r.
        replace (total - length bd)%nat with 0%nat by lia.
        by rewrite take_0, app_nil_r.
      * exfalso. unfold try_except in Hrun.
        rewrite (bind_run _ _ _ _ _
                   (image_getpixel_run image im (c, row) p w Himage
                      (getpixel_at im c row p ltac:(lia) Hr Hp))) in Hrun.
        destruct p; discriminate.
Qed.

Lemma verify_rows_run (h r : nat) (bd : bitstring) :
  (r + h = imH)%nat ->
  for_each (seq r h) (verify_row image total imW) bd w =
  (inr (bd ++ take (total - length bd)
                   (lsb_stream (take (h * imW) (drop (r * imW) (img_data im))))), w).
Proof.
  revert r bd. induction h as [|h IH]; intros r bd Hh.
  - cbn [seq for_each]. change (0 * imW)%nat with 0%nat. rewrite take_0.
    cbn [lsb_stream flat_map]. by rewrite take_nil, app_nil_r.
  - cbn [seq for_each].
    pose proof (verify_cols_run r imW 0 bd ltac:(lia) eq_refl) as Hrow.
    rewrite Nat.add_0_r in Hrow.
    replace (S h * imW)%nat with (imW + h * imW)%nat by lia.
    rewrite <- take_take_drop, drop_drop, lsb_stream_app, <- take_up_to_app.
    set (bd' := bd ++ take (total - length bd)
                           (lsb_stream (take imW (drop (r * imW) (img_data im))))) in *.
    unfold bind at 1. unfold verify_row at 1.
    rewrite (bind_run _ _ _ _ _ Hrow).
    destruct (Nat.leb_spec total (length bd')) as [Hdone|Hmore]; unfold ret at 1.
    + unfold ret.
      replace (total - length bd')%nat with 0%nat by lia.
      by rewrite take_0, app_nil_r.
    + rewrite IH by lia.
      replace (S r * imW)%nat with (r * imW + imW)%nat by lia. reflexivity.
Qed.

(** Lines 132-158: the first [total_bits_needed] bits of the image. *)
Lemma verify_extract_run :
  for_each (seq 0 imH) (verify_row image total imW) [] w =
  (inr (take total (lsb_stream (img_data im))), w).
Proof.
  rewrite (verify_rows_run imH 0 [] eq_refl).
  change (0 * imW)%nat with 0%nat. rewrite drop_0. cbn [app length].
  rewrite Nat.sub_0_r. rewrite (take_ge (img_data im)) by lia. reflexivity.
Qed.

End VerifyLoop.

(** ** The verdict of [verify_encoding] *)

Lemma verify_bytes_run (bd : bitstring) (cnt a : nat) (d : str) (w : world) :
  for_each (map (fun k => 0 + k * 8)%nat (seq a cnt)) (verify_byte bd) d w =
  (inr (fst (scan (omap (byte_at bd) (seq a cnt)) d)), w).
Proof.
  revert a d. induction cnt as [|cnt IH]; intros a d; [reflexivity|].
  cbn [seq map for_each omap list_omap].
  unfold verify_byte at 1, byte_at at 1. rewrite Nat.add_0_l.
  destruct (a * 8 + 8 <=? length bd)%nat.
  - unfold bind at 1. unfold bind at 1. unfold lift.
    rewrite chr_byte by (rewrite length_take; lia).
    cbn [scan]. rewrite ends_check.
    match goal with
    | |- context [endswith_delimiter ?x] => destruct (endswith_delimiter x)
    end; unfold ret at 1; [reflexivity|apply IH].
  - unfold bind at 1. unfold ret at 1. apply IH.
Qed.

(** [verify_encoding] on an image object: no exception is met, nothing is
    printed, and the verdict is read off the first [total_bits_needed]
    bits. *)
Lemma verify_encoding_value (w : world) (encoded_image : loc) (im : Image)
    (original_message : str) :
  heap w !! encoded_image = Some im ->
  length (img_data im) = (img_width im * img_height im)%nat ->
  verify_encoding encoded_image original_message w
  = (inr (verify_value (take ((length original_message + 3) * 8)
                             (lsb_stream (img_data im)))
                       original_message), w).
Proof.
  intros Hobj Hlen. unfold verify_encoding, try_except.
  rewrite (bind_run _ _ _ _ _ (image_size_run _ _ _ Hobj)). cbn [fst snd].
  rewrite (bind_run _ _ _ _ _ (verify_extract_run _ _ _ _ Hobj Hlen)).
  unfold range3. rewrite (bind_run _ _ _ _ _ (verify_bytes_run _ _ _ _ _)).
  unfold verify_value.
  match goal with
  | |- context [if ?b then ret _ else ret _] => destruct b
  end; reflexivity.
Qed.

(** How far the search goes: [j] characters are consumed, no earlier prefix
    ends with the delimiter, and the search stops exactly when one does. *)
Lemma scan_spec (chars d : str) :
  exists j,
    (j <= length chars)%nat /\
    fst (scan chars d) = d ++ take j chars /\
    (forall i, (1 <= i < j)%nat -> endswith_delimiter (d ++ take i chars) = false) /\
    match snd (scan chars d) with
    | None =>
        j = length chars /\
        ((1 <= j)%nat -> endswith_delimiter (d ++ take j chars) = false)
    | Some r =>
        (1 <= j)%nat /\
        endswith_delimiter (d ++ take j chars) = true /\
        r = drop_last3 (d ++ take j chars)
    end.
Proof.
  revert d. induction chars as [|c chars IH]; intros d.
  - exists 0%nat. cbn [scan fst snd length take]. rewrite app_nil_r.
    repeat split; [lia|intros; lia|lia].
  - cbn [scan]. rewrite ends_check.
    destruct (endswith_delimiter (d ++ [c])) eqn:He.
    + exists 1%nat. cbn [fst snd length take]. rewrite take_0.
      repeat split; try lia; done.
    + destruct (IH (d ++ [c])) as (j & Hj & Hfst & Hearly & Hsnd).
      exists (S j). cbn [length take].
      assert (Hshift : forall i, (d ++ [c]) ++ take i chars = d ++ c :: take i chars)
        by (intros i; by rewrite <- app_assoc).
      rewrite Hfst, Hshift. split; [lia|]. split; [reflexivity|]. split.
      * intros i Hi. destruct i as [|i]; [lia|]. cbn [take].
        destruct i as [|i]; [by rewrite take_0|].
        rewrite <- Hshift. apply Hearly. lia.
      * destruct (snd (scan chars (d ++ [c]))) as [r|].
        -- destruct Hsnd as (H1 & Hend & Hr). rewrite Hshift in Hend, Hr.
           repeat split; [lia|done|done].
        -- destruct Hsnd as (Hjl & Hend). split; [lia|]. intros _.
           destruct j as [|j]; [by rewrite take_0|].
           rewrite <- Hshift. apply Hend. lia.
Qed.

Lemma str_contains_app (a p b : str) : str_contains (a ++ p ++ b) p = true.
Proof.
  induction a as [|x a IH].
  - cbn [app]. assert (Hs : startswith (p ++ b) p = true).
    { induction p as [|y p IHp]; [by destruct b|].
      cbn [app startswith]. unfold char_eqb. by rewrite N.eqb_refl, IHp. }
    destruct (p ++ b); cbn [str_contains]; by rewrite Hs.
  - cbn [app str_contains]. rewrite IH. apply orb_true_r.
Qed.

Lemma endswith_delimiter_split (d : str) :
  endswith_delimiter d = true -> d = drop_last3 d ++ delimiter.
Proof.
  unfold endswith_delimiter. intros He%str_eqb_eq.
  unfold drop_last3. rewrite <- He. unfold last3. by rewrite take_drop.
Qed.

Lemma forallb_false {A} (g : A -> bool) (l : list A) :
  forallb g l = false -> exists x, In x l /\ g x = false.
Proof.
  induction l as [|x l IH]; [discriminate|]. cbn [forallb].
  destruct (g x) eqn:Hx.
  - intros H. destruct (IH H) as (y & Hy & Hgy). exists y. split; [by right|done].
  - intros _. exists x. split; [by left|done].
Qed.

Lemma no_early_delimiter_false (m : str) :
  no_early_delimiter m = false ->
  exists k, (k < length m + 3)%nat /\
            endswith_delimiter (take k (m ++ delimiter)) = true.
Proof.
  unfold no_early_delimiter. intros H.
  destruct (forallb_false _ _ H) as (k & Hk & Hend).
  exists k. apply in_seq in Hk. split; [lia|by apply negb_false_iff].
Qed.

Lemma str_eqb_length (a b : str) : str_eqb a b = true -> length a = length b.
Proof. intros H%str_eqb_eq. by subst. Qed.

Lemma endswith_delimiter_length (d : str) :
  endswith_delimiter d = true -> (3 <= length d)%nat.
Proof.
  intros H. rewrite <- ends_check in H. apply andb_prop in H as [H _].
  by apply Nat.leb_le.
Qed.

Lemma all_bytes_of_binary (s : str) :
  single_byte s = true ->
  omap (byte_at (binary_of s)) (seq 0 ((length (binary_of s) - 0 + (8 - 1)) / 8)) = s.
Proof.
  intros Hs.
  replace ((length (binary_of s) - 0 + (8 - 1)) / 8)%nat with (length s).
  - pose proof (bytes_of_binary s [] [] 0 Hs eq_refl) as H.
    cbn [app] in H. by rewrite app_nil_r in H.
  - rewrite binary_of_length by done.
    apply Nat.div_unique with (r := 7%nat); lia.
Qed.

(** On the bits of a message of single-byte characters the self-check
    says yes exactly when the appended delimiter is the first one. *)
Lemma verify_value_verdict (m : str) (rest : bitstring) :
  single_byte m = true ->
  verify_value (take ((length m + 3) * 8) (binary_of (m ++ delimiter) ++ rest)) m
  = no_early_delimiter m.
Proof.
  intros Hsb.
  assert (Hs : single_byte (m ++ delimiter) = true)
    by (rewrite single_byte_app, Hsb; reflexivity).
  rewrite take_app_length' by (by rewrite binary_message_length).
  unfold verify_value. rewrite (all_bytes_of_binary _ Hs).
  destruct (no_early_delimiter m) eqn:Hned.
  - pose proof (scan_first (m ++ delimiter) [] []) as Hscan.
    rewrite app_nil_r in Hscan. rewrite Hscan.
    + cbn [fst app]. rewrite drop_last3_delimiter.
      pose proof (str_contains_app m delimiter []) as Hc.
      rewrite app_nil_r in Hc. rewrite Hc. by apply str_eqb_eq.
    + by destruct m.
    + intros k Hk. cbn [app length] in *. rewrite length_app in Hk. simpl in Hk.
      apply no_early_delimiter_prefix; [done|lia].
    + apply endswith_delimiter_app.
  - destruct (no_early_delimiter_false m Hned) as (k & Hk & Hend).
    destruct (scan_spec (m ++ delimiter) []) as (j & Hj & Hfst & Hearly & Hsnd).
    cbn [app] in *. rewrite Hfst.
    assert (Hk3 : (3 <= k)%nat).
    { apply endswith_delimiter_length in Hend.
      rewrite length_take in Hend. lia. }
    assert (Hjk : (j <= k)%nat).
    { destruct (Nat.le_gt_cases j k); [done|].
      rewrite Hearly in Hend by lia. discriminate. }
    assert (Hlen : length (m ++ delimiter) = (length m + 3)%nat)
      by (rewrite length_app; reflexivity).
    destruct (snd (scan (m ++ delimiter) [])) as [r|]; [|lia].
    destruct Hsnd as (_ & Hendj & _).
    apply endswith_delimiter_length in Hendj.
    destruct (str_contains (take j (m ++ delimiter)) delimiter); [|reflexivity].
    destruct (str_eqb (drop_last3 (take j (m ++ delimiter))) m) eqn:Heq;
      [|reflexivity].
    apply str_eqb_length in Heq. unfold drop_last3 in Heq.
    rewrite !length_take in *. lia.
Qed.

(** The whole run of [encode_image] on a message that fits: the self-check
    prints nothing, so every printed line is known. *)
Lemma encode_image_fits_run (png_size : Image -> N) (w : world)
    (image_path output_path : string) (message : str) (f : file) (im : Image) :
  files w !! image_path = Some f ->
  f_image f = Some im ->
  well_formed im = true ->
  (length (binary_of (message ++ delimiter)) <= img_width im * img_height im * 3)%nat ->
  let E := encoded_image_of im message in
  let out := stdout (world_at_self_check w im message) in
  let v := verify_value (take ((length message + 3) * 8) (lsb_stream (img_data E)))
                        message in
  encode_image png_size image_path message output_path w =
  if decide (output_path ∈ readonly w) then
    (inr false,
     mkWorld (files w) (readonly w) (heap w ++ carrier_objects im ++ [E; E])
             (out ++ [PEncodeError OSError]))
  else
    (inr true,
     mkWorld (<[output_path := mkFile (Some E) (png_size E)]> (files w)) (readonly w)
             (heap w ++ carrier_objects im ++ [E; E])
             (out ++ [PModified (pixels_for (length (binary_of (message ++ delimiter))));
                      PSaved; if v then PVerified else PVerifyWarning])).
Proof.
  intros Hf Him Hwf Hfit E out v.
  destruct (encode_image_fits png_size w image_path output_path message f im
              Hf Him Hwf Hfit) as (v' & o & Hv & Hrun).
  rewrite (verify_encoding_value _ _ E) in Hv.
  - assert (Hv' : v' = v)
      by (apply (f_equal fst) in Hv; cbn [fst] in Hv; by injection Hv).
    assert (Ho : o = out).
    { apply (f_equal (fun x => stdout (snd x))) in Hv. symmetry. exact Hv. }
    rewrite Hrun. subst v' o. reflexivity.
  - cbn [heap]. rewrite app_assoc. apply lookup_app_length.
  - by apply encoded_image_data_length.
Qed.

Lemma last_three {A} (l : list A) (a b c : A) : last (l ++ [a; b; c]) = Some c.
Proof. change (l ++ [a; b; c]) with (l ++ [a; b] ++ [c]). by rewrite app_assoc, last_snoc. Qed.

(** X1. The self-check of [encode_image] is exact on single-byte messages
    that fit, whatever their length: the encoder ends with "Verification
    successful" when the message neither contains ["###"] nor ends with
    ['#'], and with the warning otherwise; it returns [True] in both
    cases. *)
Theorem self_check_verdict (png_size : Image -> N) (w : world)
    (image_path output_path : string) (message : str) (f : file) (im : Image) :
  files w !! image_path = Some f ->
  f_image f = Some im ->
  well_formed im = true ->
  single_byte message = true ->
  Z.of_nat (length message) <= usable_characters (img_width im) (img_height im) ->
  output_path ∉ readonly w ->
  let r := encode_image png_size image_path message output_path w in
  fst r = inr true /\
  last (stdout (snd r))
  = Some (if no_early_delimiter message then PVerified else PVerifyWarning).
Proof.
  intros Hf Him Hwf Hsb Hcap Hro r.
  pose proof (fits_of_usable message _ _ Hsb Hcap) as Hfit.
  pose proof (encode_image_fits_run png_size w image_path output_path message f im
                Hf Him Hwf Hfit) as Hrun.
  cbv zeta in Hrun.
  destruct (encoded_image_stream im message Hwf Hfit) as [rest Hrest].
  rewrite Hrest, (verify_value_verdict message rest Hsb) in Hrun.
  destruct (decide (output_path ∈ readonly w)) as [|_]; [done|].
  subst r. rewrite Hrun. cbn [fst snd stdout]. split; [reflexivity|].
  apply last_three.
Qed.

Lemma self_check_verdict_witness :
  let r := encode_image raw_size "in.png" (py "a###b") "out.png" demo_world in
  fst r = inr true /\ last (stdout (snd r)) = Some PVerifyWarning.
Proof.
  apply (self_check_verdict raw_size demo_world "in.png" "out.png" (py "a###b")
           demo_file demo_image).
  - reflexivity.
  - reflexivity.
  - reflexivity.
  - reflexivity.
  - vm_compute. discriminate.
  - vm_compute. set_solver.
Defined.

(** ** The self-check and the cap of the decoder *)

Lemma scan_before_delimiter (m : str) (n : nat) :
  no_early_delimiter m = true ->
  (n < length m + 3)%nat ->
  scan (take n (m ++ delimiter)) [] = (take n (m ++ delimiter), None).
Proof.
  intros Hned Hn.
  assert (Hlen : length (take n (m ++ delimiter)) = n).
  { rewrite length_take, length_app. simpl. lia. }
  destruct (scan_spec (take n (m ++ delimiter)) []) as (j & Hj & Hfst & _ & Hsnd).
  cbn [app] in *. rewrite Hlen in Hj.
  destruct (scan (take n (m ++ delimiter)) []) as [d found]. cbn [fst snd] in *.
  destruct found as [r|].
  - destruct Hsnd as (_ & Hend & _). rewrite take_take in Hend.
    rewrite (no_early_delimiter_prefix m (min j n) Hned) in Hend by lia.
    discriminate.
  - destruct Hsnd as [-> _]. rewrite Hfst, Hlen. f_equal.
    apply take_ge. lia.
Qed.

(** Of an encoded string of 6,250 characters or more the decoder scans
    the first 6,250. *)
Lemma scanned_chars_capped (s : str) (rest : bitstring) :
  single_byte s = true ->
  (Z.to_nat 6250 <= length s)%nat ->
  scanned_chars (binary_of s ++ rest) = take (Z.to_nat 6250) s.
Proof.
  assert (Hn : (8 * Z.to_nat 6250 = Z.to_nat 50000)%nat) by lia.
  assert (Hcap : forall bd, (length (scanned_chars bd) <= Z.to_nat 6250)%nat)
    by apply scanned_chars_length.
  revert Hn Hcap. generalize (Z.to_nat 6250). intros n Hn Hcap Hs Hlen.
  assert (Hs' : single_byte (take n s) = true).
  { rewrite <- (take_drop n s), single_byte_app in Hs.
    by apply andb_prop in Hs as [? _]. }
  assert (Hsplit : binary_of s ++ rest
                   = binary_of (take n s) ++ (binary_of (drop n s) ++ rest)).
  { by rewrite app_assoc, <- binary_of_app, take_drop. }
  etransitivity; [exact (f_equal scanned_chars Hsplit)|].
  assert (Hl : @length char (take n s) = n) by (rewrite length_take; lia).
  destruct (scanned_chars_prefix (take n s) (binary_of (drop n s) ++ rest) Hs')
    as [more Hmore]; [lia|].
  pose proof (Hcap (binary_of (take n s) ++ (binary_of (drop n s) ++ rest))) as Hle.
  rewrite Hmore, length_app, Hl in Hle.
  rewrite Hmore. destruct more as [|c more]; [apply app_nil_r|].
  cbn [length] in Hle. lia.
Qed.

Lemma fallback_value_length (d r : str) :
  fallback_value d = Some r -> (length r <= length d)%nat.
Proof.
  unfold fallback_value.
  match goal with |- context [if ?b then _ else _] => destruct b end; [|discriminate].
  intros [= <-]. apply length_filter.
Qed.

(** X2. The self-check does not know the decoder's cap: a single-byte
    message of more than 6,250 characters whose delimiter is the first one
    is written with "Verification successful", and [decode_image] on the
    written file does not return it: it returns the fallback on the first
    6,250 characters of the message. *)
Theorem self_check_ignores_cap (png_size : Image -> N) (w : world)
    (image_path output_path : string) (message : str) (f : file) (im : Image) :
  files w !! image_path = Some f ->
  f_image f = Some im ->
  well_formed im = true ->
  single_byte message = true ->
  no_early_delimiter message = true ->
  (Z.to_nat 6250 < length message)%nat ->
  Z.of_nat (length message) <= usable_characters (img_width im) (img_height im) ->
  output_path ∉ readonly w ->
  let r := encode_image png_size image_path message output_path w in
  fst r = inr true /\
  last (stdout (snd r)) = Some PVerified /\
  fst (decode_image output_path (snd r))
  = inr (fallback_value (take (Z.to_nat 6250) message)) /\
  fst (decode_image output_path (snd r)) <> inr (Some message).
Proof.
  intros Hf Him Hwf Hsb Hned Hlong Hcap Hro r.
  pose proof (fits_of_usable message _ _ Hsb Hcap) as Hfit.
  assert (Hs : single_byte (message ++ delimiter) = true)
    by (rewrite single_byte_app, Hsb; reflexivity).
  destruct (decode_after_encode png_size w image_path output_path message f im
              Hf Him Hwf Hfit Hro) as (Hok & _ & Hdec).
  fold r in Hok, Hdec.
  pose proof (encode_image_fits_run png_size w image_path output_path message f im
                Hf Him Hwf Hfit) as Hrun.
  cbv zeta in Hrun.
  destruct (encoded_image_stream im message Hwf Hfit) as [rest Hrest].
  rewrite Hrest in Hrun, Hdec.
  rewrite (verify_value_verdict message rest Hsb), Hned in Hrun.
  destruct (decide (output_path ∈ readonly w)) as [|_]; [done|].
  assert (Hvalue : decode_bits (binary_of (message ++ delimiter) ++ rest)
                   = fallback_value (take (Z.to_nat 6250) message)).
  { unfold decode_bits.
    destruct (Nat.ltb_spec (length (binary_of (message ++ delimiter) ++ rest)) 8)
      as [Hlt|_].
    { rewrite length_app, binary_message_length in Hlt by done. lia. }
    rewrite (scanned_chars_capped _ rest Hs)
      by (rewrite length_app; simpl; lia).
    rewrite (scan_before_delimiter message (Z.to_nat 6250) Hned) by lia.
    by rewrite take_app_le by lia. }
  split; [exact Hok|]. split; [|split].
  - subst r. rewrite Hrun. cbn [snd stdout]. apply last_three.
  - by rewrite Hdec, Hvalue.
  - rewrite Hdec, Hvalue. intros [= Heq].
    apply fallback_value_length in Heq. rewrite length_take in Heq. lia.
Qed.

(** A message without ['#'] has no early delimiter. *)
Lemma no_hash_no_early_delimiter (m : str) :
  Forall (fun c => c <> hash) m -> no_early_delimiter m = true.
Proof.
  intros Hall. unfold no_early_delimiter. apply forallb_forall. intros k Hk.
  apply in_seq in Hk. apply negb_true_iff.
  destruct (endswith_delimiter (take k (m ++ delimiter))) eqn:Hend; [exfalso|done].
  pose proof (endswith_delimiter_length _ Hend) as H3.
  pose proof (endswith_delimiter_split _ Hend) as Hsplit.
  assert (Hlen : length (take k (m ++ delimiter)) = k).
  { rewrite length_take, length_app. simpl. lia. }
  rewrite Hlen in H3.
  assert (Hk3 : take k (m ++ delimiter) !! (k - 3)%nat = Some hash).
  { rewrite Hsplit. unfold drop_last3. rewrite Hlen.
    rewrite lookup_app_r by (rewrite length_take; lia).
    rewrite length_take, Hlen. by replace (k - 3 - (k - 3) `min` k)%nat with 0%nat by lia. }
  rewrite lookup_take_lt, lookup_app_l in Hk3 by lia.
  rewrite Forall_forall in Hall. apply (Hall hash); [|reflexivity].
  by eapply list_elem_of_lookup_2.
Qed.

Lemma self_check_ignores_cap_witness :
  let r := encode_image raw_size "wide.png" long_message "out.png" wide_world in
  fst r = inr true /\
  last (stdout (snd r)) = Some PVerified /\
  fst (decode_image "out.png" (snd r))
  = inr (fallback_value (take (Z.to_nat 6250) long_message)) /\
  fst (decode_image "out.png" (snd r)) <> inr (Some long_message).
Proof.
  apply (self_check_ignores_cap raw_size wide_world "wide.png" "out.png" long_message
           wide_file wide_image).
  - reflexivity.
  - reflexivity.
  - apply wide_image_well_formed.
  - by apply forallb_replicate.
  - apply no_hash_no_early_delimiter, Forall_replicate. discriminate.
  - unfold long_message. rewrite length_replicate. lia.
  - unfold long_message, usable_characters, wide_image.
    cbn [img_width img_height]. rewrite length_replicate.
    change (Z.to_nat 16678 * 1 * 3 / 8)%nat with (Z.to_nat 6254). lia.
  - apply not_elem_of_empty.
Defined.

(** ** What the written image looks like *)

Lemma set_lsb_div2 (v : Z) (b : bool) : set_lsb v b / 2 = v / 2.
Proof.
  unfold set_lsb. change 2 with (2 ^ 1).
  rewrite <- !Z.shiftr_div_pow2 by lia.
  rewrite Z.shiftr_lor, Z.shiftr_land.
  change (Z.shiftr (Z.lnot 1) 1) with (-1).
  rewrite Z.land_m1_r.
  replace (Z.shiftr (int_of_bit b) 1) with 0 by (by destruct b).
  apply Z.lor_0_r.
Qed.

Lemma band_ok_set_lsb (v : Z) (b : bool) :
  band_ok v = true -> band_ok (set_lsb v b) = true.
Proof.
  unfold band_ok. intros [H0 H1]%andb_prop.
  apply Z.leb_le in H0, H1.
  pose proof (set_lsb_div2 v b) as Hd.
  pose proof (Z.div_mod v 2 ltac:(lia)). pose proof (Z.mod_pos_bound v 2 ltac:(lia)).
  pose proof (Z.div_mod (set_lsb v b) 2 ltac:(lia)).
  pose proof (Z.mod_pos_bound (set_lsb v b) 2 ltac:(lia)).
  apply andb_true_intro. split; apply Z.leb_le; lia.
Qed.

Lemma write_lsbs_upper (bits : bitstring) (cs : list Z) :
  Forall2 (fun c d => c / 2 = d / 2) (write_lsbs bits cs) cs.
Proof.
  revert bits. induction cs as [|c cs IH]; intros bits.
  - destruct bits; constructor.
  - destruct bits as [|b bits]; cbn [write_lsbs].
    + apply Forall2_same_length_lookup_2; [reflexivity|]. intros i x y Hx Hy. congruence.
    + constructor; [apply set_lsb_div2|apply IH].
Qed.

Lemma same_upper_bits_refl (p : pixel_value) : same_upper_bits p p.
Proof.
  destruct p as [v|cs]; cbn [same_upper_bits]; [reflexivity|].
  apply Forall2_same_length_lookup_2; [reflexivity|]. intros i x y Hx Hy. congruence.
Qed.

Lemma embed_upper (bits : bitstring) (px : list pixel_value) :
  Forall2 same_upper_bits (embed bits px) px.
Proof.
  revert bits. induction px as [|p px IH]; intros bits; [constructor|].
  destruct bits as [|b bits]; cbn [embed].
  - constructor; [apply same_upper_bits_refl|].
    apply Forall2_same_length_lookup_2; [reflexivity|].
    intros i x y Hx Hy. replace y with x by congruence. apply same_upper_bits_refl.
  - constructor; [|apply IH].
    destruct p as [v|cs]; cbn [same_upper_bits]; [reflexivity|apply write_lsbs_upper].
Qed.

Lemma write_lsbs_pixel_ok (bits : bitstring) (cs : list Z) :
  pixel_ok RGB (PTuple cs) = true -> pixel_ok RGB (PTuple (write_lsbs bits cs)) = true.
Proof.
  destruct cs as [|r [|g [|b [|a cs]]]]; cbn [pixel_ok]; try discriminate.
  intros [[Hr Hg]%andb_prop Hb]%andb_prop.
  assert (Hnil : forall bs, write_lsbs bs (@nil Z) = []) by (by intros []).
  destruct bits as [|b0 [|b1 [|b2 bits]]]; cbn [write_lsbs pixel_ok]; rewrite ?Hnil;
    rewrite ?band_ok_set_lsb by done; by rewrite ?Hr, ?Hg, ?Hb.
Qed.

Lemma embed_pixel_ok (bits : bitstring) (px : list pixel_value) :
  forallb (pixel_ok RGB) px = true -> forallb (pixel_ok RGB) (embed bits px) = true.
Proof.
  revert bits. induction px as [|p px IH]; intros bits Hok; [reflexivity|].
  cbn [forallb] in Hok. apply andb_prop in Hok as [Hp Hpx].
  destruct bits as [|b bits]; cbn [embed forallb].
  - by rewrite Hp, Hpx.
  - rewrite IH by done. rewrite andb_true_r.
    destruct p as [v|cs]; [done|]. by apply write_lsbs_pixel_ok.
Qed.

Lemma rgb_of_pixel_ok (m : mode) (p : pixel_value) :
  pixel_ok m p = true -> pixel_ok RGB (rgb_of_pixel p) = true.
Proof.
  destruct m, p as [v|[|r [|g [|b [|a [|x cs]]]]]]; cbn [pixel_ok rgb_of_pixel take];
    try discriminate; try done.
  - intros H. by rewrite H.
  - by intros [H _]%andb_prop.
Qed.

Lemma convert_RGB_well_formed (im : Image) :
  well_formed im = true -> well_formed (convert_RGB im) = true.
Proof.
  intros Hwf. pose proof (well_formed_length im Hwf) as Hlen.
  unfold well_formed in *. apply andb_prop in Hwf as [_ Hok].
  cbn [convert_RGB img_data img_width img_height img_mode].
  rewrite length_map, Hlen, Nat.eqb_refl. cbn [andb].
  rewrite forallb_forall in *. intros p [q [<- Hq]]%in_map_iff.
  eapply rgb_of_pixel_ok, Hok, Hq.
Qed.

Lemma encoded_image_well_formed (im : Image) (message : str) :
  well_formed im = true -> well_formed (encoded_image_of im message) = true.
Proof.
  intros Hwf. pose proof (convert_RGB_well_formed im Hwf) as Hc.
  pose proof (well_formed_length im Hwf) as Hlen.
  unfold well_formed in *. apply andb_prop in Hc as [_ Hok].
  cbn [convert_RGB encoded_image_of img_data img_width img_height img_mode] in *.
  rewrite embed_length, length_map, Hlen, Nat.eqb_refl. cbn [andb].
  by apply embed_pixel_ok.
Qed.

(** X3. The image [encode_image] writes is a well-formed RGB image of the
    carrier's size; compared with the carrier converted to RGB, every band
    of every pixel keeps all its bits above the lowest one, and the pixels
    after the first [ceil(bits / 3)] are not changed at all.  This holds for
    carriers of every mode and for every message that fits. *)
Theorem written_image_differs_in_low_bits (png_size : Image -> N) (w : world)
    (image_path output_path : string) (message : str) (f : file) (im : Image) :
  files w !! image_path = Some f ->
  f_image f = Some im ->
  well_formed im = true ->
  (length (binary_of (message ++ delimiter)) <= img_width im * img_height im * 3)%nat ->
  output_path ∉ readonly w ->
  let r := encode_image png_size image_path message output_path w in
  let n := pixels_for (length (binary_of (message ++ delimiter))) in
  exists written,
    files (snd r) !! output_path = Some (mkFile (Some written) (png_size written)) /\
    well_formed written = true /\
    img_mode written = RGB /\
    img_width written = img_width im /\
    img_height written = img_height im /\
    Forall2 same_upper_bits (img_data written) (img_data (convert_RGB im)) /\
    drop n (img_data written) = drop n (img_data (convert_RGB im)).
Proof.
  intros Hf Him Hwf Hfit Hro r n.
  destruct (decode_after_encode png_size w image_path output_path message f im
              Hf Him Hwf Hfit Hro) as (_ & Hfile & _).
  exists (encoded_image_of im message). split; [exact Hfile|].
  split; [by apply encoded_image_well_formed|].
  repeat split.
  - apply embed_upper.
  - unfold encoded_image_of, convert_RGB. cbn [img_data].
    apply embed_drop_ge. subst n. unfold pixels_for.
    pose proof (Nat.mul_succ_div_gt
                  (length (binary_of (message ++ delimiter)) + 2) 3 ltac:(lia)).
    lia.
Qed.

Lemma written_image_differs_in_low_bits_witness :
  let r := encode_image raw_size "in.png" (py "hi") "out.png" demo_world in
  exists written,
    files (snd r) !! "out.png"%string = Some (mkFile (Some written) (raw_size written)) /\
    well_formed written = true /\
    img_mode written = RGB /\
    img_width written = 10%nat /\
    img_height written = 10%nat /\
    Forall2 same_upper_bits (img_data written) (img_data (convert_RGB demo_image)) /\
    drop 14 (img_data written) = drop 14 (img_data (convert_RGB demo_image)).
Proof.
  apply (written_image_differs_in_low_bits raw_size demo_world "in.png" "out.png"
           (py "hi") demo_file demo_image).
  - reflexivity.
  - reflexivity.
  - reflexivity.
  - vm_compute. lia.
  - vm_compute. set_solver.
Defined.

(** ** Encoding twice *)

Lemma set_lsb_str_lsb (v : Z) : set_lsb v (str_lsb v) = v.
Proof.
  apply set_lsb_same. unfold str_lsb.
  destruct (Z.eqb_spec (Z.land v 1) 0) as [H0|H0]; [exact H0|].
  cbn [negb int_of_bit].
  pose proof (Z.land_ones v 1 ltac:(lia)) as Hm.
  change (Z.ones 1) with 1 in Hm. change (2 ^ 1) with 2 in Hm.
  pose proof (Z.mod_pos_bound v 2 ltac:(lia)). lia.
Qed.

(** Pixels that carry the bits already are written back as they are. *)
Lemma embed_same (bits : bitstring) (px : list pixel_value) :
  forallb is_rgb px = true ->
  take (length bits) (lsb_stream px) = bits ->
  embed bits px = px.
Proof.
  revert bits. induction px as [|p px IH]; intros bits Hrgb Hbits; [reflexivity|].
  cbn [forallb] in Hrgb. apply andb_prop in Hrgb as [Hp Hrgb].
  destruct (is_rgb_inv p Hp) as (r & g & b & ->).
  destruct bits as [|b0 bits]; [reflexivity|].
  change (lsb_stream (PTuple [r; g; b] :: px))
    with (str_lsb r :: str_lsb g :: str_lsb b :: lsb_stream px) in Hbits.
  destruct bits as [|b1 [|b2 bits]]; cbn [length take] in Hbits.
  - injection Hbits as <-. cbn [embed take drop write_lsbs].
    by rewrite set_lsb_str_lsb, embed_nil.
  - injection Hbits as <- <-. cbn [embed take drop write_lsbs].
    by rewrite !set_lsb_str_lsb, embed_nil.
  - injection Hbits as <- <- <- Hbits. cbn [embed take drop write_lsbs].
    rewrite ?take_0. cbn [write_lsbs]. rewrite !set_lsb_str_lsb. f_equal. by apply IH.
Qed.

(** X4. Encoding a message into an RGB image that carries it already
    writes an image identical to the carrier, pixel for pixel; the encoder
    nevertheless prints [ceil(bits / 3)], at least 8, as the number of
    modified pixels: it counts the pixels it has written to, not the pixels
    it has changed. *)
Theorem reencoding_changes_no_pixel (png_size : Image -> N) (w : world)
    (image_path output_path : string) (message : str) (f : file) (im : Image) :
  files w !! image_path = Some f ->
  f_image f = Some im ->
  well_formed im = true ->
  img_mode im = RGB ->
  (length (binary_of (message ++ delimiter)) <= img_width im * img_height im * 3)%nat ->
  take (length (binary_of (message ++ delimiter))) (lsb_stream (img_data im))
  = binary_of (message ++ delimiter) ->
  output_path ∉ readonly w ->
  let r := encode_image png_size image_path message output_path w in
  let n := pixels_for (length (binary_of (message ++ delimiter))) in
  fst r = inr true /\
  files (snd r) !! output_path = Some (mkFile (Some im) (png_size im)) /\
  (exists o verdict, stdout (snd r) = o ++ [PModified n; PSaved; verdict]) /\
  (8 <= n)%nat.
Proof.
  intros Hf Him Hwf Hmode Hfit Hcarries Hro r n.
  assert (Hsame : encoded_image_of im message = im).
  { unfold encoded_image_of. rewrite rgb_data_id by done.
    rewrite embed_same; [destruct im; simpl in *; by subst| |done].
    rewrite <- (rgb_data_id im Hmode Hwf). by apply well_formed_rgb. }
  destruct (decode_after_encode png_size w image_path output_path message f im
              Hf Him Hwf Hfit Hro) as (Hok & Hfile & _).
  destruct (self_check_outcome png_size w image_path output_path message f im
              Hf Him Hwf Hfit Hro) as (o & verdict & Hout).
  rewrite Hsame in Hfile.
  split; [exact Hok|]. split; [exact Hfile|]. split; [by exists o, verdict|].
  subst n. unfold pixels_for.
  pose proof (binary_of_length_ge (message ++ delimiter)) as Hge.
  rewrite length_app in Hge. cbn [length delimiter] in Hge.
  apply Nat.div_le_lower_bound; lia.
Qed.

Lemma reencoding_changes_no_pixel_witness :
  let r := encode_image raw_size "hi.png" (py "hi") "out.png" stamped_world in
  fst r = inr true /\
  files (snd r) !! "out.png"%string = Some (mkFile (Some stamped_image) (raw_size stamped_image)) /\
  (exists o verdict, stdout (snd r) = o ++ [PModified 14; PSaved; verdict]) /\
  (8 <= 14)%nat.
Proof.
  apply (reencoding_changes_no_pixel raw_size stamped_world "hi.png" "out.png" (py "hi")
           stamped_file stamped_image).
  - reflexivity.
  - reflexivity.
  - reflexivity.
  - reflexivity.
  - vm_compute. lia.
  - reflexivity.
  - apply not_elem_of_empty.
Defined.

(** X5. A second message encoded into the written image replaces the
    first: whatever the first message was, decoding the second output
    returns the second message (under the conditions of the round trip for
    the second message only). *)
Theorem second_message_replaces_first (png_size : Image -> N) (w : world)
    (image_path first_path second_path : string) (first second : str)
    (f : file) (im : Image) :
  files w !! image_path = Some f ->
  f_image f = Some im ->
  well_formed im = true ->
  (length (binary_of (first ++ delimiter)) <= img_width im * img_height im * 3)%nat ->
  single_byte second = true ->
  no_early_delimiter second = true ->
  ((length second + 3) * 8 <= Z.to_nat 50000)%nat ->
  Z.of_nat (length second) <= usable_characters (img_width im) (img_height im) ->
  first_path ∉ readonly w ->
  second_path ∉ readonly w ->
  let r1 := encode_image png_size image_path first first_path w in
  let r2 := encode_image png_size first_path second second_path (snd r1) in
  fst r1 = inr true /\
  fst r2 = inr true /\
  fst (decode_image second_path (snd r2)) = inr (Some second).
Proof.
  intros Hf Him Hwf Hfit1 Hsb Hned Hcap Huse Hro1 Hro2 r1 r2.
  destruct (decode_after_encode png_size w image_path first_path first f im
              Hf Him Hwf Hfit1 Hro1) as (Hok1 & Hfile1 & _).
  fold r1 in Hok1, Hfile1.
  assert (Hro : readonly (snd r1) = readonly w).
  { subst r1.
    rewrite (encode_image_fits_run png_size w image_path first_path first f im
               Hf Him Hwf Hfit1).
    by destruct (decide (first_path ∈ readonly w)). }
  pose proof (encoded_image_well_formed im first Hwf) as Hwf1.
  assert (Hfit2 : (length (binary_of (second ++ delimiter))
                   <= img_width (encoded_image_of im first)
                      * img_height (encoded_image_of im first) * 3)%nat)
    by (by apply fits_of_usable).
  destruct (decode_after_encode png_size (snd r1) first_path second_path second _ _
              Hfile1 eq_refl Hwf1 Hfit2) as (Hok2 & _ & Hdec).
  { by rewrite Hro. }
  fold r2 in Hok2, Hdec.
  split; [exact Hok1|]. split; [exact Hok2|].
  rewrite Hdec.
  destruct (encoded_image_stream _ second Hwf1 Hfit2) as [rest ->].
  f_equal. by apply decode_bits_roundtrip.
Qed.

Lemma second_message_replaces_first_witness :
  let r1 := encode_image raw_size "in.png" (py "first message") "one.png" demo_world in
  let r2 := encode_image raw_size "one.png" (py "hi") "two.png" (snd r1) in
  fst r1 = inr true /\
  fst r2 = inr true /\
  fst (decode_image "two.png" (snd r2)) = inr (Some (py "hi")).
Proof.
  apply (second_message_replaces_first raw_size demo_world "in.png" "one.png" "two.png"
           (py "first message") (py "hi") demo_file demo_image).
  - reflexivity.
  - reflexivity.
  - reflexivity.
  - vm_compute. lia.
  - reflexivity.
  - reflexivity.
  - change (length (py "hi")) with 2%nat. lia.
  - vm_compute. discriminate.
  - apply not_elem_of_empty.
  - apply not_elem_of_empty.
Defined.

(** ** The empty message *)

(** X6. The empty message is encoded as the delimiter alone: on a carrier
    of at least 8 pixels [encode_image] succeeds with "Verification
    successful" and [decode_image] returns the empty string, not [None]; on
    a smaller carrier the encoder refuses and writes no file. *)
Theorem empty_message_round_trip (png_size : Image -> N) (w : world)
    (image_path output_path : string) (f : file) (im : Image) :
  files w !! image_path = Some f ->
  f_image f = Some im ->
  well_formed im = true ->
  output_path ∉ readonly w ->
  let r := encode_image png_size image_path [] output_path w in
  if (8 <=? img_width im * img_height im)%nat then
    fst r = inr true /\
    last (stdout (snd r)) = Some PVerified /\
    fst (decode_image output_path (snd r)) = inr (Some [])
  else
    fst r = inr false /\ files (snd r) = files w.
Proof.
  intros Hf Him Hwf Hro r.
  assert (Hbits : length (binary_of ([] ++ delimiter)) = 24%nat) by reflexivity.
  destruct (Nat.leb_spec 8 (img_width im * img_height im)) as [Hbig|Hsmall].
  - assert (Hfit : (length (binary_of ([] ++ delimiter))
                    <= img_width im * img_height im * 3)%nat) by (rewrite Hbits; lia).
    destruct (decode_after_encode png_size w image_path output_path [] f im
                Hf Him Hwf Hfit Hro) as (Hok & _ & Hdec).
    fold r in Hok, Hdec.
    pose proof (encode_image_fits_run png_size w image_path output_path [] f im
                  Hf Him Hwf Hfit) as Hrun.
    cbv zeta in Hrun.
    destruct (encoded_image_stream im [] Hwf Hfit) as [rest Hrest].
    rewrite Hrest in Hrun, Hdec.
    rewrite (verify_value_verdict [] rest eq_refl) in Hrun.
    destruct (decide (output_path ∈ readonly w)) as [|_]; [done|].
    split; [exact Hok|]. split.
    + subst r. rewrite Hrun. cbn [snd stdout]. apply last_three.
    + rewrite Hdec. f_equal. apply decode_bits_roundtrip; [reflexivity|reflexivity|].
      simpl. lia.
  - subst r.
    rewrite (encode_image_too_large png_size w image_path output_path [] f im
               Hf Him Hwf) by (rewrite Hbits; lia).
    split; reflexivity.
Qed.

Lemma empty_message_round_trip_witness :
  let r := encode_image raw_size "in.png" [] "out.png" demo_world in
  fst r = inr true /\
  last (stdout (snd r)) = Some PVerified /\
  fst (decode_image "out.png" (snd r)) = inr (Some []).
Proof.
  apply (empty_message_round_trip raw_size demo_world "in.png" "out.png"
           demo_file demo_image).
  - reflexivity.
  - reflexivity.
  - reflexivity.
  - apply not_elem_of_empty.
Defined.

(** ** The analyzer and the encoder *)

(** X7. [analyze_image_capacity] predicts [encode_image]: for a readable
    carrier and a message of single-byte characters, the encoder returns
    [True] exactly when the message has at most [max_characters]
    characters, the number the analyzer reports for the same file. *)
Theorem analyzer_predicts_encoder (png_size : Image -> N) (w : world)
    (image_path output_path : string) (message : str) (f : file) (im : Image) :
  files w !! image_path = Some f ->
  f_image f = Some im ->
  well_formed im = true ->
  single_byte message = true ->
  output_path ∉ readonly w ->
  exists info,
    fst (analyze_image_capacity image_path w) = inr (Some info) /\
    fst (encode_image png_size image_path message output_path w)
    = inr (Z.of_nat (length message) <=? max_characters info).
Proof.
  intros Hf Him Hwf Hsb Hro. eexists.
  split; [by apply (analyze_image_capacity_run w image_path f im)|].
  cbn [max_characters].
  destruct (Z.leb_spec (Z.of_nat (length message))
              (usable_characters (img_width im) (img_height im))) as [Hle|Hgt].
  - pose proof (fits_of_usable message _ _ Hsb Hle) as Hfit.
    by destruct (decode_after_encode png_size w image_path output_path message f im
                   Hf Him Hwf Hfit Hro) as (Hok & _).
  - pose proof (too_long_of_usable message _ _ Hgt) as Hbig.
    by rewrite (encode_image_too_large png_size w image_path output_path message f im
                  Hf Him Hwf Hbig).
Qed.

Lemma analyzer_predicts_encoder_witness :
  exists info,
    fst (analyze_image_capacity "in.png" demo_world) = inr (Some info) /\
    fst (encode_image raw_size "in.png" (py "hi") "out.png" demo_world)
    = inr (Z.of_nat (length (py "hi")) <=? max_characters info).
Proof.
  apply (analyzer_predicts_encoder raw_size demo_world "in.png" "out.png" (py "hi")
           demo_file demo_image).
  - reflexivity.
  - reflexivity.
  - reflexivity.
  - reflexivity.
  - apply not_elem_of_empty.
Defined.

(** ** An output path that cannot be written *)

(** X8. When the output file cannot be written, [encode_image] fails
    closed: the error is caught, the result is [False], the last printed
    line is the error of [save], no file is created or changed, and the
    image objects that existed before the call are unchanged. *)
Theorem unwritable_output_fails_closed (png_size : Image -> N) (w : world)
    (image_path output_path : string) (message : str) (f : file) (im : Image) :
  files w !! image_path = Some f ->
  f_image f = Some im ->
  well_formed im = true ->
  (length (binary_of (message ++ delimiter)) <= img_width im * img_height im * 3)%nat ->
  output_path ∈ readonly w ->
  let r := encode_image png_size image_path message output_path w in
  fst r = inr false /\
  last (stdout (snd r)) = Some (PEncodeError OSError) /\
  files (snd r) = files w /\
  take (length (heap w)) (heap (snd r)) = heap w.
Proof.
  intros Hf Him Hwf Hfit Hro r. subst r.
  rewrite (encode_image_fits_run png_size w image_path output_path message f im
             Hf Him Hwf Hfit).
  destruct (decide (output_path ∈ readonly w)) as [_|]; [|done].
  cbn [fst snd stdout files heap].
  split; [reflexivity|]. split; [apply last_snoc|]. split; [reflexivity|].
  apply take_app_length.
Qed.

Lemma unwritable_output_fails_closed_witness :
  let r := encode_image raw_size "in.png" (py "hi") "out.png" locked_world in
  fst r = inr false /\
  last (stdout (snd r)) = Some (PEncodeError OSError) /\
  files (snd r) = files locked_world /\
  take (length (heap locked_world)) (heap (snd r)) = heap locked_world.
Proof.
  apply (unwritable_output_fails_closed raw_size locked_world "in.png" "out.png"
           (py "hi") demo_file demo_image).
  - reflexivity.
  - reflexivity.
  - reflexivity.
  - vm_compute. lia.
  - set_solver.
Defined.

(** ** The readers write nothing *)

Lemma reads_only_refl (w : world) : reads_only w w.
Proof. repeat split. exists []. by rewrite app_nil_r. Qed.

Lemma reads_only_trans (w1 w2 w3 : world) :
  reads_only w1 w2 -> reads_only w2 w3 -> reads_only w1 w3.
Proof.
  intros (Hf1 & Hr1 & c1 & Hh1) (Hf2 & Hr2 & c2 & Hh2).
  split; [congruence|]. split; [congruence|].
  exists (c1 ++ c2). by rewrite Hh2, Hh1, app_assoc.
Qed.

Lemma reads_only_print (w : world) (o : list line) : reads_only w (set_stdout o w).
Proof. repeat split. exists []. cbn [set_stdout heap]. by rewrite app_nil_r. Qed.

Lemma reads_only_open (path : string) : respects reads_only (Image_open path).
Proof.
  intros w. unfold Image_open.
  destruct (files w !! path) as [f|]; [|apply reads_only_refl].
  destruct (f_image f) as [im|]; [|apply reads_only_refl].
  repeat split. by exists [im].
Qed.

Lemma reads_only_getsize (path : string) : respects reads_only (os_path_getsize path).
Proof.
  intros w. unfold os_path_getsize.
  destruct (files w !! path); apply reads_only_refl.
Qed.

Lemma decode_image_reads_only (image_path : string) :
  respects reads_only (decode_image image_path).
Proof.
  pose proof reads_only_refl. pose proof reads_only_trans.
  pose proof reads_only_print. pose proof reads_only_open.
  unfold decode_image, extract_row, extract_pixel, decode_byte, fallback.
  repeat first [frame_step | apply reads_only_open].
Qed.

Lemma analyze_image_capacity_reads_only (image_path : string) :
  respects reads_only (analyze_image_capacity image_path).
Proof.
  pose proof reads_only_refl. pose proof reads_only_trans.
  pose proof reads_only_print. pose proof reads_only_open.
  pose proof reads_only_getsize.
  unfold analyze_image_capacity.
  repeat first [frame_step | apply reads_only_open | apply reads_only_getsize].
Qed.

(** X9. [decode_image] and [analyze_image_capacity] only read: in every
    world and for every path, also when the file is missing or unreadable
    or a pixel cannot be read, no file is created or changed, the set of
    unwritable paths is the same, and every image object that existed
    before the call is unchanged (the opened image is a new object). *)
Theorem readers_write_nothing (image_path : string) (w : world) :
  reads_only w (snd (decode_image image_path w)) /\
  reads_only w (snd (analyze_image_capacity image_path w)).
Proof.
  split; [apply decode_image_reads_only|apply analyze_image_capacity_reads_only].
Qed.

(** ** Characters above 255 *)

Lemma byte_at_bound (bd : bitstring) (k : nat) (c : char) :
  byte_at bd k = Some c -> (c < 256)%N.
Proof.
  unfold byte_at. destruct (k * 8 + 8 <=? length bd)%nat; [|discriminate].
  intros [= <-].
  pose proof (int_base2_bound (take 8 (drop (k * 8) bd))) as Hb.
  assert (2 ^ N.of_nat (length (take 8 (drop (k * 8) bd))) <= 2 ^ 8)%N
    by (apply N.pow_le_mono_r; [lia|rewrite length_take; lia]).
  change (2 ^ 8)%N with 256%N in *. lia.
Qed.

Lemma omap_byte_at_bound (bd : bitstring) (l : list nat) :
  Forall (fun c => (c < 256)%N) (omap (byte_at bd) l).
Proof.
  induction l as [|k l IH]; [constructor|].
  cbn [omap list_omap]. destruct (byte_at bd k) as [c|] eqn:Hc; [|exact IH].
  constructor; [by apply (byte_at_bound bd k)|exact IH].
Qed.

Lemma single_byte_Forall (m : str) :
  single_byte m = true <-> Forall (fun c => (c < 256)%N) m.
Proof.
  unfold single_byte, ord. rewrite forallb_forall, Forall_forall.
  split; intros H c Hc.
  - apply N.ltb_lt, H. by apply list_elem_of_In.
  - apply N.ltb_lt, H. by apply list_elem_of_In.
Qed.

(** Whatever the search returns is made of the characters it was given. *)
Lemma scan_Forall (P : char -> Prop) (chars : str) :
  Forall P chars ->
  Forall P (fst (scan chars [])) /\
  forall r, snd (scan chars []) = Some r -> Forall P r.
Proof.
  intros Hall.
  destruct (scan_spec chars []) as (j & _ & Hfst & _ & Hsnd).
  cbn [app] in *. rewrite Hfst. split; [by apply Forall_take|].
  intros r Hr. rewrite Hr in Hsnd. destruct Hsnd as (_ & _ & ->).
  unfold drop_last3. by do 2 apply Forall_take.
Qed.

Lemma verify_value_single_byte (bd : bitstring) (m : str) :
  verify_value bd m = true -> single_byte m = true.
Proof.
  unfold verify_value.
  match goal with |- context [if ?b then _ else _] => destruct b end; [|discriminate].
  intros Heq%str_eqb_eq. rewrite <- Heq.
  apply single_byte_Forall. unfold drop_last3. apply Forall_take.
  apply scan_Forall, omap_byte_at_bound.
Qed.

Lemma decode_bits_single_byte (bd : bitstring) (m : str) :
  decode_bits bd = Some m -> single_byte m = true.
Proof.
  unfold decode_bits. destruct (length bd <? 8)%nat; [discriminate|].
  pose proof (scan_Forall (fun c => (c < 256)%N) (scanned_chars bd)
                (omap_byte_at_bound bd _)) as [Hfst Hsnd].
  destruct (scan (scanned_chars bd) []) as [d [found|]]; cbn [fst snd] in *.
  - intros [= <-]. apply single_byte_Forall. by apply Hsnd.
  - unfold fallback_value.
    match goal with |- context [if ?b then _ else _] => destruct b end; [|discriminate].
    intros [= <-]. apply single_byte_Forall.
    apply Forall_forall. intros c [_ Hc]%list_elem_of_filter.
    rewrite Forall_forall in Hfst. by apply Hfst.
Qed.

(** X10. A message with a character above 255 never comes back: when it
    fits, [encode_image] writes the file and returns [True], its self-check
    ends with the warning, and [decode_image] on the written file returns
    something else than the message ([format(ord(c), '08b')] gives more
    than 8 bits for such a character, and both readers cut the stream into
    groups of 8). *)
Theorem wide_characters_never_round_trip (png_size : Image -> N) (w : world)
    (image_path output_path : string) (message : str) (f : file) (im : Image) :
  files w !! image_path = Some f ->
  f_image f = Some im ->
  well_formed im = true ->
  single_byte message = false ->
  (length (binary_of (message ++ delimiter)) <= img_width im * img_height im * 3)%nat ->
  output_path ∉ readonly w ->
  let r := encode_image png_size image_path message output_path w in
  fst r = inr true /\
  last (stdout (snd r)) = Some PVerifyWarning /\
  fst (decode_image output_path (snd r)) <> inr (Some message).
Proof.
  intros Hf Him Hwf Hwide Hfit Hro r.
  destruct (decode_after_encode png_size w image_path output_path message f im
              Hf Him Hwf Hfit Hro) as (Hok & _ & Hdec).
  fold r in Hok, Hdec.
  pose proof (encode_image_fits_run png_size w image_path output_path message f im
                Hf Him Hwf Hfit) as Hrun.
  cbv zeta in Hrun.
  destruct (decide (output_path ∈ readonly w)) as [|_]; [done|].
  split; [exact Hok|]. split.
  - subst r. rewrite Hrun. cbn [snd stdout]. rewrite last_three.
    match goal with |- context [verify_value ?bd message] =>
      destruct (verify_value bd message) eqn:Hv end; [|reflexivity].
    apply verify_value_single_byte in Hv. congruence.
  - rewrite Hdec. intros [= Heq].
    apply decode_bits_single_byte in Heq. congruence.
Qed.

Lemma wide_characters_never_round_trip_witness :
  let r := encode_image raw_size "in.png" [960%N] "out.png" demo_world in
  fst r = inr true /\
  last (stdout (snd r)) = Some PVerifyWarning /\
  fst (decode_image "out.png" (snd r)) <> inr (Some [960%N]).
Proof.
  apply (wide_characters_never_round_trip raw_size demo_world "in.png" "out.png"
           [960%N] demo_file demo_image).
  - reflexivity.
  - reflexivity.
  - reflexivity.
  - reflexivity.
  - vm_compute. lia.
  - apply not_elem_of_empty.
Defined.

(** ** What a found message says about the image *)

(** The whole run of [decode_image] on a readable image. *)
Lemma decode_image_full_run (w : world) (image_path : string) (f : file) (im : Image) :
  files w !! image_path = Some f ->
  f_image f = Some im ->
  length (img_data im) = (img_width im * img_height im)%nat ->
  let bd := lsb_stream (img_data im) in
  decode_image image_path w =
  (inr (decode_bits bd),
   mkWorld (files w) (readonly w) (heap w ++ [im])
           (stdout w ++ PExtracted (length bd) :: decode_lines bd)).
Proof.
  intros Hf Him Hlen bd. unfold decode_image, try_except.
  rewrite (bind_run _ _ _ _ _ (Image_open_run _ _ _ _ Hf Him)).
  assert (Hobj : heap (set_heap (heap w ++ [im]) w) !! length (heap w) = Some im)
    by apply (lookup_app_length (heap w) [] im).
  rewrite (bind_run _ _ _ _ _ (image_size_run _ _ _ Hobj)). cbn [fst snd].
  rewrite (bind_run _ _ _ _ _ (extract_image_run _ _ _ Hobj Hlen)).
  erewrite bind_run by reflexivity. fold bd.
  unfold decode_bits, decode_lines.
  destruct (length bd <? 8)%nat.
  { unfold bind, print, ret, set_stdout, set_heap. cbn [files readonly heap stdout].
    by rewrite <- app_assoc. }
  unfold range3. rewrite (bind_run _ _ _ _ _ (decode_bytes_run _ _ _ _ _)).
  fold (scanned_chars bd).
  destruct (scan (scanned_chars bd) []) as [d [found|]]; cbn [fst snd].
  { reflexivity. }
  unfold fallback, fallback_value.
  match goal with
  | |- context [if ?b then _ else _] => destruct b
  end; unfold bind, print, ret, set_stdout, set_heap; cbn [files readonly heap stdout];
    by rewrite <- app_assoc.
Qed.

Lemma byte_in_range (len a : nat) :
  (a * 8 + 8 <=? len)%nat = (a <? len / 8)%nat.
Proof.
  pose proof (Nat.Div0.mul_div_le len 8).
  pose proof (Nat.mul_succ_div_gt len 8 ltac:(lia)).
  destruct (Nat.leb_spec (a * 8 + 8) len); destruct (Nat.ltb_spec a (len / 8));
    try reflexivity; lia.
Qed.

(** The bytes are read as long as 8 bits are left; nothing is read after
    the first position where they are not. *)
Lemma omap_byte_at_seq (bd : bitstring) (a n : nat) :
  omap (byte_at bd) (seq a n)
  = map (fun k => int_base2 (take 8 (drop (k * 8) bd)))
        (seq a (min n (length bd / 8 - a))).
Proof.
  revert a. induction n as [|n IH]; intros a; [reflexivity|].
  cbn [seq omap list_omap]. unfold byte_at at 1. rewrite byte_in_range.
  rewrite IH.
  destruct (Nat.ltb_spec a (length bd / 8)) as [Hlt|Hge].
  - replace (min (S n) (length bd / 8 - a)) with (S (min n (length bd / 8 - S a))) by lia.
    reflexivity.
  - replace (min n (length bd / 8 - S a)) with 0%nat by lia.
    replace (min (S n) (length bd / 8 - a)) with 0%nat by lia.
    reflexivity.
Qed.

Lemma format_08b_int_base2 (bs : bitstring) :
  length bs = 8%nat -> format_08b (int_base2 bs) = bs.
Proof.
  intros Hlen.
  destruct bs as [|b0 [|b1 [|b2 [|b3 [|b4 [|b5 [|b6 [|b7 [|b8 bs]]]]]]]]];
    try discriminate.
  destruct b0, b1, b2, b3, b4, b5, b6, b7; reflexivity.
Qed.

Lemma binary_of_bytes (bd : bitstring) (j : nat) :
  (j * 8 <= length bd)%nat ->
  binary_of (map (fun k => int_base2 (take 8 (drop (k * 8) bd))) (seq 0 j))
  = take (j * 8) bd.
Proof.
  induction j as [|j IH]; intros Hj; [by rewrite take_0|].
  rewrite seq_S, map_app, binary_of_app, IH by lia.
  cbn [map binary_of flat_map Nat.add]. rewrite app_nil_r. unfold ord.
  rewrite format_08b_int_base2 by (rewrite length_take, length_drop; lia).
  rewrite take_take_drop. f_equal. lia.
Qed.

(** The first [j] characters the decoder scans spell the first [8 j]
    bits. *)
Lemma scanned_prefix_bits (bd : bitstring) (j : nat) :
  (j <= length (scanned_chars bd))%nat ->
  binary_of (take j (scanned_chars bd)) = take (j * 8) bd.
Proof.
  unfold scanned_chars. rewrite omap_byte_at_seq, Nat.sub_0_r.
  rewrite length_map, length_seq. intros Hj.
  rewrite firstn_map, take_seq, Nat.min_l by lia.
  apply binary_of_bytes.
  pose proof (Nat.Div0.mul_div_le (length bd) 8). lia.
Qed.

Lemma scan_round_trip (m : str) (rest : bitstring) :
  single_byte m = true ->
  no_early_delimiter m = true ->
  ((length m + 3) * 8 <= Z.to_nat 50000)%nat ->
  scan (scanned_chars (binary_of (m ++ delimiter) ++ rest)) []
  = (m ++ delimiter, Some m).
Proof.
  intros Hsb Hned Hcap.
  assert (Hs : single_byte (m ++ delimiter) = true)
    by (rewrite single_byte_app, Hsb; reflexivity).
  destruct (scanned_chars_prefix (m ++ delimiter) rest Hs) as [more ->].
  { rewrite length_app. simpl. lia. }
  rewrite (scan_first (m ++ delimiter) [] more).
  - cbn [app]. by rewrite drop_last3_delimiter.
  - by destruct m.
  - intros k Hk. cbn [app length] in *. rewrite length_app in Hk. simpl in Hk.
    apply no_early_delimiter_prefix; [done|lia].
  - apply endswith_delimiter_app.
Qed.

(** X11. When [decode_image] returns a message through the delimiter (it
    prints nothing after the number of extracted bits), the message is
    what the image literally holds, and conversely: [decode_image] returns
    [m] in this way exactly when [m] is made of single-byte characters,
    the first delimiter in [m + "###"] is the appended one, these
    characters lie within the first 50,000 bits, and the low bits of the
    image begin with the 8-bit codes of [m + "###"]. *)
Theorem found_message_is_what_the_image_holds (w : world) (image_path : string)
    (f : file) (im : Image) (m : str) :
  files w !! image_path = Some f ->
  f_image f = Some im ->
  length (img_data im) = (img_width im * img_height im)%nat ->
  let bd := lsb_stream (img_data im) in
  let r := decode_image image_path w in
  (fst r = inr (Some m) /\ stdout (snd r) = stdout w ++ [PExtracted (length bd)])
  <->
  (single_byte m = true /\
   no_early_delimiter m = true /\
   ((length m + 3) * 8 <= Z.to_nat 50000)%nat /\
   take ((length m + 3) * 8) bd = binary_of (m ++ delimiter)).
Proof.
  intros Hf Him Hlen bd r. subst r.
  rewrite (decode_image_full_run w image_path f im Hf Him Hlen). fold bd.
  cbn [fst snd stdout]. split.
  - intros [Hres Hout].
    assert (Hlines : decode_lines bd = []).
    { apply app_inv_head in Hout. by injection Hout. }
    injection Hres as Hres. clear Hout.
    unfold decode_lines in Hlines. unfold decode_bits in Hres.
    destruct (length bd <? 8)%nat; [discriminate|].
    pose proof (scan_Forall (fun c => (c < 256)%N) (scanned_chars bd)
                  (omap_byte_at_bound bd _)) as [Hbytes _].
    pose proof (scanned_chars_length bd) as Hcap.
    destruct (scan_spec (scanned_chars bd) []) as (j & Hj & Hfst & Hearly & Hsnd).
    destruct (scan (scanned_chars bd) []) as [d [found|]]; cbn [fst snd app] in *;
      [|by destruct (fallback_value d)].
    injection Hres as ->. destruct Hsnd as (Hj1 & Hend & Hm). subst d.
    pose proof (endswith_delimiter_split _ Hend) as Hsplit. rewrite <- Hm in Hsplit.
    assert (Hjm : j = (length m + 3)%nat).
    { apply (f_equal length) in Hsplit.
      rewrite length_take, length_app in Hsplit. simpl in Hsplit. lia. }
    split; [|split; [|split]].
    + apply single_byte_Forall. rewrite Hsplit in Hbytes.
      by apply Forall_app in Hbytes as [? _].
    + unfold no_early_delimiter. apply forallb_forall. intros k Hk.
      apply in_seq in Hk. apply negb_true_iff.
      destruct k as [|k]; [reflexivity|].
      rewrite <- Hsplit, take_take, Nat.min_l by lia.
      apply Hearly. lia.
    + lia.
    + rewrite <- Hsplit, <- Hjm. symmetry. by apply scanned_prefix_bits.
  - intros (Hsb & Hned & Hcap & Hbits).
    pose proof (take_drop ((length m + 3) * 8) bd) as Hsplit.
    rewrite Hbits in Hsplit.
    unfold decode_bits, decode_lines. rewrite <- Hsplit.
    rewrite (scan_round_trip m _ Hsb Hned Hcap).
    destruct (Nat.ltb_spec (length (binary_of (m ++ delimiter)
                                      ++ drop ((length m + 3) * 8) bd)) 8) as [Hlt|_].
    { rewrite length_app, binary_message_length in Hlt by done. lia. }
    split; reflexivity.
Qed.

Lemma found_message_is_what_the_image_holds_witness :
  let bd := lsb_stream (img_data stamped_image) in
  let r := decode_image "hi.png" stamped_world in
  (fst r = inr (Some (py "hi")) /\
   stdout (snd r) = stdout stamped_world ++ [PExtracted (length bd)])
  <->
  (single_byte (py "hi") = true /\
   no_early_delimiter (py "hi") = true /\
   ((length (py "hi") + 3) * 8 <= Z.to_nat 50000)%nat /\
   take ((length (py "hi") + 3) * 8) bd = binary_of (py "hi" ++ delimiter)).
Proof.
  apply (found_message_is_what_the_image_holds stamped_world "hi.png" stamped_file
           stamped_image (py "hi")).
  - reflexivity.
  - reflexivity.
  - reflexivity.
Defined.

(** ** The command line *)

Lemma encode_image_returns (png_size : Image -> N) (image_path output_path : string)
    (message : str) (w : world) :
  exists ok, fst (encode_image png_size image_path message output_path w) = inr ok.
Proof.
  unfold encode_image. apply try_except_returns. intros e w'. by exists false.
Qed.

Lemma decode_image_returns (image_path : string) (w : world) :
  exists m, fst (decode_image image_path w) = inr m.
Proof.
  unfold decode_image. apply try_except_returns. intros e w'. by exists None.
Qed.


(** X13. Encoding and then decoding from the command line prints the
    message back, under the conditions of the round trip, unless the
    message is empty: the empty message is encoded and found, but
    [if message:] is false for it and nothing is printed. *)
Theorem main_round_trip (png_size : Image -> N) (lower : str -> str)
    (fsencode : str -> string) (w : world)
    (prog enc dec input output message : str) (f : file) (im : Image) :
  lower enc = py "encode" ->
  lower dec = py "decode" ->
  files w !! fsencode input = Some f ->
  f_image f = Some im ->
  well_formed im = true ->
  single_byte message = true ->
  no_early_delimiter message = true ->
  ((length message + 3) * 8 <= Z.to_nat 50000)%nat ->
  Z.of_nat (length message) <= usable_characters (img_width im) (img_height im) ->
  fsencode output ∉ readonly w ->
  let r1 := main png_size lower fsencode [prog; enc; input; output; message] w in
  let r2 := main png_size lower fsencode [prog; dec; output] (snd (fst r1)) in
  snd r1 = [] /\
  snd r2 = match message with
           | [] => []
           | _ :: _ => [PDecodedMessage message]
           end.
Proof.
  intros Henc Hdec Hf Him Hwf Hsb Hned Hcap Huse Hro r1 r2.
  pose proof (fits_of_usable message _ _ Hsb Huse) as Hfit.
  destruct (decode_after_encode png_size w (fsencode input) (fsencode output) message
              f im Hf Him Hwf Hfit Hro) as (Hok & _ & Hdecode).
  cbv zeta in Hok, Hdecode.
  destruct (encoded_image_stream im message Hwf Hfit) as [rest Hrest].
  rewrite Hrest, (decode_bits_roundtrip message rest Hsb Hned Hcap) in Hdecode.
  subst r2 r1. unfold main. cbn [length nth Nat.ltb Nat.leb].
  rewrite Henc, Hdec.
  change (str_eqb (py "encode") (py "encode")) with true.
  change (str_eqb (py "decode") (py "encode")) with false.
  change (str_eqb (py "decode") (py "decode")) with true.
  cbn [andb].
  destruct (encode_image png_size (fsencode input) message (fsencode output) w)
    as [[e|ok] w1]; [discriminate|].
  cbn [fst snd] in *. split; [reflexivity|].
  destruct (decode_image (fsencode output) w1) as [[e|found] w2]; [discriminate|].
  cbn [fst snd] in *. injection Hdecode as ->. by destruct message.
Qed.

Lemma main_round_trip_witness :
  let r1 := main raw_size ascii_lower latin1_path
              [py "steganography.py"; py "Encode"; py "in.png"; py "out.png"; py "hi"]
              demo_world in
  let r2 := main raw_size ascii_lower latin1_path
              [py "steganography.py"; py "DECODE"; py "out.png"] (snd (fst r1)) in
  snd r1 = [] /\ snd r2 = [PDecodedMessage (py "hi")].
Proof.
  apply (main_round_trip raw_size ascii_lower latin1_path demo_world
           (py "steganography.py") (py "Encode") (py "DECODE")
           (py "in.png") (py "out.png") (py "hi") demo_file demo_image).
  - reflexivity.
  - reflexivity.
  - reflexivity.
  - reflexivity.
  - reflexivity.
  - reflexivity.
  - reflexivity.
  - change (length (py "hi")) with 2%nat. lia.
  - vm_compute. discriminate.
  - apply not_elem_of_empty.
Defined.

(** ** The history database *)

Lemma find_app {A} (g : A -> bool) (l1 l2 : list A) :
  find g (l1 ++ l2) = match find g l1 with Some x => Some x | None => find g l2 end.
Proof.
  induction l1 as [|x l1 IH]; [reflexivity|].
  cbn [app find]. by destruct (g x).
Qed.

Lemma find_absent {A} (g : A -> bool) (l : list A) :
  (forall x, In x l -> g x = false) -> find g l = None.
Proof.
  induction l as [|x l IH]; intros H; [reflexivity|].
  cbn [find]. rewrite (H x) by (by left). apply IH. intros y Hy. apply H. by right.
Qed.

Lemma find_id_absent (i : Z) (rows : list Database.StegImage) :
  ~ In i (map Database.id rows) ->
  find (fun r => Database.id r =? i) rows = None.
Proof.
  intros Hfresh. apply find_absent. intros r Hr.
  apply Z.eqb_neq. intros <-. apply Hfresh. by apply in_map.
Qed.

Lemma find_filter_same (i : Z) (rows : list Database.StegImage) :
  find (fun r => Database.id r =? i)
       (List.filter (fun r => negb (Database.id r =? i)) rows) = None.
Proof.
  induction rows as [|r rows IH]; [reflexivity|].
  cbn [List.filter]. destruct (Database.id r =? i) eqn:Hr; cbn [negb]; [exact IH|].
  cbn [find]. by rewrite Hr.
Qed.

Lemma find_filter_other (i j : Z) (rows : list Database.StegImage) :
  j <> i ->
  find (fun r => Database.id r =? j)
       (List.filter (fun r => negb (Database.id r =? i)) rows)
  = find (fun r => Database.id r =? j) rows.
Proof.
  intros Hji. induction rows as [|r rows IH]; [reflexivity|].
  cbn [List.filter find].
  destruct (Z.eqb_spec (Database.id r) i) as [Hi|Hi]; cbn [negb].
  - destruct (Z.eqb_spec (Database.id r) j) as [Hj|Hj]; [congruence|exact IH].
  - cbn [find]. by rewrite IH.
Qed.





Lemma filter_length_snoc {A} (g : A -> bool) (l : list A) (x : A) :
  length (List.filter g (l ++ [x]))
  = (length (List.filter g l) + if g x then 1 else 0)%nat.
Proof.
  rewrite List.filter_app, length_app. cbn [List.filter].
  by destruct (g x).
Qed.




